(** * mmo-engine: matchmaking, game sessions and Elo ratings

    A shallow embedding of the JavaScript services of the repository
    (EloCalculator, PlayerService, GameService, MatchmakingService) and the
    properties of its specification, stated and settled on that embedding.

    Conventions of the model.
    - JavaScript numbers are IEEE doubles.  Ratings, timestamps and counters
      are integers in every record the services build, so they are [Z] there;
      a number that can be anything (an argument of the calculator, the
      opponent rating of an update) is a [number]: a real, [NaN] or an
      infinity.  The arithmetic on finite numbers is that of the reals:
      rounding error and overflow of doubles are left out, so what is proved of
      the value of the formula is meant for magnitudes far below 2^53.
    - A plain object answers to the properties of [Object.prototype] as well
      as to its own keys; where the services index an object by a mode, both
      are modelled.
    - [Date.now()] is an explicit argument [now].
    - A thrown [Error] is a value of type [error]; operations of the services
      are state transformers that return the world they leave behind together
      with either a value or the error thrown.
    - The Redis wrapper and the RabbitMQ client are those of config/redis.js
      and config/rabbitmq.js; the store and the broker behind them are not part
      of the repository, and the store is modelled by what its commands do to
      sorted sets and keys. *)

From Stdlib Require Import ZArith Reals Lra Lia List Bool String Ascii.
From stdpp Require Import base option list gmap strings pretty sorting.

Open Scope Z_scope.

(** ** JavaScript values and errors *)

(** A JavaScript number: a double, a real number when it is finite. *)
Inductive number : Type :=
  | Num (x : R)
  | NaN
  | PlusInfinity
  | MinusInfinity.

(** An integer as a number. *)
Definition integer (z : Z) : number := Num (IZR z).

Coercion integer : Z >-> number.

(** The values a rating or an outcome argument can be at run time. *)
Inductive jsval : Type :=
  | JUndefined
  | JNull
  | JBool (b : bool)
  | JStr (s : string)
  | JNumber (n : number).

Abbreviation JNum x := (JNumber (Num x)).
Abbreviation JNaN := (JNumber NaN).
Abbreviation JInfinity := (JNumber PlusInfinity).
Abbreviation JMinusInfinity := (JNumber MinusInfinity).

(** [typeof v === 'number'] ([NaN] and the infinities are numbers for
    [typeof]). *)
Definition typeof_number (v : jsval) : bool :=
  match v with
  | JNumber _ => true
  | _ => false
  end.

(** The [Error]s the services throw, by message. *)
Inductive error : Type :=
  | RatingsMustBeNumbers      (* 'Ratings must be numbers' *)
  | ResultMustBeWinLossDraw   (* 'Result must be win, loss, or draw' *)
  | InvalidResult             (* 'Invalid result' *)
  | PlayerNotFound            (* 'Player not found' *)
  | StoreError                (* a rejected Redis command *)
  | ChannelNotInitialized     (* 'RabbitMQ channel not initialized' *)
  | NotAFunction              (* TypeError: ... is not a function *)
  | NotValidJSON.             (* SyntaxError of JSON.parse *)

(** The error taxonomy of the specification (section 7), as far as the
    services meet it; [Unforeseen] is an error the taxonomy does not name (a
    TypeError or SyntaxError of the runtime). *)
Inductive errkind : Type := InvalidInput | NotFound | TransientBackend | Unforeseen.

Definition classify (e : error) : errkind :=
  match e with
  | RatingsMustBeNumbers | ResultMustBeWinLossDraw | InvalidResult => InvalidInput
  | PlayerNotFound => NotFound
  | StoreError | ChannelNotInitialized => TransientBackend
  | NotAFunction | NotValidJSON => Unforeseen
  end.

(** [Math.round]: the nearest integer, halves rounded up. *)
Definition Math_round (x : R) : Z := Zfloor (x + / 2).

(** ** Arithmetic of doubles on the infinities

    What the operations of the rating formula give when an operand is not
    finite (IEEE 754). *)

(** [n + d] for a finite [d]. *)
Definition number_plus (n : number) (d : R) : number :=
  match n with
  | Num x => Num (x + d)
  | other => other
  end.

(** [a - b]. *)
Definition number_minus (a b : number) : number :=
  match a, b with
  | Num x, Num y => Num (x - y)
  | NaN, _ | _, NaN => NaN
  | PlusInfinity, PlusInfinity | MinusInfinity, MinusInfinity => NaN
  | PlusInfinity, _ | _, MinusInfinity => PlusInfinity
  | MinusInfinity, _ | _, PlusInfinity => MinusInfinity
  end.

(** [Math.max(100, n)]. *)
Definition number_max_100 (n : number) : number :=
  match n with
  | Num x => Num (Rmax 100 x)
  | NaN => NaN
  | PlusInfinity => PlusInfinity
  | MinusInfinity => Num 100
  end.

(** [Math.round(n)]. *)
Definition number_round (n : number) : number :=
  match n with
  | Num x => Num (IZR (Math_round x))
  | other => other
  end.

(** ** EloCalculator *)
Module EloCalculator.

(** [['win', 'loss', 'draw'].includes(result)]. *)
Definition is_result (result : jsval) : bool :=
  match result with
  | JStr s => bool_decide (s = "win"%string) || bool_decide (s = "loss"%string)
              || bool_decide (s = "draw"%string)
  | _ => false
  end.

Definition validateInputs (playerRating opponentRating result : jsval)
  : option error :=
  if negb (typeof_number playerRating) || negb (typeof_number opponentRating)
  then Some RatingsMustBeNumbers
  else if negb (is_result result) then Some ResultMustBeWinLossDraw
  else None.

(** [1 / (1 + Math.pow(10, (opponentRating - playerRating) / 400))] for
    finite ratings. *)
Definition calculateExpectedScore (playerRating opponentRating : R) : R :=
  (1 / (1 + Rpower 10 ((opponentRating - playerRating) / 400)))%R.

(** [calculateExpectedScore] on any two numbers; [None] is [NaN].  With
    an exponent of [Infinity] the power is [Infinity] and the quotient 0; with
    an exponent of [-Infinity] the power is 0 and the quotient 1; the
    difference of two equal infinities is [NaN]. *)
Definition expectedScore (playerRating opponentRating : number) : option R :=
  match number_minus opponentRating playerRating with
  | Num d => Some (1 / (1 + Rpower 10 (d / 400)))%R
  | PlusInfinity => Some 0%R
  | MinusInfinity => Some 1%R
  | NaN => None
  end.

(** The [switch] has no default: any other value yields [undefined]. *)
Definition getActualScore (result : jsval) : option R :=
  match result with
  | JStr s =>
      if bool_decide (s = "win"%string) then Some 1%R
      else if bool_decide (s = "loss"%string) then Some 0%R
      else if bool_decide (s = "draw"%string) then Some (/ 2)%R
      else None
  | _ => None
  end.

(** The new rating: [inl e] when [validateInputs] throws [e]; otherwise the
    number returned. *)
Definition calculateNewRating (playerRating opponentRating result : jsval)
    (kFactor : R) : error + number :=
  match validateInputs playerRating opponentRating result with
  | Some e => inl e
  | None =>
      match playerRating, opponentRating, getActualScore result with
      | JNumber p, JNumber o, Some actualScore =>
          match expectedScore p o with
          | Some expectedScore =>
              let newRating :=
                number_plus p (kFactor * (actualScore - expectedScore)) in
              inr (number_round (number_max_100 newRating))
          | None => inr NaN
          end
      | _, _, _ => inr NaN
      end
  end.

Definition calculateRatingChange (playerRating opponentRating result : jsval)
    (kFactor : R) : error + number :=
  match validateInputs playerRating opponentRating result with
  | Some e => inl e
  | None =>
      match calculateNewRating playerRating opponentRating result kFactor,
            playerRating with
      | inl e, _ => inl e
      | inr newRating, JNumber p => inr (number_minus newRating p)
      | inr _, _ => inr NaN
      end
  end.

(** The default value of the [kFactor] parameter. *)
Definition defaultK : R := 32%R.

End EloCalculator.


(** ** Records of the data model *)

(** [player.stats]. *)
Record Stats : Type := mkStats {
  gamesPlayed : Z;
  wins : Z;
  losses : Z;
  draws : Z
}.

(** A player as persisted under [player:<id>].  A rating is stored as JSON:
    [Some z] is the number [z], [None] is [null] (what [JSON.stringify]
    writes for [NaN]); a mode without a key is absent from the map. *)
Record Player : Type := mkPlayer {
  player_id : string;
  player_username : string;
  player_ratings : gmap string (option Z);
  player_stats : Stats;
  player_createdAt : Z;
  player_lastActive : Z
}.

(** The [preferences] object of a queue entry; an absent key is [None]. *)
Record Preferences : Type := mkPreferences {
  region : option string;
  timeControl : option string;
  maxLatency : option Z;
  skillLevel : option string
}.

Definition no_preferences : Preferences := mkPreferences None None None None.

(** [playerData] of [addToQueue]: one waiting player in a mode queue. *)
Record QueueEntry : Type := mkQueueEntry {
  entry_id : string;
  entry_username : string;
  entry_rating : Z;
  entry_preferences : Preferences;
  entry_socketId : string;
  entry_joinedAt : Z;
  entry_searchExpansion : Z
}.

(** A participant as copied into a game by [createGame]. *)
Record GamePlayer : Type := mkGamePlayer {
  gp_id : string;
  gp_username : string;
  gp_rating : Z;
  gp_socketId : string
}.

Inductive GameStatus : Type := starting | active | finished.

(** [game.result]. *)
Record GameResult : Type := mkGameResult {
  winnerId : option string;
  reason : string
}.

(** The static configuration [getGameConfig] returns for a mode. *)
Inductive GameConfig : Type :=
  | FpsConfig     (* maxPlayers 10, mapSize 1000 x 1000, gameTime 600000 *)
  | ChessConfig   (* maxPlayers 2, timeControl '10+0', increment 0 *)
  | MobaConfig    (* maxPlayers 10, teamSize 5, gameTime 1800000 *)
  | RtsConfig     (* maxPlayers 2, mapSize '128x128', resources minerals, gas *)
  | EmptyConfig.  (* any other mode: the empty object *)

Record Game : Type := mkGame {
  game_id : string;
  game_players : list GamePlayer;
  game_gameMode : string;
  game_status : GameStatus;
  game_createdAt : Z;
  game_config : GameConfig;
  game_startedAt : option Z;
  game_endedAt : option Z;
  game_result : option GameResult
}.

(** [matchData] of [createMatch]. *)
Record MatchData : Type := mkMatchData {
  match_gameId : string;
  match_players : list QueueEntry;
  match_gameMode : string;
  match_createdAt : Z
}.

(** The second argument of a ['game_update'] event. *)
Inductive GameUpdate : Type :=
  | game_started (g : Game)
  | game_ended (r : GameResult)
  | move (playerId : string) (from to : option string) (timestamp : Z)
  | player_position (playerId : string) (position rotation : option string)
      (timestamp : Z)
  | player_shoot (playerId : string) (target : option string) (timestamp : Z).

(** What the two event emitters emit. *)
Inductive Event : Type :=
  | match_found (m : MatchData)
  | game_update (gameId : string) (u : GameUpdate).

(** What is handed to [RabbitMQClient.publish]: routing key and subject. *)
Record BusMessage : Type := mkBusMessage {
  routingKey : string;
  subject : string;
  bus_gameMode : string;
  bus_timestamp : Z
}.

(** A callback registered with [setTimeout], with the time it is due. *)
Inductive Timer : Type :=
  | StartGameAt (due : Z) (gameId : string)
  | EvictGameAt (due : Z) (gameId : string).

(** ** JSON text of a queue entry

    A member of a queue's sorted set is [JSON.stringify(playerData)].  Redis
    compares members as byte strings, so the text decides both the identity of
    a member and the order among members of equal score.  A string is a
    sequence of bytes, the UTF-8 text of the JavaScript string. *)

Definition dquote : string := String (ascii_of_nat 34) EmptyString.

Definition backslash : string := String (ascii_of_nat 92) EmptyString.

(** A hexadecimal digit, in lower case. *)
Definition hex_digit (n : nat) : string :=
  String (ascii_of_nat (if (n <? 10)%nat then 48 + n else 87 + n)) EmptyString.

(** What [JSON.stringify] writes for one character inside a string: the
    quote, the backslash and the control characters are escaped. *)
Definition json_escape_char (c : ascii) : string :=
  let n := nat_of_ascii c in
  if (n =? 34)%nat then backslash +:+ dquote
  else if (n =? 92)%nat then backslash +:+ backslash
  else if (n =? 8)%nat then backslash +:+ "b"
  else if (n =? 9)%nat then backslash +:+ "t"
  else if (n =? 10)%nat then backslash +:+ "n"
  else if (n =? 12)%nat then backslash +:+ "f"
  else if (n =? 13)%nat then backslash +:+ "r"
  else if (n <? 32)%nat
  then backslash +:+ "u00" +:+ hex_digit (n / 16) +:+ hex_digit (n mod 16)
  else String c EmptyString.

Fixpoint json_escape (s : string) : string :=
  match s with
  | EmptyString => EmptyString
  | String c rest => json_escape_char c +:+ json_escape rest
  end.

Definition json_string (s : string) : string :=
  dquote +:+ json_escape s +:+ dquote.

Definition json_field (key value : string) : string :=
  json_string key +:+ ":" +:+ value.

Fixpoint json_join (fields : list string) : string :=
  match fields with
  | [] => ""
  | [f] => f
  | f :: rest => f +:+ "," +:+ json_join rest
  end.

Definition json_object (fields : list string) : string :=
  "{" +:+ json_join fields +:+ "}".

Definition json_optional {A} (key : string) (show : A -> string) (v : option A)
  : list string :=
  match v with
  | Some a => [json_field key (show a)]
  | None => []
  end.

Definition preferences_text (p : Preferences) : string :=
  json_object (json_optional "region" json_string (region p)
               ++ json_optional "timeControl" json_string (timeControl p)
               ++ json_optional "maxLatency" pretty (maxLatency p)
               ++ json_optional "skillLevel" json_string (skillLevel p)).

Definition entry_text (e : QueueEntry) : string :=
  json_object [ json_field "id" (json_string (entry_id e));
                json_field "username" (json_string (entry_username e));
                json_field "rating" (pretty (entry_rating e));
                json_field "preferences" (preferences_text (entry_preferences e));
                json_field "socketId" (json_string (entry_socketId e));
                json_field "joinedAt" (pretty (entry_joinedAt e));
                json_field "searchExpansion" (pretty (entry_searchExpansion e)) ].

(** ** Redis sorted sets

    A sorted set is the list of its (member, score) pairs in ascending order
    of score, members of equal score in ascending order of their text; no two
    pairs have the same member text. *)
Section SortedSet.
Context {A : Type} (text : A -> string).

Definition zset_before (x y : A * Z) : bool :=
  (x.2 <? y.2) || ((x.2 =? y.2) && String.ltb (text x.1) (text y.1)).

Fixpoint zset_insert (x : A * Z) (l : list (A * Z)) : list (A * Z) :=
  match l with
  | [] => [x]
  | y :: l' => if zset_before x y then x :: y :: l' else y :: zset_insert x l'
  end.

(** [ZREM key member]. *)
Definition zRem (member : string) (l : list (A * Z)) : list (A * Z) :=
  filter (fun y => text y.1 ≠ member) l.

(** [ZADD key score member]: a member already present moves to its new
    score. *)
Definition zAdd (score : Z) (member : A) (l : list (A * Z)) : list (A * Z) :=
  zset_insert (member, score) (zRem (text member) l).

(** [ZRANGE key 0 -1]: every member, ascending. *)
Definition zRangeAll (l : list (A * Z)) : list A := l.*1.

(** [ZCARD key]. *)
Definition zCard (l : list (A * Z)) : Z := Z.of_nat (length l).

(** [ZREVRANGE key 0 stop WITHSCORES]: descending; a negative [stop] counts
    from the end, a [stop] past the end means the end. *)
Definition zRevRangeWithScores (stop : Z) (l : list (A * Z)) : list (A * Z) :=
  let llen := Z.of_nat (length l) in
  let stop1 := if stop <? 0 then llen + stop else stop in
  if (stop1 <? 0) || (llen <=? 0) then []
  else take (Z.to_nat (Z.min stop1 (llen - 1) + 1)) (reverse l).
End SortedSet.

(** ** The world the services act on

    Redis holds the persisted records: player and game documents by id, one
    sorted set per queue and per leaderboard, by mode.  Expiry of keys (the
    TTLs) is not modelled.  [activeGames] is the in-memory map of one
    [GameService] instance; a game fetched from it is the very object the map
    holds, so an assignment to a field of that object is a change of the map.
    [faults] is the fate of the coming Redis commands: [true] rejects the
    next command, [false] lets it through, and every command succeeds once the
    list is used up.  [rabbitmq_channel] tells whether the [channel] of the
    RabbitMQ client the services share is set: it is [null] until [connect]
    has created it. *)
Record World : Type := mkWorld {
  redis_players : gmap string Player;
  redis_games : gmap string Game;
  redis_queues : gmap string (list (QueueEntry * Z));
  redis_leaderboards : gmap string (list (string * Z));
  activeGames : gmap string Game;
  emitted : list Event;
  published : list BusMessage;
  timers : list Timer;
  next_uuid : nat;
  faults : list bool;
  rabbitmq_channel : bool
}.

Definition set_players (f : gmap string Player -> gmap string Player) (w : World) :=
  mkWorld (f (redis_players w)) (redis_games w) (redis_queues w)
    (redis_leaderboards w) (activeGames w) (emitted w) (published w) (timers w)
    (next_uuid w) (faults w) (rabbitmq_channel w).

Definition set_games (f : gmap string Game -> gmap string Game) (w : World) :=
  mkWorld (redis_players w) (f (redis_games w)) (redis_queues w)
    (redis_leaderboards w) (activeGames w) (emitted w) (published w) (timers w)
    (next_uuid w) (faults w) (rabbitmq_channel w).

Definition set_queues
    (f : gmap string (list (QueueEntry * Z)) -> gmap string (list (QueueEntry * Z)))
    (w : World) :=
  mkWorld (redis_players w) (redis_games w) (f (redis_queues w))
    (redis_leaderboards w) (activeGames w) (emitted w) (published w) (timers w)
    (next_uuid w) (faults w) (rabbitmq_channel w).

Definition set_leaderboards
    (f : gmap string (list (string * Z)) -> gmap string (list (string * Z)))
    (w : World) :=
  mkWorld (redis_players w) (redis_games w) (redis_queues w)
    (f (redis_leaderboards w)) (activeGames w) (emitted w) (published w) (timers w)
    (next_uuid w) (faults w) (rabbitmq_channel w).

Definition set_activeGames (f : gmap string Game -> gmap string Game) (w : World) :=
  mkWorld (redis_players w) (redis_games w) (redis_queues w)
    (redis_leaderboards w) (f (activeGames w)) (emitted w) (published w) (timers w)
    (next_uuid w) (faults w) (rabbitmq_channel w).

Definition set_emitted (f : list Event -> list Event) (w : World) :=
  mkWorld (redis_players w) (redis_games w) (redis_queues w)
    (redis_leaderboards w) (activeGames w) (f (emitted w)) (published w) (timers w)
    (next_uuid w) (faults w) (rabbitmq_channel w).

Definition set_published (f : list BusMessage -> list BusMessage) (w : World) :=
  mkWorld (redis_players w) (redis_games w) (redis_queues w)
    (redis_leaderboards w) (activeGames w) (emitted w) (f (published w)) (timers w)
    (next_uuid w) (faults w) (rabbitmq_channel w).

Definition set_timers (f : list Timer -> list Timer) (w : World) :=
  mkWorld (redis_players w) (redis_games w) (redis_queues w)
    (redis_leaderboards w) (activeGames w) (emitted w) (published w) (f (timers w))
    (next_uuid w) (faults w) (rabbitmq_channel w).

Definition set_next_uuid (f : nat -> nat) (w : World) :=
  mkWorld (redis_players w) (redis_games w) (redis_queues w)
    (redis_leaderboards w) (activeGames w) (emitted w) (published w) (timers w)
    (f (next_uuid w)) (faults w) (rabbitmq_channel w).

Definition set_faults (f : list bool -> list bool) (w : World) :=
  mkWorld (redis_players w) (redis_games w) (redis_queues w)
    (redis_leaderboards w) (activeGames w) (emitted w) (published w) (timers w)
    (next_uuid w) (f (faults w)) (rabbitmq_channel w).

Definition set_rabbitmq_channel (f : bool -> bool) (w : World) :=
  mkWorld (redis_players w) (redis_games w) (redis_queues w)
    (redis_leaderboards w) (activeGames w) (emitted w) (published w) (timers w)
    (next_uuid w) (faults w) (f (rabbitmq_channel w)).

(** An empty store behind a server that has started: the channel is set. *)
Definition empty_world : World := mkWorld ∅ ∅ ∅ ∅ ∅ [] [] [] 0 [] true.

(** ** Computations that can throw *)

(** An operation leaves a world behind whether it returns or throws. *)
Definition M (A : Type) : Type := World -> World * (error + A).

#[global] Instance M_ret : MRet M := fun A a w => (w, inr a).

#[global] Instance M_bind : MBind M := fun A B k m w =>
  match m w with
  | (w', inl e) => (w', inl e)
  | (w', inr a) => k a w'
  end.

Definition throw {A} (e : error) : M A := fun w => (w, inl e).

Definition gets {A} (f : World -> A) : M A := fun w => (w, inr (f w)).

(** The outcome of a function that touches nothing. *)
Definition lift {A} (r : error + A) : M A := fun w => (w, r).

Definition modify (f : World -> World) : M unit := fun w => (f w, inr tt).

(** [try { body } catch (error) { console.error(...) }]. *)
Definition try_catch (body : M unit) : M unit := fun w => ((body w).1, inr tt).

(** [for (const x of xs) { await body(x) }]. *)
Fixpoint for_each {A} (body : A -> M unit) (xs : list A) : M unit :=
  match xs with
  | [] => mret tt
  | x :: rest => body x ;; for_each body rest
  end.

(** The world an operation leaves, and what it returned or threw. *)
Definition exec {A} (m : M A) (w : World) : World := (m w).1.
Definition outcome {A} (m : M A) (w : World) : error + A := (m w).2.

(** ** The Redis client (the commands the services use) *)
Module RedisClient.



(** Every command first meets its fate in [faults]. *)
Definition command {A} (run : M A) : M A := fun w =>
  match faults w with
  | true :: rest => (set_faults (fun _ => rest) w, inl StoreError)
  | false :: rest => run (set_faults (fun _ => rest) w)
  | [] => run w
  end.

(** [get('player:' + id)], parsed. *)
Definition get_player (id : string) : M (option Player) :=
  command (gets (fun w => redis_players w !! id)).

(** [setEx('player:' + id, 86400, JSON.stringify(player))]. *)
Definition setEx_player (id : string) (p : Player) : M unit :=
  command (modify (set_players <[id := p]>)).

(** [get('game:' + id)], parsed. *)
Definition get_game (id : string) : M (option Game) :=
  command (gets (fun w => redis_games w !! id)).

(** [setEx('game:' + id, 7200, JSON.stringify(game))]. *)
Definition setEx_game (id : string) (g : Game) : M unit :=
  command (modify (set_games <[id := g]>)).

(** [zAdd('leaderboard:' + board, [{ score, value }])].  A score that is
    not a number ([undefined] or [NaN], here [None]) is rejected. *)
Definition zAdd_leaderboard (board : string) (score : option Z) (value : string)
  : M unit :=
  command (match score with
           | Some s =>
               modify (set_leaderboards (fun lb =>
                 <[board := zAdd (fun m : string => m) s value (default [] (lb !! board))]> lb))
           | None => throw StoreError
           end).


(** [zAdd('queue:' + mode, [{ score, value: JSON.stringify(playerData) }])]. *)
Definition zAdd_queue (mode : string) (score : Z) (value : QueueEntry) : M unit :=
  command (modify (set_queues (fun qs =>
    <[mode := zAdd entry_text score value (default [] (qs !! mode))]> qs))).

(** [zAdd('queue:' + mode, [{ score, value }])] with a [score] that is not
    a number: the command is rejected. *)
Definition zAdd_queue_rejected : M unit := command (throw StoreError).

(** [zRem('queue:' + mode, member)]. *)
Definition zRem_queue (mode : string) (member : string) : M unit :=
  command (modify (set_queues (fun qs =>
    <[mode := zRem entry_text member (default [] (qs !! mode))]> qs))).

(** [zRange('queue:' + mode, 0, -1)], each member parsed. *)
Definition zRange_queue (mode : string) : M (list QueueEntry) :=
  command (gets (fun w => zRangeAll (default [] (redis_queues w !! mode)))).

(** [zCard('queue:' + mode)]. *)
Definition zCard_queue (mode : string) : M Z :=
  command (gets (fun w => zCard (default [] (redis_queues w !! mode)))).

(** [expire(key, seconds)]: expiry is not modelled, the command can fail. *)
Definition expire : M unit := command (mret tt).

End RedisClient.

(** [RabbitMQClient.publish(routingKey, data)] on the client the services
    share (config/rabbitmq.js): it throws while the channel is not set;
    otherwise the message is handed to [channel.publish], whose answer is only
    logged. *)
Definition publish (key subject mode : string) (now : Z) : M unit :=
  channel ← gets rabbitmq_channel;
  if channel : bool
  then modify (set_published (fun l => l ++ [mkBusMessage key subject mode now]))
  else throw ChannelNotInitialized.

(** [this.emit(...)]. *)
Definition emit (e : Event) : M unit := modify (set_emitted (fun l => l ++ [e])).

(** [setTimeout(callback, delay)]. *)
Definition setTimeout (t : Timer) : M unit := modify (set_timers (fun l => l ++ [t])).

(** [uuidv4()]: a fresh identifier each call. *)
Definition uuid_of (n : nat) : string := "uuid-" +:+ pretty n.

Definition uuidv4 : M string := fun w =>
  (set_next_uuid S w, inr (uuid_of (next_uuid w))).

(** ** Keys that every plain object answers to

    [o[key]] on an object literal, or on an object parsed from JSON, finds
    the keys of the object itself and then the properties of
    [Object.prototype]: its methods, which are functions, and [__proto__],
    which is [Object.prototype] itself.  None of them is a number, all of
    them are truthy. *)
Definition Object_prototype_methods : list string :=
  [ "constructor"; "hasOwnProperty"; "isPrototypeOf"; "propertyIsEnumerable";
    "toLocaleString"; "toString"; "valueOf"; "__defineGetter__";
    "__defineSetter__"; "__lookupGetter__"; "__lookupSetter__" ]%string.

(** [key] names a property of [Object.prototype]. *)
Definition inherited (key : string) : bool :=
  bool_decide (key ∈ Object_prototype_methods)
  || bool_decide (key = "__proto__"%string).

(** ** PlayerService *)
Module PlayerService.

(** [this.eloK]. *)
Definition eloK : R := 32%R.

(** The [ratings] object of a new player. *)
Definition initial_ratings : gmap string (option Z) :=
  <["fps"%string := Some 1000]> (<["chess"%string := Some 1000]>
    (<["moba"%string := Some 1000]> (<["rts"%string := Some 1000]> ∅))).

(** The value of [ratings[gameMode]] as a zAdd score: without a key of
    that name the value is [undefined], or a function or object inherited from
    [Object.prototype], none of which is a number. *)
Definition rating_score (v : option (option Z)) : option Z :=
  match v with
  | Some (Some z) => Some z
  | _ => None
  end.

(** [createPlayer(username, gameMode = 'fps')]; no check is made on
    [username]. *)
Definition createPlayer (username : string) (gameMode : option string) (now : Z)
  : M Player :=
  let gameMode := default "fps"%string gameMode in
  playerId ← uuidv4;
  let player := mkPlayer playerId username initial_ratings (mkStats 0 0 0 0) now now in
  RedisClient.setEx_player playerId player;;
  RedisClient.zAdd_leaderboard "global"
    (rating_score (player_ratings player !! gameMode)) playerId;;
  mret player.

Definition getPlayer (playerId : string) : M (option Player) :=
  RedisClient.get_player playerId.

Definition calculateExpectedScore (playerRating opponentRating : R) : R :=
  (1 / (1 + Rpower 10 ((opponentRating - playerRating) / 400)))%R.

(** [ratings[gameMode]] as an operand of the arithmetic: [null] counts as
    0; without a key of that name the value is [undefined], or a function or
    object inherited from [Object.prototype], and each of them gives [NaN]
    ([None]). *)
Definition rating_operand (v : option (option Z)) : option Z :=
  match v with
  | None => None
  | Some None => Some 0
  | Some (Some z) => Some z
  end.

(** The [switch (result)] of [updatePlayerRating]. *)
Definition actualScore_of (result : string) : M R :=
  if bool_decide (result = "win"%string) then mret 1%R
  else if bool_decide (result = "loss"%string) then mret 0%R
  else if bool_decide (result = "draw"%string) then mret (/ 2)%R
  else throw InvalidResult.

(** [Math.max(100, Math.round(currentRating + eloK * (actualScore -
    expectedScore)))] for integer ratings. *)
Definition newRating_of (currentRating opponentRating : Z) (actualScore : R) : Z :=
  let expectedScore :=
    calculateExpectedScore (IZR currentRating) (IZR opponentRating) in
  let newRating :=
    Math_round (IZR currentRating + eloK * (actualScore - expectedScore)) in
  Z.max 100 newRating.

(** [calculateExpectedScore] on any two numbers; [None] is [NaN] (the
    arithmetic is that of [EloCalculator.expectedScore]). *)
Definition expectedScore (playerRating opponentRating : number) : option R :=
  match number_minus opponentRating playerRating with
  | Num d => Some (1 / (1 + Rpower 10 (d / 400)))%R
  | PlusInfinity => Some 0%R
  | MinusInfinity => Some 1%R
  | NaN => None
  end.

(** The value assigned to [player.ratings[gameMode]], whatever the operands:
    [None] is [NaN], which [Math.round] and [Math.max] hand on. *)
Definition newRating_for (currentRating : option Z) (opponentRating : number)
    (actualScore : R) : option Z :=
  match currentRating with
  | None => None
  | Some c =>
      match expectedScore (integer c) opponentRating with
      | None => None
      | Some expectedScore =>
          Some (Z.max 100
                  (Math_round (IZR c + eloK * (actualScore - expectedScore))))
      end
  end.

(** The stats after one more game with the given result. *)
Definition bump_stats (result : string) (s : Stats) : Stats :=
  let played := gamesPlayed s + 1 in
  if bool_decide (result = "win"%string)
  then mkStats played (wins s + 1) (losses s) (draws s)
  else if bool_decide (result = "loss"%string)
  then mkStats played (wins s) (losses s + 1) (draws s)
  else mkStats played (wins s) (losses s) (draws s + 1).

(** [ratings[gameMode] = value] for a number [value] ([None] for [NaN],
    persisted as [null]).  The key [__proto__], unless the object has it as
    a key of its own, is the accessor of [Object.prototype], whose setter
    ignores a value that is a number: nothing is assigned then. *)
Definition assign_rating (ratings : gmap string (option Z)) (gameMode : string)
    (value : option Z) : gmap string (option Z) :=
  if bool_decide (gameMode = "__proto__"%string /\ ratings !! gameMode = None)
  then ratings
  else <[gameMode := value]> ratings.

(** The player object after the assignments of [updatePlayerRating]:
    the new rating of the mode, the stats and [lastActive]. *)
Definition rated_player (player : Player) (gameMode : string) (stored : option Z)
    (result : string) (now : Z) : Player :=
  mkPlayer (player_id player) (player_username player)
    (assign_rating (player_ratings player) gameMode stored)
    (bump_stats result (player_stats player))
    (player_createdAt player) now.

(** [updatePlayerRating(playerId, gameMode, opponentRating, result)].  No
    check is made on the ratings.  [opponentRating] is only ever the operand
    of a subtraction, which converts it to a number: the argument here is that
    number ([NaN] for [undefined] and for a text that is no numeral). *)
Definition updatePlayerRating (playerId gameMode : string) (opponentRating : number)
    (result : string) (now : Z) : M Player :=
  found ← getPlayer playerId;
  match found with
  | None => throw PlayerNotFound
  | Some player =>
      let currentRating := rating_operand (player_ratings player !! gameMode) in
      actualScore ← actualScore_of result;
      let stored := newRating_for currentRating opponentRating actualScore in
      let player' := rated_player player gameMode stored result now in
      RedisClient.setEx_player playerId player';;
      RedisClient.zAdd_leaderboard gameMode stored playerId;;
      mret player'
  end.




End PlayerService.

(** ** GameService *)
Module GameService.

(** [JSON.parse(JSON.stringify(configs[gameMode] || {}))].  For a
    [gameMode] that names a method of [Object.prototype], [configs[gameMode]]
    is that function, [JSON.stringify] gives [undefined] for it and
    [JSON.parse] throws a SyntaxError; for [__proto__] it is
    [Object.prototype], written as the empty object. *)
Definition getGameConfig (gameMode : string) : error + GameConfig :=
  if bool_decide (gameMode = "fps"%string) then inr FpsConfig
  else if bool_decide (gameMode = "chess"%string) then inr ChessConfig
  else if bool_decide (gameMode = "moba"%string) then inr MobaConfig
  else if bool_decide (gameMode = "rts"%string) then inr RtsConfig
  else if bool_decide (gameMode ∈ Object_prototype_methods) then inl NotValidJSON
  else inr EmptyConfig.

Definition createGame (gameId : string) (players : list QueueEntry)
    (gameMode : string) (now : Z) : M Game :=
  config ← lift (getGameConfig gameMode);
  let game :=
    mkGame gameId
      (map (fun p => mkGamePlayer (entry_id p) (entry_username p)
                       (entry_rating p) (entry_socketId p)) players)
      gameMode starting now config None None None in
  RedisClient.setEx_game gameId game;;
  modify (set_activeGames <[gameId := game]>);;
  setTimeout (StartGameAt (now + 5000) gameId);;
  mret game.

(** The game held in memory, else the persisted one, which is then held in
    memory too. *)
Definition getGame (gameId : string) : M (option Game) :=
  held ← gets (fun w => activeGames w !! gameId);
  match held with
  | Some game => mret (Some game)
  | None =>
      gameData ← RedisClient.get_game gameId;
      match gameData with
      | Some game =>
          modify (set_activeGames <[gameId := game]>);;
          mret (Some game)
      | None => mret None
      end
  end.

Definition updateGame (gameId : string) (game : Game) : M unit :=
  RedisClient.setEx_game gameId game;;
  modify (set_activeGames <[gameId := game]>).

(** The game object after [game.status = 'active'; game.startedAt =
    Date.now()]. *)
Definition started (game : Game) (now : Z) : Game :=
  mkGame (game_id game) (game_players game) (game_gameMode game) active
    (game_createdAt game) (game_config game) (Some now)
    (game_endedAt game) (game_result game).

(** The game object after [game.status = 'finished'; game.endedAt =
    Date.now(); game.result = { winnerId, reason }]. *)
Definition ended (game : Game) (winnerId : option string) (reason : string)
    (now : Z) : Game :=
  mkGame (game_id game) (game_players game) (game_gameMode game) finished
    (game_createdAt game) (game_config game) (game_startedAt game)
    (Some now) (Some (mkGameResult winnerId reason)).

(** [startGame(gameId)]: there is no test of the status.  The two
    assignments change the object [activeGames] holds. *)
Definition startGame (gameId : string) (now : Z) : M unit :=
  found ← getGame gameId;
  match found with
  | None => mret tt
  | Some game =>
      let game' := started game now in
      modify (set_activeGames <[gameId := game']>);;
      updateGame gameId game';;
      emit (game_update gameId (game_started game'))
  end.

(** The rating updates of [endGame] for a two-player chess game. *)
Definition settle (gameMode : string) (winnerId : option string)
    (player1 player2 : GamePlayer) (now : Z) : M unit :=
  if bool_decide (winnerId = Some (gp_id player1)) then
    PlayerService.updatePlayerRating (gp_id player1) gameMode (gp_rating player2) "win" now;;
    PlayerService.updatePlayerRating (gp_id player2) gameMode (gp_rating player1) "loss" now;;
    mret tt
  else if bool_decide (winnerId = Some (gp_id player2)) then
    PlayerService.updatePlayerRating (gp_id player2) gameMode (gp_rating player1) "win" now;;
    PlayerService.updatePlayerRating (gp_id player1) gameMode (gp_rating player2) "loss" now;;
    mret tt
  else
    PlayerService.updatePlayerRating (gp_id player1) gameMode (gp_rating player2) "draw" now;;
    PlayerService.updatePlayerRating (gp_id player2) gameMode (gp_rating player1) "draw" now;;
    mret tt.

(** [endGame(gameId, winnerId = null, reason = 'completed')]: there is no
    test of the status.  The three assignments change the object
    [activeGames] holds, before any rating is updated. *)
Definition endGame (gameId : string) (winnerId : option string) (reason : string)
    (now : Z) : M unit :=
  found ← getGame gameId;
  match found with
  | None => mret tt
  | Some game =>
      let game' := ended game winnerId reason now in
      modify (set_activeGames <[gameId := game']>);;
      match game_players game' with
      | [player1; player2] =>
          if bool_decide (game_gameMode game' = "chess"%string)
          then settle (game_gameMode game') winnerId player1 player2 now
          else mret tt
      | _ => mret tt
      end;;
      updateGame gameId game';;
      emit (game_update gameId (game_ended (mkGameResult winnerId reason)));;
      setTimeout (EvictGameAt (now + 60000) gameId)
  end.

(** The fields of an action payload the handlers read (the payload is an
    object; what the fields hold is opaque). *)
Record Payload : Type := mkPayload {
  payload_from : option string;
  payload_to : option string;
  payload_position : option string;
  payload_rotation : option string;
  payload_target : option string
}.

Definition handleChessAction (game : Game) (player : GamePlayer) (action : string)
    (payload : Payload) (now : Z) : M unit :=
  if bool_decide (action = "move"%string) then
    emit (game_update (game_id game)
            (move (gp_id player) (payload_from payload) (payload_to payload) now))
  else if bool_decide (action = "resign"%string) then
    endGame (game_id game) (Some (gp_id player)) "resignation" now
  else mret tt.

Definition handleFPSAction (game : Game) (player : GamePlayer) (action : string)
    (payload : Payload) (now : Z) : M unit :=
  if bool_decide (action = "position_update"%string) then
    emit (game_update (game_id game)
            (player_position (gp_id player) (payload_position payload)
               (payload_rotation payload) now))
  else if bool_decide (action = "shoot"%string) then
    emit (game_update (game_id game)
            (player_shoot (gp_id player) (payload_target payload) now))
  else mret tt.

(** [handleGameAction]: dropped unless the game is active and the socket is
    one of its participants'. *)
Definition handleGameAction (gameId socketId action : string) (payload : Payload)
    (now : Z) : M unit :=
  found ← getGame gameId;
  match found with
  | None => mret tt
  | Some game =>
      match game_status game with
      | active =>
          match List.find (fun p => bool_decide (gp_socketId p = socketId))
                  (game_players game) with
          | None => mret tt
          | Some player =>
              if bool_decide (game_gameMode game = "chess"%string)
              then handleChessAction game player action payload now
              else if bool_decide (game_gameMode game = "fps"%string)
              then handleFPSAction game player action payload now
              else mret tt
          end
      | _ => mret tt
      end
  end.

(** The callback of the eviction timer: [this.activeGames.delete(gameId)]. *)
Definition evict (gameId : string) : M unit :=
  modify (set_activeGames (delete gameId)).

End GameService.

(** ** MatchmakingService *)
Module MatchmakingService.

(** [player.ratings[gameMode] || 1000]: a missing, [null] or zero rating
    gives 1000.  For a [gameMode] that is no key of the ratings but names a
    property of [Object.prototype], the value is that function or object, not
    a number: [None]. *)
Definition rating_or_1000 (ratings : gmap string (option Z)) (gameMode : string)
  : option Z :=
  match ratings !! gameMode with
  | Some (Some z) => Some (if z =? 0 then 1000 else z)
  | Some None => Some 1000
  | None => if inherited gameMode then None else Some 1000
  end.

(** The [playerData] object [addToQueue] builds for a stored player, when
    its rating is a number. *)
Definition playerData_of (playerId : string) (player : Player) (gameMode : string)
    (preferences : option Preferences) (socketId : string) (now : Z)
  : option QueueEntry :=
  rating ← rating_or_1000 (player_ratings player) gameMode;
  Some (mkQueueEntry playerId (player_username player) rating
          (default no_preferences preferences) socketId now 0).

(** [addToQueue(playerId, gameMode, preferences = {}, socketId)].  With a
    rating that is not a number the [zAdd] is rejected. *)
Definition addToQueue (playerId gameMode : string) (preferences : option Preferences)
    (socketId : string) (now : Z) : M unit :=
  found ← PlayerService.getPlayer playerId;
  match found with
  | None => throw PlayerNotFound
  | Some player =>
      match playerData_of playerId player gameMode preferences socketId now with
      | Some playerData =>
          RedisClient.zAdd_queue gameMode (entry_rating playerData) playerData;;
          RedisClient.expire;;
          publish "matchmaking.queue.join" playerId gameMode now
      | None => RedisClient.zAdd_queue_rejected
      end
  end.

(** [removeFromQueue(playerId, gameMode)]: the first member with that id is
    removed, then the loop breaks. *)
Definition removeFromQueue (playerId gameMode : string) (now : Z) : M unit :=
  members ← RedisClient.zRange_queue gameMode;
  match List.find (fun e => bool_decide (entry_id e = playerId)) members with
  | Some e => RedisClient.zRem_queue gameMode (entry_text e)
  | None => mret tt
  end;;
  publish "matchmaking.queue.leave" playerId gameMode now.

Definition gameModes : list string :=
  ["fps"%string; "chess"%string; "moba"%string; "rts"%string].

(** [handlePlayerDisconnect(socketId)]: every member with that socket id,
    in every mode. *)
Definition handlePlayerDisconnect (socketId : string) : M unit :=
  for_each (fun gameMode =>
    members ← RedisClient.zRange_queue gameMode;
    for_each (fun e =>
      if bool_decide (entry_socketId e = socketId)
      then RedisClient.zRem_queue gameMode (entry_text e)
      else mret tt) members) gameModes.

(** What [getPlayersPerMatch] returns: a number of players or, for a
    [gameMode] that names a property of [Object.prototype], that function or
    object. *)
Inductive PlayersPerMatch : Type :=
  | Players (n : nat)
  | Inherited.

(** [config[gameMode] || 2]. *)
Definition getPlayersPerMatch (gameMode : string) : PlayersPerMatch :=
  if bool_decide (gameMode = "fps"%string) then Players 10
  else if bool_decide (gameMode = "chess"%string) then Players 2
  else if bool_decide (gameMode = "moba"%string) then Players 10
  else if bool_decide (gameMode = "rts"%string) then Players 2
  else if inherited gameMode then Inherited
  else Players 2.

(** [length < playersPerMatch] and [length === playersPerMatch]: against a
    function or an object the comparison is with [NaN], which is false, and
    the strict equality is false. *)
Definition length_below (n : nat) (playersPerMatch : PlayersPerMatch) : bool :=
  match playersPerMatch with
  | Players m => bool_decide (n < m)%nat
  | Inherited => false
  end.

Definition length_is (n : nat) (playersPerMatch : PlayersPerMatch) : bool :=
  match playersPerMatch with
  | Players m => bool_decide (n = m)
  | Inherited => false
  end.

(** A preference is set when it is a non-empty string (a truthy value). *)
Definition truthy (v : option string) : bool :=
  match v with
  | Some s => negb (bool_decide (s = ""%string))
  | None => false
  end.

(** [!(a && b && a !== b)]. *)
Definition no_conflict (a b : option string) : bool :=
  negb (truthy a && truthy b && negb (bool_decide (a = b))).

Definition checkFPSCompatibility (player1 player2 : QueueEntry) : bool :=
  no_conflict (region (entry_preferences player1))
              (region (entry_preferences player2)).

Definition checkChessCompatibility (player1 player2 : QueueEntry) : bool :=
  no_conflict (timeControl (entry_preferences player1))
              (timeControl (entry_preferences player2)).

(** [arePlayersCompatible(player1, player2, gameMode)], [Date.now()] being
    [now] at both of its reads. *)
Definition arePlayersCompatible (now : Z) (player1 player2 : QueueEntry)
    (gameMode : string) : bool :=
  let ratingDiff := Z.abs (entry_rating player1 - entry_rating player2) in
  let waitTime := Z.max (now - entry_joinedAt player1) (now - entry_joinedAt player2) in
  let maxRatingDiff := 100 + (waitTime / 10000) * 30 in
  if maxRatingDiff <? ratingDiff then false
  else if bool_decide (gameMode = "fps"%string)
  then checkFPSCompatibility player1 player2
  else if bool_decide (gameMode = "chess"%string)
  then checkChessCompatibility player1 player2
  else true.

(** [players.sort((a, b) => a.joinedAt - b.joinedAt)]: the sort is stable. *)
Fixpoint insert_by_joinedAt (p : QueueEntry) (sorted : list QueueEntry)
  : list QueueEntry :=
  match sorted with
  | [] => [p]
  | q :: rest =>
      if entry_joinedAt p <=? entry_joinedAt q then p :: q :: rest
      else q :: insert_by_joinedAt p rest
  end.

Definition sort_by_joinedAt (players : list QueueEntry) : list QueueEntry :=
  foldr insert_by_joinedAt [] players.

Section FindMatches.
Context (now : Z) (gameMode : string).

(** The inner loop over [j]: the candidates after the seed [players[i]],
    while the group is not full. *)
Fixpoint fill_match (seed : QueueEntry) (candidates potentialMatch : list QueueEntry)
    (usedPlayers : gset string) : list QueueEntry * gset string :=
  match candidates with
  | [] => (potentialMatch, usedPlayers)
  | q :: rest =>
      if length_below (length potentialMatch) (getPlayersPerMatch gameMode) then
        if bool_decide (entry_id q ∈ usedPlayers)
        then fill_match seed rest potentialMatch usedPlayers
        else if arePlayersCompatible now seed q gameMode
        then fill_match seed rest (potentialMatch ++ [q])
               ({[entry_id q]} ∪ usedPlayers)
        else fill_match seed rest potentialMatch usedPlayers
      else (potentialMatch, usedPlayers)
  end.

(** The outer loop over [i]. *)
Fixpoint scan_matches (players : list QueueEntry) (usedPlayers : gset string)
    (matches : list (list QueueEntry)) : list (list QueueEntry) :=
  match players with
  | [] => matches
  | p :: rest =>
      if bool_decide (entry_id p ∈ usedPlayers)
      then scan_matches rest usedPlayers matches
      else
        let '(potentialMatch, used') :=
          fill_match p rest [p] ({[entry_id p]} ∪ usedPlayers) in
        if length_is (length potentialMatch) (getPlayersPerMatch gameMode)
        then scan_matches rest used' (matches ++ [potentialMatch])
        else scan_matches rest
               (foldl (fun used q => used ∖ {[entry_id q]}) used' potentialMatch)
               matches
  end.

Definition findMatches (players : list QueueEntry) : list (list QueueEntry) :=
  scan_matches (sort_by_joinedAt players) ∅ [].
End FindMatches.

Definition createMatch (players : list QueueEntry) (gameMode : string) (now : Z)
  : M unit :=
  gameId ← uuidv4;
  let matchData := mkMatchData gameId players gameMode now in
  GameService.createGame gameId players gameMode now;;
  emit (match_found matchData);;
  publish "matchmaking.match.created" gameId gameMode now.

(** The body of the loop over the matches in [processMatchmaking]: the match
    is created, then each of its players is removed from the queue, by the
    text [JSON.stringify(player)]. *)
Definition commit_group (gameMode : string) (now : Z) (group : list QueueEntry)
  : M unit :=
  createMatch group gameMode now;;
  for_each (fun player =>
    RedisClient.zRem_queue gameMode (entry_text player)) group.

(** The body of the [try] block of [processMatchmaking]. *)
Definition processMatchmaking_body (gameMode : string) (now : Z) : M unit :=
  members ← RedisClient.zRange_queue gameMode;
  if bool_decide (length members < 2)%nat then mret tt
  else
    let matches := findMatches now gameMode members in
    for_each (commit_group gameMode now) matches.

Definition processMatchmaking (gameMode : string) (now : Z) : M unit :=
  try_catch (processMatchmaking_body gameMode now).

End MatchmakingService.

(** ** Observations *)

(** A world whose store does not fail. *)
Definition fault_free (w : World) : Prop := faults w = [].

(** The entries of a mode's queue, in the order of the sorted set. *)
Definition queue_of (w : World) (gameMode : string) : list QueueEntry :=
  (default [] (redis_queues w !! gameMode)).*1.

(** The entries of a leaderboard, ascending. *)
Definition leaderboard_of (w : World) (board : string) : list (string * Z) :=
  default [] (redis_leaderboards w !! board).

(** The groups announced by a list of events. *)
Definition announced (events : list Event) : list (list QueueEntry) :=
  omap (fun e => match e with
                 | match_found m => Some (match_players m)
                 | _ => None
                 end) events.

(** The matches a tick goes through when the store answers: none for a
    queue of fewer than two, else those of [findMatches]. *)
Definition matches_of_tick (now : Z) (gameMode : string) (w : World)
  : list (list QueueEntry) :=
  if bool_decide (length (queue_of w gameMode) < 2)%nat then []
  else MatchmakingService.findMatches now gameMode (queue_of w gameMode).

(** The game [getGame] finds when the store does not fail: the one held in
    memory, else the persisted one. *)
Definition lookup_game (w : World) (gameId : string) : option Game :=
  match activeGames w !! gameId with
  | Some game => Some game
  | None => redis_games w !! gameId
  end.

(** ** The rating formula in the words of the specification *)

(** [actual = {win -> 1, draw -> 0.5, loss -> 0}]. *)
Definition spec_actual (result : string) : option R :=
  if bool_decide (result = "win"%string) then Some 1%R
  else if bool_decide (result = "draw"%string) then Some (/ 2)%R
  else if bool_decide (result = "loss"%string) then Some 0%R
  else None.

(** [expected = 1 / (1 + 10^((opponent - player)/400))]. *)
Definition spec_expected (player opponent : Z) : R :=
  (1 / (1 + Rpower 10 ((IZR opponent - IZR player) / 400)))%R.

(** [result = max(100, round(player + k * (actual - expected)))]. *)
Definition spec_newRating (player opponent : Z) (actual k : R) : Z :=
  Z.max 100 (Math_round (IZR player + k * (actual - spec_expected player opponent))).

(** The ratings the formula is stated for.  Doubles are idealised as real
    numbers; the idealisation is meant for ratings far below 2^53, from where
    on a double no longer holds every integer. *)
Definition rating_limit : Z := 1000000.

(** ** What a settlement does to the records *)

(** The change of a rating before rounding and clamping. *)
Definition raw_delta (player opponent : Z) (actual : R) : R :=
  (PlayerService.eloK
   * (actual - PlayerService.calculateExpectedScore (IZR player) (IZR opponent)))%R.

(** The actual scores [endGame] hands out to the first and the second
    participant: the one whose id is [winnerId] wins, the other one loses;
    any other [winnerId] is a draw. *)
Definition settled_scores (winnerId : option string) (player1 player2 : GamePlayer)
  : R * R :=
  if bool_decide (winnerId = Some (gp_id player1)) then (1, 0)%R
  else if bool_decide (winnerId = Some (gp_id player2)) then (0, 1)%R
  else (/ 2, / 2)%R.

(** The world after a rating update that went through. *)
Definition rated_world (w : World) (playerId gameMode : string) (player' : Player)
    (score : Z) : World :=
  set_leaderboards (fun lb =>
    <[gameMode := zAdd (fun m : string => m) score playerId (default [] (lb !! gameMode))]> lb)
    (set_players <[playerId := player']> w).

(** The player record [createPlayer] builds. *)
Definition new_player (playerId username : string) (now : Z) : Player :=
  mkPlayer playerId username PlayerService.initial_ratings (mkStats 0 0 0 0) now now.

(** ** Relating two runs *)

(** Two worlds with the same players, the same leaderboards and the same
    fate of the coming store commands. *)
Definition same_ratings (wa wb : World) : Prop :=
  redis_players wa = redis_players wb
  /\ redis_leaderboards wa = redis_leaderboards wb
  /\ faults wa = faults wb.

(** Two computations that keep such worlds alike and end the same way. *)
Definition alike {A} (ma mb : M A) : Prop :=
  forall wa wb, same_ratings wa wb ->
    same_ratings (ma wa).1 (mb wb).1 /\ (ma wa).2 = (mb wb).2.

(** ** Order in a leaderboard *)

(** A sorted set in ascending order of score. *)
Definition zset_sorted {A} (l : list (A * Z)) : Prop :=
  StronglySorted (fun x y => x.2 <= y.2) l.


(** ** The compatibility predicate in the words of the specification *)

(** The core gate: [|ratingA - ratingB| <= 100 + 30 * floor(maxWait / 10 s)]
    with [maxWait = max(now - a.joinedAt, now - b.joinedAt)]. *)
Definition core_gate (now : Z) (a b : QueueEntry) : Prop :=
  Z.abs (entry_rating a - entry_rating b)
  <= 100 + 30 * (Z.max (now - entry_joinedAt a) (now - entry_joinedAt b) / 10000).

(** Both entries lack the preference, or the two preferences are equal. *)
Definition both_lack_or_equal (a b : option string) : Prop :=
  (a = None /\ b = None) \/ a = b.

Definition spec_compatible (now : Z) (a b : QueueEntry) (gameMode : string) : Prop :=
  core_gate now a b
  /\ (gameMode = "fps"%string ->
      both_lack_or_equal (region (entry_preferences a)) (region (entry_preferences b)))
  /\ (gameMode = "chess"%string ->
      both_lack_or_equal (timeControl (entry_preferences a))
        (timeControl (entry_preferences b))).

(** What the code tests: one of the two preferences is not set (absent or
    the empty string), or the two are equal. *)
Definition one_unset_or_equal (a b : option string) : Prop :=
  MatchmakingService.truthy a = false \/ MatchmakingService.truthy b = false \/ a = b.

(** ** What a tick may do to a queue *)

#[global] Instance Preferences_eq_dec : EqDecision Preferences.
Proof. solve_decision. Defined.

#[global] Instance QueueEntry_eq_dec : EqDecision QueueEntry.
Proof. solve_decision. Defined.

(** From [w0] to [w], entries of the mode's queue were only removed, and
    every entry removed has the text of a member of a group announced by a
    [match_found] emitted in between. *)
Definition removals_announced (gameMode : string) (w0 w : World) : Prop :=
  exists new,
    emitted w = emitted w0 ++ new
    /\ queue_of w gameMode `sublist_of` queue_of w0 gameMode
    /\ (forall e, e ∈ queue_of w0 gameMode -> e ∉ queue_of w gameMode ->
          exists group e',
            group ∈ announced new /\ e' ∈ group /\ entry_text e' = entry_text e).

(** From [w] to [w'] nothing was emitted, entries of the mode's queue were
    only removed, and every entry removed has the text of a member of
    [group]. *)
Definition pruned (gameMode : string) (group : list QueueEntry) (w w' : World)
  : Prop :=
  emitted w' = emitted w
  /\ queue_of w' gameMode `sublist_of` queue_of w gameMode
  /\ (forall e, e ∈ queue_of w gameMode -> e ∉ queue_of w' gameMode ->
        exists e', e' ∈ group /\ entry_text e' = entry_text e).

(** ** Sample data for the examples *)

(** Alice and Bob, created in this order in an empty world: their ids are
    [uuid-0] and [uuid-1], all their ratings 1000. *)
Definition alice : Player :=
  mkPlayer "uuid-0" "alice" PlayerService.initial_ratings (mkStats 0 0 0 0) 1 1.

Definition bob : Player :=
  mkPlayer "uuid-1" "bob" PlayerService.initial_ratings (mkStats 0 0 0 0) 2 2.

Definition two_players : World :=
  exec (PlayerService.createPlayer "bob" (Some "chess"%string) 2)
    (exec (PlayerService.createPlayer "alice" (Some "chess"%string) 1) empty_world).

(** The two as participants of a game, with their ratings at match time. *)
Definition alice_gp : GamePlayer := mkGamePlayer "uuid-0" "alice" 1000 "socket-a".

Definition bob_gp : GamePlayer := mkGamePlayer "uuid-1" "bob" 1000 "socket-b".

(** Their queue entries, and one chess game between them: created at 2000,
    started at 7000, ended at 8000 with Alice as the winner. *)
Definition alice_entry : QueueEntry :=
  mkQueueEntry "uuid-0" "alice" 1000 no_preferences "socket-a" 10 0.

Definition bob_entry : QueueEntry :=
  mkQueueEntry "uuid-1" "bob" 1000 no_preferences "socket-b" 12 0.

Definition game_created : World :=
  exec (GameService.createGame "game-1" [alice_entry; bob_entry] "chess" 2000)
    two_players.

Definition game_running : World :=
  exec (GameService.startGame "game-1" 7000) game_created.

Definition game_over : World :=
  exec (GameService.endGame "game-1" (Some "uuid-0"%string) "completed" 8000)
    game_running.




(** Alice and Bob both waiting in the chess queue; then Carol and Dave join
    them, and all four wait. *)
Definition both_queued : World :=
  exec (MatchmakingService.addToQueue "uuid-1" "chess" None "socket-b" 12)
    (exec (MatchmakingService.addToQueue "uuid-0" "chess" None "socket-a" 10)
       two_players).

Definition four_queued : World :=
  exec (MatchmakingService.addToQueue "uuid-3" "chess" None "socket-d" 16)
    (exec (MatchmakingService.addToQueue "uuid-2" "chess" None "socket-c" 14)
       (exec (PlayerService.createPlayer "dave" (Some "chess"%string) 4)
          (exec (PlayerService.createPlayer "carol" (Some "chess"%string) 3)
             both_queued))).

Definition carol_entry : QueueEntry :=
  mkQueueEntry "uuid-2" "carol" 1000 no_preferences "socket-c" 14 0.

Definition dave_entry : QueueEntry :=
  mkQueueEntry "uuid-3" "dave" 1000 no_preferences "socket-d" 16 0.

(** The same world with a store that rejects its [n]-th coming command
    (counting from 0) and lets the others through. *)
Definition failing_at (n : nat) (w : World) : World :=
  set_faults (fun _ => replicate n false ++ [true]) w.

(** Two fps entries of the same rating and age, one with a region, one
    without. *)
Definition eu_entry : QueueEntry :=
  mkQueueEntry "uuid-0" "alice" 1000 (mkPreferences (Some "eu"%string) None None None)
    "socket-a" 0 0.

Definition anywhere_entry : QueueEntry :=
  mkQueueEntry "uuid-1" "bob" 1000 no_preferences "socket-b" 0 0.

(** An entry with nothing but an id and a rating, joined at time 0. *)
Definition rated_entry (playerId : string) (rating : Z) : QueueEntry :=
  mkQueueEntry playerId playerId rating no_preferences playerId 0 0.

(** * More of the services *)

(** ** Groups of findMatches *)

(** The ids of a list of entries. *)
Definition ids_of (l : list QueueEntry) : list string := entry_id <$> l.

(** A group as [findMatches] commits it: full, made of entries of [players]
    in their order, its first member (the seed) compatible with every other
    one. *)
Definition committed_group (now : Z) (gameMode : string) (players : list QueueEntry)
    (group : list QueueEntry) : Prop :=
  MatchmakingService.getPlayersPerMatch gameMode
  = MatchmakingService.Players (length group)
  /\ group `sublist_of` players
  /\ exists seed followers,
       group = seed :: followers
       /\ Forall (fun q =>
            MatchmakingService.arePlayersCompatible now seed q gameMode = true)
            followers.

(** Entries in ascending order of [joinedAt]. *)
Definition by_joinedAt (l : list QueueEntry) : Prop :=
  StronglySorted (fun a b => entry_joinedAt a <= entry_joinedAt b) l.

(** ** What an operation leaves alone *)

(** A relation between the world before and the world after that holds of
    no step at all, of steps in a row, and of the store using up a fate. *)
Class Frame (R : relation World) : Prop := {
  frame_refl : forall w, R w w;
  frame_trans : forall w1 w2 w3, R w1 w2 -> R w2 w3 -> R w1 w3;
  frame_faults : forall w f, R w (set_faults f w)
}.

(** The operation relates every world to the one it leaves, whether it
    returns or throws. *)
Definition keeps (R : relation World) {A} (m : M A) : Prop :=
  forall w, R w (m w).1.

(** The player records and the leaderboards are as they were. *)
Definition players_untouched (w w' : World) : Prop :=
  redis_players w' = redis_players w
  /\ redis_leaderboards w' = redis_leaderboards w.

(** The queues of the modes other than [gameMode] are as they were. *)
Definition other_queues_untouched (gameMode : string) (w w' : World) : Prop :=
  forall m, m <> gameMode -> redis_queues w' !! m = redis_queues w !! m.

(** Nothing in the store is written. *)
Definition store_untouched (w w' : World) : Prop :=
  redis_players w' = redis_players w
  /\ redis_games w' = redis_games w
  /\ redis_queues w' = redis_queues w
  /\ redis_leaderboards w' = redis_leaderboards w.

(** Nothing but the queues is changed: no record is written, nothing is
    emitted, published or scheduled. *)
Definition only_queues_touched (w w' : World) : Prop :=
  redis_players w' = redis_players w
  /\ redis_games w' = redis_games w
  /\ redis_leaderboards w' = redis_leaderboards w
  /\ activeGames w' = activeGames w
  /\ emitted w' = emitted w
  /\ published w' = published w
  /\ timers w' = timers w
  /\ next_uuid w' = next_uuid w.

(** What a matchmaking tick of [gameMode] leaves alone. *)
Definition matchmaking_frame (gameMode : string) (w w' : World) : Prop :=
  players_untouched w w' /\ other_queues_untouched gameMode w w'.

(** The texts of the entries of a socket in a list of members. *)
Definition texts_of_socket (socketId : string) (members : list QueueEntry)
  : list string :=
  entry_text <$> filter (fun e => entry_socketId e = socketId) members.

(** The participant record [createGame] makes of a queue entry. *)
Definition participant_of (p : QueueEntry) : GamePlayer :=
  mkGamePlayer (entry_id p) (entry_username p) (entry_rating p) (entry_socketId p).

(** [game] is the game of the match [m] as [createGame] stores it: under
    the id of the match, waiting to start, with the players of the match in
    their order. *)
Definition game_of_match (m : MatchData) (game : Game) : Prop :=
  game_id game = match_gameId m
  /\ game_status game = starting
  /\ game_gameMode game = match_gameMode m
  /\ game_players game = participant_of <$> match_players m
  /\ game_createdAt game = match_createdAt m
  /\ game_startedAt game = None /\ game_endedAt game = None
  /\ game_result game = None.

(** Nothing is written to the store, scheduled or published. *)
Definition gameplay_frame (w w' : World) : Prop :=
  store_untouched w w' /\ timers w' = timers w /\ published w' = published w.

(** Nothing but player records and leaderboards is changed: no game is
    written or held, nothing is emitted, published or scheduled. *)
Definition only_ratings_touched (w w' : World) : Prop :=
  redis_games w' = redis_games w
  /\ redis_queues w' = redis_queues w
  /\ activeGames w' = activeGames w
  /\ emitted w' = emitted w
  /\ published w' = published w
  /\ timers w' = timers w.

(** ** Invariants of the player records *)

(** Every entry of the board of a mode carries the rating that the record
    of its player holds for that mode. *)
Definition leaderboard_agrees (board : string) (w : World) : Prop :=
  forall id score, (id, score) ∈ leaderboard_of w board ->
    exists player,
      redis_players w !! id = Some player
      /\ player_ratings player !! board = Some (Some score).

(** The games counted are the wins, the losses and the draws. *)
Definition stats_consistent (s : Stats) : Prop :=
  gamesPlayed s = wins s + losses s + draws s.

(** Of the store, only the record of [playerId] and the board of [gameMode]
    may have changed; nothing else of the world has, but the fate of the
    store. *)
Definition one_player_touched (playerId gameMode : string) (w w' : World) : Prop :=
  (forall id, id <> playerId -> redis_players w' !! id = redis_players w !! id)
  /\ (forall board, board <> gameMode ->
        redis_leaderboards w' !! board = redis_leaderboards w !! board)
  /\ only_ratings_touched w w'.

(** The boards of the modes other than [gameMode] are as they were. *)
Definition other_boards_untouched (gameMode : string) (w w' : World) : Prop :=
  forall board, board <> gameMode ->
    redis_leaderboards w' !! board = redis_leaderboards w !! board.

(** ** MatchmakingService: the status of the queues *)

(** The seconds of the estimate of [estimateMatchTime], when there is one
    and it is a number:
    [Math.max(5, 30 - Math.floor(playersInQueue / playersPerMatch) * 5)]. *)
Definition estimatedSeconds (playersInQueue : Z) (gameMode : string) : option Z :=
  match MatchmakingService.getPlayersPerMatch gameMode with
  | MatchmakingService.Players n =>
      let playersPerMatch := Z.of_nat n in
      if playersInQueue <? playersPerMatch then None
      else
        let potentialMatches := playersInQueue / playersPerMatch in
        Some (Z.max 5 (30 - potentialMatches * 5))
  | MatchmakingService.Inherited => None
  end.

(** [estimateMatchTime(playersInQueue, gameMode)].  Against a function or
    an object the test [playersInQueue < playersPerMatch] is false and the
    arithmetic gives [NaN], whatever the queue. *)
Definition estimateMatchTime (playersInQueue : Z) (gameMode : string) : string :=
  match MatchmakingService.getPlayersPerMatch gameMode with
  | MatchmakingService.Players _ =>
      match estimatedSeconds playersInQueue gameMode with
      | None => "Waiting for more players"
      | Some estimatedSeconds => "~" +:+ pretty estimatedSeconds +:+ "s"
      end
  | MatchmakingService.Inherited => "~NaNs"
  end.

(** One value of the object [getQueueStatus] returns. *)
Record ModeStatus : Type := mkModeStatus {
  playersInQueue : Z;
  averageWaitTime : Z;
  estimatedMatchTime : string
}.

(** [members.reduce((sum, member) => sum + (Date.now() - player.joinedAt), 0)]. *)
Definition total_wait (now : Z) (members : list QueueEntry) : Z :=
  foldl (fun sum player => sum + (now - entry_joinedAt player)) 0 members.

(** The body of the loop of [getQueueStatus] for one mode. *)
Definition mode_status (now : Z) (gameMode : string) : M ModeStatus :=
  count ← RedisClient.zCard_queue gameMode;
  members ← RedisClient.zRange_queue gameMode;
  let avgWaitTime : R :=
    if bool_decide (0 < length members)%nat
    then (IZR (total_wait now members) / INR (length members))%R
    else 0%R in
  mret (mkModeStatus count (Math_round (avgWaitTime / 1000))
          (estimateMatchTime count gameMode)).

Fixpoint queue_status_loop (now : Z) (gameModes : list string)
    (status : gmap string ModeStatus) : M (gmap string ModeStatus) :=
  match gameModes with
  | [] => mret status
  | gameMode :: rest =>
      s ← mode_status now gameMode;
      queue_status_loop now rest (<[gameMode := s]> status)
  end.

(** [getQueueStatus()], [Date.now()] being [now] at each of its reads. *)
Definition getQueueStatus (now : Z) : M (gmap string ModeStatus) :=
  queue_status_loop now MatchmakingService.gameModes ∅.

(** ** The rate limiter (middleware/rateLimiter.js)

    The limiter keeps, per identifier, a sorted set under the key
    [rate_limit:] followed by the identifier: one member per recorded request,
    the time of the request as its score and, as text, as its member.  The
    store of the limiter is these sets, by identifier, and the fate of the
    coming commands, as in [World]. *)
Record LimiterStore : Type := mkLimiterStore {
  rate_limit : gmap string (list (string * Z));
  fate : list bool
}.

(** A computation on the limiter's store; [None] is a rejected command. *)
Definition RL (A : Type) : Type := LimiterStore -> LimiterStore * option A.

#[global] Instance RL_ret : MRet RL := fun A a s => (s, Some a).

#[global] Instance RL_bind : MBind RL := fun A B k m s =>
  match m s with
  | (s', None) => (s', None)
  | (s', Some a) => k a s'
  end.

(** [ZREMRANGEBYSCORE key min max]: the members with [min <= score <= max]
    go. *)
Definition zRemRangeByScore {A} (min max : Z) (l : list (A * Z)) : list (A * Z) :=
  filter (fun y => ~ (min <= y.2 <= max)) l.

Module RateLimiter.

Definition entries_of (s : LimiterStore) (identifier : string) : list (string * Z) :=
  default [] (rate_limit s !! identifier).

Definition command {A} (run : RL A) : RL A := fun s =>
  match fate s with
  | true :: rest => (mkLimiterStore (rate_limit s) rest, None)
  | false :: rest => run (mkLimiterStore (rate_limit s) rest)
  | [] => run s
  end.

Definition update (identifier : string)
    (f : list (string * Z) -> list (string * Z)) : RL unit := fun s =>
  (mkLimiterStore (<[identifier := f (entries_of s identifier)]> (rate_limit s))
     (fate s), Some tt).

(** [isAllowed(identifier)] of a limiter built with [windowMs] and
    [maxRequests], [Date.now()] being [now]. *)
Definition isAllowed (windowMs maxRequests : Z) (identifier : string) (now : Z)
  : RL bool :=
  let windowStart := now - windowMs in
  command (update identifier (zRemRangeByScore 0 windowStart));;
  requestCount ← command (fun s => (s, Some (zCard (entries_of s identifier))));
  if maxRequests <=? requestCount then mret false
  else
    command (update identifier (zAdd (fun m : string => m) now (pretty now)));;
    command (mret tt);;
    mret true.

(** What the middleware does with a request. *)
Inductive Response : Type :=
  | next                  (* next() *)
  | rate_limit_exceeded   (* 429 *)
  | rate_limiter_failed.  (* 500 *)

(** The function [middleware()] returns, for a request from [identifier]. *)
Definition middleware (windowMs maxRequests : Z) (identifier : string) (now : Z)
  : LimiterStore -> LimiterStore * Response := fun s =>
  match isAllowed windowMs maxRequests identifier now s with
  | (s', Some true) => (s', next)
  | (s', Some false) => (s', rate_limit_exceeded)
  | (s', None) => (s', rate_limiter_failed)
  end.

(** A burst: [n] requests from [identifier], all at the time [now]. *)
Fixpoint burst (windowMs maxRequests : Z) (identifier : string) (now : Z) (n : nat)
    (s : LimiterStore) : LimiterStore * list Response :=
  match n with
  | O => (s, [])
  | S n' =>
      let '(s1, r) := middleware windowMs maxRequests identifier now s in
      let '(s2, rs) := burst windowMs maxRequests identifier now n' s1 in
      (s2, r :: rs)
  end.

End RateLimiter.

(** ** The RabbitMQ client

    The class of config/rabbitmq.js, on its own: [connect], and where
    [publish] sends a message.  [publish] throws while the channel is not set, and the
    channel is set once [connect] has got that far.  In the world of the
    services the channel of their client is [rabbitmq_channel]. *)
Module RabbitMQClient.

(** What an attempt of [connect] meets at the broker. *)
Inductive Attempt : Type :=
  | connect_fails         (* amqp.connect rejects *)
  | createChannel_fails   (* connection.createChannel rejects *)
  | setup_fails           (* setupExchanges or setupQueues rejects *)
  | goes_through.

#[global] Instance Attempt_eq_dec : EqDecision Attempt.
Proof. solve_decision. Defined.

(** The client: whether [connection] and [channel] are set (not [null]),
    the attempts made and the milliseconds slept by [connect], and the
    messages handed to [channel.publish], as (exchange, routing key). *)
Record Client : Type := mkClient {
  connection : bool;
  channel : bool;
  attempts_made : nat;
  slept : Z;
  handed_over : list (string * string)
}.

(** The client as its constructor leaves it. *)
Definition fresh : Client := mkClient false false 0 0 [].

(** The fields after the [try] block of one attempt: an assignment whose
    right-hand side rejects does not take place. *)
Definition attempted (met : Attempt) (c : Client) : Client :=
  match met with
  | connect_fails =>
      mkClient (connection c) (channel c) (S (attempts_made c)) (slept c)
        (handed_over c)
  | createChannel_fails =>
      mkClient true (channel c) (S (attempts_made c)) (slept c) (handed_over c)
  | setup_fails | goes_through =>
      mkClient true true (S (attempts_made c)) (slept c) (handed_over c)
  end.

Definition sleep (delayMs : Z) (c : Client) : Client :=
  mkClient (connection c) (channel c) (attempts_made c) (slept c + delayMs)
    (handed_over c).

(** The loop of [connect] from [attempt] on, with [remaining] attempts to
    go ([retries - attempt + 1]); [broker] tells what each attempt meets.
    The result is [true] when [connect] returns, [false] when it throws. *)
Fixpoint connect_loop (broker : nat -> Attempt) (delayMs : Z) (attempt remaining : nat)
    (c : Client) : Client * bool :=
  match remaining with
  | O => (c, true)
  | S rest =>
      let c' := attempted (broker attempt) c in
      match broker attempt with
      | goes_through => (c', true)
      | _ =>
          match rest with
          | O => (c', false)
          | S _ => connect_loop broker delayMs (S attempt) rest (sleep delayMs c')
          end
      end
  end.

(** [connect(retries = 10, delayMs = 3000)]. *)
Definition connect (broker : nat -> Attempt) (retries delayMs : Z) (c : Client)
  : Client * bool :=
  connect_loop broker delayMs 1 (Z.to_nat retries) c.

(** [routingKey.startsWith('matchmaking') ? 'matchmaking' : 'game_events']. *)
Definition exchange_of (routingKey : string) : string :=
  if String.prefix "matchmaking" routingKey then "matchmaking" else "game_events".

(** [publish(routingKey, data)]: [None] when it throws ('RabbitMQ channel
    not initialized'); otherwise what [channel.publish] returned,
    [accepted]. *)
Definition publish (routingKey : string) (accepted : bool) (c : Client)
  : Client * option bool :=
  if channel c
  then (mkClient (connection c) (channel c) (attempts_made c) (slept c)
          (handed_over c ++ [(exchange_of routingKey, routingKey)]),
        Some accepted)
  else (c, None).

(** The queues of [setupQueues], each with the exchange it is bound to and
    its binding key. *)
Definition queues : list (string * string * string) :=
  [ ("matchmaking.queue.join", "matchmaking", "queue.join");
    ("matchmaking.queue.leave", "matchmaking", "queue.leave");
    ("matchmaking.match.created", "matchmaking", "match.created");
    ("game.started", "game_events", "game.started");
    ("game.ended", "game_events", "game.ended");
    ("player.rating.updated", "game_events", "player.rating.updated") ]%string.

(** The queues a topic exchange routes a message to: those bound to the
    exchange with a binding key that matches the routing key.  The binding
    keys above hold no wildcard, so to match is to be equal. *)
Definition routed_to (exchange routingKey : string) : list string :=
  (fun b => b.1.1) <$>
    filter (fun b => b.1.2 = exchange /\ b.2 = routingKey) queues.

(** The queues that receive what [publish] hands over for [routingKey]. *)
Definition delivered_to (routingKey : string) : list string :=
  routed_to (exchange_of routingKey) routingKey.

End RabbitMQClient.

(** ** The server: two game services over one store

    [GameServer] holds a [MatchmakingService] and a [GameService] of its own.
    The [MatchmakingService] creates a [GameService] too, the one that
    creates the games and runs their start timers.  The two have each their
    own [activeGames] and share the store.  The server forwards to the
    clients the [match_found] events of the [MatchmakingService] and the
    [game_update] events of its own [GameService]; nothing listens to the
    [GameService] inside the [MatchmakingService].

    [matchmaker] is the world as the [MatchmakingService] and its
    [GameService] see it; [api_games] is the [activeGames] of the server's own
    [GameService]; [forwarded] are the events the listeners of the server
    hear. *)
Record Server : Type := mkServer {
  matchmaker : World;
  api_games : gmap string Game;
  forwarded : list Event
}.

Definition is_match_found (e : Event) : bool :=
  match e with
  | match_found _ => true
  | game_update _ _ => false
  end.

(** The events emitted between two worlds. *)
Definition emitted_since (w w' : World) : list Event :=
  drop (length (emitted w)) (emitted w').

(** An operation of the [MatchmakingService] or of its [GameService] (a
    tick, a start timer): of what it emits only [match_found] is heard. *)
Definition on_matchmaker {A} (m : M A) (sv : Server) : Server * (error + A) :=
  let w := matchmaker sv in
  let r := m w in
  (mkServer r.1 (api_games sv)
     (forwarded sv
      ++ filter (fun e => is_match_found e = true) (emitted_since w r.1)),
   r.2).

(** An operation of the server's own [GameService] (a route, a socket
    handler): it runs on that instance's [activeGames], and what it emits is
    forwarded. *)
Definition on_api {A} (m : M A) (sv : Server) : Server * (error + A) :=
  let w := matchmaker sv in
  let r := m (set_activeGames (fun _ => api_games sv) w) in
  (mkServer (set_activeGames (fun _ => activeGames w) r.1) (activeGames r.1)
     (forwarded sv ++ emitted_since w r.1),
   r.2).

(** ** More sample data *)

(** Alice waiting twice in the chess queue: she joined at 10 and again
    at 11. *)
Definition alice_queued_twice : World :=
  exec (MatchmakingService.addToQueue "uuid-0" "chess" None "socket-a" 11)
    (exec (MatchmakingService.addToQueue "uuid-0" "chess" None "socket-a" 10)
       two_players).

Definition alice_entry_again : QueueEntry :=
  mkQueueEntry "uuid-0" "alice" 1000 no_preferences "socket-a" 11 0.

(** A chess game between Bob and a participant who has no player record,
    and an fps game between Alice and Bob. *)
Definition ghost_game : World :=
  exec (GameService.createGame "game-2" [rated_entry "ghost" 1000; bob_entry]
          "chess" 100) two_players.

Definition fps_game : World :=
  exec (GameService.createGame "game-3" [alice_entry; bob_entry] "fps" 100)
    two_players.

(** Alice and Bob listed on the chess board with their initial ratings. *)
Definition chess_board_listed : World :=
  exec (RedisClient.zAdd_leaderboard "chess" (Some 1000) "uuid-1")
    (exec (RedisClient.zAdd_leaderboard "chess" (Some 1000) "uuid-0") two_players).

(** * Properties *)
(** ** Facts about rounding and the expected score *)

Lemma Math_round_IZR (z : Z) : Math_round (IZR z) = z.
Proof.
  unfold Math_round. apply Zfloor_eq. lra.
Qed.

Lemma Math_round_mono (x y : R) : (x <= y)%R -> Math_round x <= Math_round y.
Proof.
  intros H. unfold Math_round. apply Zfloor_le. lra.
Qed.

Lemma Math_round_Rmax (z : Z) (x : R) :
  Math_round (Rmax (IZR z) x) = Z.max z (Math_round x).
Proof.
  unfold Rmax. destruct (Rle_dec (IZR z) x) as [Hle | Hgt].
  - apply Math_round_mono in Hle. rewrite Math_round_IZR in Hle. lia.
  - assert (Hxz : (x <= IZR z)%R) by lra.
    apply Math_round_mono in Hxz. rewrite !Math_round_IZR in *. lia.
Qed.

Lemma expected_pos (p o : R) : (0 < EloCalculator.calculateExpectedScore p o)%R.
Proof.
  unfold EloCalculator.calculateExpectedScore.
  assert (H : (0 < Rpower 10 ((o - p) / 400))%R) by apply exp_pos.
  apply Rdiv_lt_0_compat; lra.
Qed.

Lemma expected_lt_1 (p o : R) : (EloCalculator.calculateExpectedScore p o < 1)%R.
Proof.
  unfold EloCalculator.calculateExpectedScore.
  assert (H : (0 < Rpower 10 ((o - p) / 400))%R) by apply exp_pos.
  apply (Rmult_lt_reg_r (1 + Rpower 10 ((o - p) / 400))); [lra |].
  unfold Rdiv. rewrite Rmult_assoc, Rinv_l by lra. lra.
Qed.

(** The two expected scores of a pairing add up to one. *)
Lemma expected_complement (p o : R) :
  (EloCalculator.calculateExpectedScore p o
   + EloCalculator.calculateExpectedScore o p = 1)%R.
Proof.
  unfold EloCalculator.calculateExpectedScore.
  replace ((p - o) / 400)%R with (- ((o - p) / 400))%R by lra.
  rewrite Rpower_Ropp.
  assert (H : (0 < Rpower 10 ((o - p) / 400))%R) by apply exp_pos.
  field. split; lra.
Qed.

(** Settles the [bool_decide] of an equation between string literals. *)
Ltac decide_strings :=
  repeat first
    [ rewrite bool_decide_eq_true_2 by reflexivity
    | rewrite bool_decide_eq_false_2 by discriminate ].

Lemma spec_actual_cases (result : string) (actual : R) :
  spec_actual result = Some actual ->
  (result = "win"%string /\ actual = 1%R)
  \/ (result = "draw"%string /\ actual = (/ 2)%R)
  \/ (result = "loss"%string /\ actual = 0%R).
Proof.
  unfold spec_actual. intros Hres.
  repeat case_bool_decide; simplify_eq; auto.
Qed.

Lemma spec_actual_None (result : string) :
  spec_actual result = None <->
  result <> "win"%string /\ result <> "loss"%string /\ result <> "draw"%string.
Proof.
  unfold spec_actual. repeat case_bool_decide; subst; split; intros Hres;
    try discriminate; try tauto; destruct Hres as (? & ? & ?); congruence.
Qed.

(** *** EloCalculator *)

Lemma calculateNewRating_formula (player opponent : Z) (result : string)
    (actual k : R) :
  spec_actual result = Some actual ->
  EloCalculator.calculateNewRating (JNum (IZR player)) (JNum (IZR opponent))
    (JStr result) k
  = inr (integer (spec_newRating player opponent actual k)).
Proof.
  intros Hact. unfold EloCalculator.calculateNewRating, spec_newRating, integer.
  apply spec_actual_cases in Hact as [[-> ->] | [[-> ->] | [-> ->]]];
    cbn; decide_strings; cbn; rewrite Math_round_Rmax; reflexivity.
Qed.

Lemma calculateNewRating_invalid (playerRating opponentRating result : jsval)
    (k : R) :
  typeof_number playerRating = false \/ typeof_number opponentRating = false
  \/ EloCalculator.is_result result = false ->
  exists e, EloCalculator.calculateNewRating playerRating opponentRating result k
            = inl e /\ classify e = InvalidInput.
Proof.
  intros H. unfold EloCalculator.calculateNewRating, EloCalculator.validateInputs.
  destruct (typeof_number playerRating), (typeof_number opponentRating),
    (EloCalculator.is_result result); cbn; eauto;
    destruct H as [? | [? | ?]]; discriminate.
Qed.

Lemma is_result_unknown (result : string) :
  spec_actual result = None -> EloCalculator.is_result (JStr result) = false.
Proof.
  rewrite spec_actual_None. intros (? & ? & ?). cbn.
  repeat case_bool_decide; try reflexivity; congruence.
Qed.

(** *** Running computations *)

Lemma bind_run {A B} (m : M A) (k : A -> M B) (w : World) :
  (m ≫= k) w = match m w with
                | (w', inl e) => (w', inl e)
                | (w', inr a) => k a w'
                end.
Proof. reflexivity. Qed.

Lemma command_ok {A} (run : M A) (w : World) :
  faults w = [] -> RedisClient.command run w = run w.
Proof. unfold RedisClient.command. intros ->. reflexivity. Qed.

Lemma actualScore_of_spec (result : string) (actual : R) (w : World) :
  spec_actual result = Some actual ->
  PlayerService.actualScore_of result w = (w, inr actual).
Proof.
  intros Hact. unfold PlayerService.actualScore_of.
  apply spec_actual_cases in Hact as [[-> ->] | [[-> ->] | [-> ->]]];
    decide_strings; reflexivity.
Qed.

Lemma actualScore_of_unknown (result : string) (w : World) :
  spec_actual result = None ->
  PlayerService.actualScore_of result w = (w, inl InvalidResult).
Proof.
  rewrite spec_actual_None. intros (? & ? & ?). unfold PlayerService.actualScore_of.
  rewrite !bool_decide_eq_false_2 by assumption. reflexivity.
Qed.

Lemma newRating_of_spec (c o : Z) (actual : R) :
  PlayerService.newRating_of c o actual
  = spec_newRating c o actual PlayerService.eloK.
Proof. reflexivity. Qed.

Lemma newRating_of_floor (c o : Z) (actual : R) :
  100 <= PlayerService.newRating_of c o actual.
Proof. unfold PlayerService.newRating_of. lia. Qed.

(** [updatePlayerRating] on a stored player with a numeric rating, the store
    not failing: the new rating is the formula's, it is persisted and the
    leaderboard of the mode is updated. *)
Lemma updatePlayerRating_ok (w : World) (playerId gameMode result : string)
    (opponentRating now : Z) (player : Player) (c : Z) (actual : R) :
  fault_free w ->
  redis_players w !! playerId = Some player ->
  PlayerService.rating_operand (player_ratings player !! gameMode) = Some c ->
  spec_actual result = Some actual ->
  let r := PlayerService.newRating_of c opponentRating actual in
  let player' := PlayerService.rated_player player gameMode (Some r) result now in
  PlayerService.updatePlayerRating playerId gameMode opponentRating result now w
  = (rated_world w playerId gameMode player' r, inr player').
Proof.
  intros Hff Hp Hc Hact r player'.
  unfold PlayerService.updatePlayerRating, PlayerService.getPlayer,
    RedisClient.get_player.
  rewrite bind_run, command_ok by assumption. cbn. rewrite Hp.
  rewrite bind_run, (actualScore_of_spec _ actual) by assumption.
  rewrite Hc. cbn.
  unfold RedisClient.setEx_player, RedisClient.zAdd_leaderboard.
  rewrite bind_run, command_ok by assumption. cbn.
  rewrite bind_run, command_ok by assumption. reflexivity.
Qed.

Lemma updatePlayerRating_unknown_result (w : World) (playerId gameMode result : string)
    (opponentRating : number) (now : Z) (player : Player) :
  fault_free w ->
  redis_players w !! playerId = Some player ->
  spec_actual result = None ->
  PlayerService.updatePlayerRating playerId gameMode opponentRating result now w
  = (w, inl InvalidResult).
Proof.
  intros Hff Hp Hact.
  unfold PlayerService.updatePlayerRating, PlayerService.getPlayer,
    RedisClient.get_player.
  rewrite bind_run, command_ok by assumption. cbn. rewrite Hp.
  rewrite bind_run, actualScore_of_unknown by assumption. reflexivity.
Qed.

Lemma rating_operand_own (v : option (option Z)) (c : Z) :
  PlayerService.rating_operand v = Some c -> v <> None.
Proof. destruct v; [discriminate | discriminate]. Qed.

Lemma assign_rating_own (ratings : gmap string (option Z)) (gameMode : string)
    (value : option Z) :
  ratings !! gameMode <> None ->
  PlayerService.assign_rating ratings gameMode value !! gameMode = Some value.
Proof.
  intros Hown. unfold PlayerService.assign_rating.
  rewrite bool_decide_eq_false_2 by tauto. apply lookup_insert_eq.
Qed.

Lemma assign_rating_other (ratings : gmap string (option Z)) (gameMode m : string)
    (value : option Z) :
  m <> gameMode ->
  PlayerService.assign_rating ratings gameMode value !! m = ratings !! m.
Proof.
  intros Hne. unfold PlayerService.assign_rating. case_bool_decide; [reflexivity |].
  apply lookup_insert_ne. congruence.
Qed.

(** What [assign_rating] leaves under the key: the value, or, for
    [__proto__] not a key of the object, still nothing. *)
Lemma assign_rating_cases (ratings : gmap string (option Z)) (gameMode : string)
    (value : option Z) :
  PlayerService.assign_rating ratings gameMode value !! gameMode = Some value
  \/ (gameMode = "__proto__"%string
      /\ ratings !! gameMode = None
      /\ PlayerService.assign_rating ratings gameMode value = ratings).
Proof.
  unfold PlayerService.assign_rating. case_bool_decide as Hp.
  - right. tauto.
  - left. apply lookup_insert_eq.
Qed.

Lemma newRating_for_integers (c o : Z) (actual : R) :
  PlayerService.newRating_for (Some c) (integer o) actual
  = Some (PlayerService.newRating_of c o actual).
Proof. reflexivity. Qed.

(** A new rating that is a number comes from a current rating that is one,
    and is at least 100. *)
Lemma newRating_for_Some (currentRating : option Z) (opponentRating : number)
    (actual : R) (r : Z) :
  PlayerService.newRating_for currentRating opponentRating actual = Some r ->
  (exists c, currentRating = Some c) /\ 100 <= r.
Proof.
  unfold PlayerService.newRating_for. destruct currentRating as [c |]; [| discriminate].
  destruct (PlayerService.expectedScore c opponentRating); [| discriminate].
  intros Hr. injection Hr as <-. split; [eauto | lia].
Qed.

Lemma newRating_for_NaN (currentRating : option Z) (actual : R) :
  PlayerService.newRating_for currentRating NaN actual = None.
Proof. destruct currentRating; reflexivity. Qed.

Lemma rated_world_player (w : World) (playerId gameMode : string) (player' : Player)
    (score : Z) :
  redis_players (rated_world w playerId gameMode player' score) !! playerId
  = Some player'.
Proof. cbn. apply lookup_insert_eq. Qed.

(** *** The rating floor, whatever the store does *)

(** A command that returns ran on the same world, up to the faults used up. *)
Lemma command_returns {A} (run : M A) (w w' : World) (a : A) :
  RedisClient.command run w = (w', inr a) ->
  exists w0, run w0 = (w', inr a)
             /\ redis_players w0 = redis_players w
             /\ redis_leaderboards w0 = redis_leaderboards w.
Proof.
  unfold RedisClient.command.
  destruct (faults w) as [| [] rest]; intros Hrun;
    [eexists; repeat split; exact Hrun | discriminate |].
  eexists. split; [exact Hrun |]. split; reflexivity.
Qed.

(** Whenever [updatePlayerRating] returns, the player it returns is the one
    persisted, and its rating of the mode is a number, at least 100. *)
Lemma updatePlayerRating_returns (w : World) (playerId gameMode result : string)
    (opponentRating : number) (now : Z) (p' : Player) :
  let run :=
    PlayerService.updatePlayerRating playerId gameMode opponentRating result now in
  outcome run w = inr p' ->
  redis_players (exec run w) !! playerId = Some p'
  /\ exists r, player_ratings p' !! gameMode = Some (Some r) /\ 100 <= r.
Proof.
  intros run. subst run. unfold outcome, exec, PlayerService.updatePlayerRating.
  rewrite bind_run.
  destruct (PlayerService.getPlayer playerId w) as [w1 [e | [player |]]] eqn:Hget;
    cbn [snd]; try discriminate.
  rewrite bind_run.
  destruct (PlayerService.actualScore_of result w1) as [w2 [e | actual]] eqn:Hact;
    cbn [snd]; try discriminate.
  rewrite bind_run.
  destruct (RedisClient.setEx_player playerId _ w2) as [w3 [e | []]] eqn:Hset;
    cbn [snd]; try discriminate.
  rewrite bind_run.
  destruct (RedisClient.zAdd_leaderboard gameMode _ playerId w3)
    as [w4 [e | []]] eqn:Hadd; cbn [fst snd]; try discriminate.
  intros Hret. injection Hret as <-.
  apply command_returns in Hset as (w2' & Hset & _).
  cbn in Hset. injection Hset as <-.
  apply command_returns in Hadd as (w3' & Hadd & Hp3 & _).
  destruct (PlayerService.newRating_for
              (PlayerService.rating_operand (player_ratings player !! gameMode))
              opponentRating actual) as [r |] eqn:Hr; cbn in Hadd; [| discriminate].
  apply newRating_for_Some in Hr as [[c Hc] Hfloor].
  injection Hadd as <-. cbn. rewrite Hp3. cbn. rewrite !lookup_insert_eq.
  split; [reflexivity |]. exists r. split; [| exact Hfloor].
  apply assign_rating_own. exact (rating_operand_own _ _ Hc).
Qed.

(** What each step of [updatePlayerRating] does to the player records,
    whatever the store does. *)
Lemma getPlayer_run (w : World) (playerId : string) :
  exists w1,
    redis_players w1 = redis_players w
    /\ (PlayerService.getPlayer playerId w = (w1, inl StoreError)
        \/ PlayerService.getPlayer playerId w
           = (w1, inr (redis_players w !! playerId))).
Proof.
  unfold PlayerService.getPlayer, RedisClient.get_player, RedisClient.command.
  destruct (faults w) as [| [] rest]; eexists; (split; [| eauto]); reflexivity.
Qed.

Lemma actualScore_of_run (result : string) (w : World) :
  PlayerService.actualScore_of result w = (w, inl InvalidResult)
  \/ exists actual, PlayerService.actualScore_of result w = (w, inr actual).
Proof.
  unfold PlayerService.actualScore_of. repeat case_bool_decide; eauto.
Qed.

Lemma setEx_player_run (w : World) (playerId : string) (p : Player) :
  exists w1,
    (RedisClient.setEx_player playerId p w = (w1, inl StoreError)
     /\ redis_players w1 = redis_players w)
    \/ (RedisClient.setEx_player playerId p w = (w1, inr tt)
        /\ redis_players w1 = <[playerId := p]> (redis_players w)).
Proof.
  unfold RedisClient.setEx_player, RedisClient.command.
  destruct (faults w) as [| [] rest]; eexists; [right | left | right];
    split; reflexivity.
Qed.

Lemma zAdd_leaderboard_players (w : World) (board value : string) (score : option Z) :
  redis_players (RedisClient.zAdd_leaderboard board score value w).1
  = redis_players w.
Proof.
  unfold RedisClient.zAdd_leaderboard, RedisClient.command.
  destruct (faults w) as [| [] rest], score; reflexivity.
Qed.

(** The record of the player after [updatePlayerRating], whatever the store
    does and whether the call returns or throws: the record as it was, or the
    one [updatePlayerRating] has built. *)
Lemma updatePlayerRating_record (w : World) (playerId gameMode result : string)
    (opponentRating : number) (now : Z) (p : Player) :
  redis_players w !! playerId = Some p ->
  let run :=
    PlayerService.updatePlayerRating playerId gameMode opponentRating result now in
  redis_players (exec run w) !! playerId = Some p
  \/ exists actual,
       redis_players (exec run w) !! playerId
       = Some (PlayerService.rated_player p gameMode
                 (PlayerService.newRating_for
                    (PlayerService.rating_operand (player_ratings p !! gameMode))
                    opponentRating actual) result now).
Proof.
  intros Hp run. subst run. unfold exec, PlayerService.updatePlayerRating.
  rewrite bind_run.
  destruct (getPlayer_run w playerId) as (w1 & Hw1 & [-> | ->]);
    [left; cbn; congruence |].
  rewrite Hp. cbv beta iota. rewrite bind_run.
  destruct (actualScore_of_run result w1) as [-> | [actual ->]];
    [left; cbn; congruence |].
  cbv beta iota zeta. rewrite bind_run.
  match goal with
  | |- context [RedisClient.setEx_player playerId ?q w1] =>
      destruct (setEx_player_run w1 playerId q) as (w2 & [[-> Hw2] | [-> Hw2]])
  end; [left; cbn; congruence |].
  cbv beta iota. rewrite bind_run.
  match goal with
  | |- context [RedisClient.zAdd_leaderboard ?b ?sc ?v w2] =>
      pose proof (zAdd_leaderboard_players w2 b v sc) as Hw3;
      destruct (RedisClient.zAdd_leaderboard b sc v w2) as [w3 [e | []]]
  end; cbn [fst] in *; right; exists actual;
    change (redis_players w3 !! playerId = Some
              (PlayerService.rated_player p gameMode
                 (PlayerService.newRating_for
                    (PlayerService.rating_operand (player_ratings p !! gameMode))
                    opponentRating actual) result now));
    rewrite Hw3, Hw2; apply lookup_insert_eq.
Qed.

Lemma newRating_for_None (currentRating : option Z) (opponentRating : number)
    (actual : R) :
  PlayerService.newRating_for currentRating opponentRating actual = None
  <-> currentRating = None \/ opponentRating = NaN.
Proof.
  unfold PlayerService.newRating_for, PlayerService.expectedScore.
  destruct currentRating as [c |]; [| split; auto].
  destruct opponentRating; cbn; split; try discriminate; auto;
    intros [H | H]; discriminate.
Qed.

(** [updatePlayerRating] on a stored player when the new rating is [NaN],
    the store not failing: the record is persisted with [null] as the rating,
    then the store rejects the score and the call throws. *)
Lemma updatePlayerRating_not_a_number (w : World) (playerId gameMode result : string)
    (opponentRating : number) (now : Z) (player : Player) (actual : R) :
  fault_free w ->
  redis_players w !! playerId = Some player ->
  spec_actual result = Some actual ->
  PlayerService.newRating_for
    (PlayerService.rating_operand (player_ratings player !! gameMode))
    opponentRating actual = None ->
  PlayerService.updatePlayerRating playerId gameMode opponentRating result now w
  = (set_players
       <[playerId := PlayerService.rated_player player gameMode None result now]> w,
     inl StoreError).
Proof.
  intros Hff Hp Hact Hnan.
  unfold PlayerService.updatePlayerRating, PlayerService.getPlayer,
    RedisClient.get_player.
  rewrite bind_run, command_ok by assumption. cbn. rewrite Hp.
  rewrite bind_run, (actualScore_of_spec _ actual) by assumption.
  rewrite Hnan. cbn.
  unfold RedisClient.setEx_player, RedisClient.zAdd_leaderboard.
  rewrite bind_run, command_ok by assumption. cbn.
  rewrite bind_run, command_ok by assumption. reflexivity.
Qed.

(** C4, as the code has it.  For integer ratings between 100 and the limit
    of the idealisation and an outcome among win, loss and draw,
    [EloCalculator.calculateNewRating] with the default k-factor 32 returns
    [max(100, round(player + k * (actual - expected)))], which is at least
    100, and [PlayerService.updatePlayerRating] persists that same value as
    the player's rating of the mode.  An unknown outcome makes both throw an
    error of kind InvalidInput, [updatePlayerRating] before it writes
    anything.  A rating is checked by [calculateNewRating] only, and for its
    type only: it throws exactly on a rating that is not of type number or on
    an unknown outcome, and [NaN] comes back as [NaN].  [updatePlayerRating]
    makes no check of the ratings: when the stored rating of the mode is
    missing or the opponent's rating is [NaN], the new rating is [NaN]; the
    record is persisted with [null] for it and with the counters increased,
    then the store rejects the score and the call throws a store error.  So
    the floor holds in this form: whenever [updatePlayerRating] returns, the
    rating it has persisted is at least 100; and whatever the arguments and
    the store, after the call the stored rating of the mode is what it was, or
    a number of at least 100, or [null]. *)
Theorem rating_update_formula_and_floor
    (player opponent : Z) (result : string) (actual : R) :
  100 <= player <= rating_limit -> 100 <= opponent <= rating_limit ->
  spec_actual result = Some actual ->
  EloCalculator.calculateNewRating (JNum (IZR player)) (JNum (IZR opponent))
      (JStr result) EloCalculator.defaultK
    = inr (integer (spec_newRating player opponent actual 32))
  /\ 100 <= spec_newRating player opponent actual 32
  /\ (forall w playerId gameMode now p,
        fault_free w ->
        redis_players w !! playerId = Some p ->
        player_ratings p !! gameMode = Some (Some player) ->
        let run :=
          PlayerService.updatePlayerRating playerId gameMode opponent result now in
        exists p',
          outcome run w = inr p'
          /\ redis_players (exec run w) !! playerId = Some p'
          /\ player_ratings p' !! gameMode
             = Some (Some (spec_newRating player opponent actual 32)))
  /\ (forall playerRating opponentRating anyResult k,
        let out :=
          EloCalculator.calculateNewRating playerRating opponentRating anyResult k in
        ((exists e, out = inl e)
         <-> typeof_number playerRating = false
             \/ typeof_number opponentRating = false
             \/ EloCalculator.is_result anyResult = false)
        /\ (forall e, out = inl e -> classify e = InvalidInput))
  /\ (forall other k,
        EloCalculator.calculateNewRating JNaN other (JStr result) k
          = (if typeof_number other then inr NaN else inl RatingsMustBeNumbers)
        /\ EloCalculator.calculateNewRating other JNaN (JStr result) k
          = (if typeof_number other then inr NaN else inl RatingsMustBeNumbers))
  /\ (forall w playerId gameMode now p unknown (opponentRating : number),
        fault_free w ->
        redis_players w !! playerId = Some p ->
        spec_actual unknown = None ->
        EloCalculator.is_result (JStr unknown) = false
        /\ PlayerService.updatePlayerRating playerId gameMode opponentRating
             unknown now w = (w, inl InvalidResult)
        /\ classify InvalidResult = InvalidInput)
  /\ (forall w playerId gameMode now p (opponentRating : number),
        fault_free w ->
        redis_players w !! playerId = Some p ->
        player_ratings p !! gameMode = None \/ opponentRating = NaN ->
        let run :=
          PlayerService.updatePlayerRating playerId gameMode opponentRating result
            now in
        outcome run w = inl StoreError
        /\ classify StoreError = TransientBackend
        /\ redis_players (exec run w) !! playerId
           = Some (PlayerService.rated_player p gameMode None result now)
        /\ redis_leaderboards (exec run w) = redis_leaderboards w)
  /\ (forall w playerId gameMode (opponentRating : number) anyResult now p',
        let run :=
          PlayerService.updatePlayerRating playerId gameMode opponentRating
            anyResult now in
        outcome run w = inr p' ->
        redis_players (exec run w) !! playerId = Some p'
        /\ exists r, player_ratings p' !! gameMode = Some (Some r) /\ 100 <= r)
  /\ (forall w playerId gameMode (opponentRating : number) anyResult now p p',
        let run :=
          PlayerService.updatePlayerRating playerId gameMode opponentRating
            anyResult now in
        redis_players w !! playerId = Some p ->
        redis_players (exec run w) !! playerId = Some p' ->
        player_ratings p' !! gameMode = player_ratings p !! gameMode
        \/ (exists r, player_ratings p' !! gameMode = Some (Some r) /\ 100 <= r)
        \/ player_ratings p' !! gameMode = Some None).
Proof.
  intros _ _ Hact.
  split; [apply calculateNewRating_formula; assumption |].
  split; [unfold spec_newRating; lia |].
  split.
  { intros w playerId gameMode now p Hff Hp Hr run. subst run.
    unfold outcome, exec.
    assert (Hc : PlayerService.rating_operand (player_ratings p !! gameMode)
                 = Some player) by (rewrite Hr; reflexivity).
    rewrite (updatePlayerRating_ok w playerId gameMode result opponent now p
               player actual Hff Hp Hc Hact).
    eexists. split; [reflexivity |]. split; [apply rated_world_player |].
    cbn. apply assign_rating_own. rewrite Hr. discriminate. }
  split.
  { intros playerRating opponentRating anyResult k out. subst out.
    unfold EloCalculator.calculateNewRating, EloCalculator.validateInputs.
    destruct (typeof_number playerRating) eqn:Hp,
      (typeof_number opponentRating) eqn:Ho,
      (EloCalculator.is_result anyResult) eqn:Hres; cbn [negb orb];
      try (split; [split; [intros _; auto | intros _; eauto] |
                   intros e He; inversion He; reflexivity]).
    split.
    - split; [| intros [H | [H | H]]; discriminate].
      intros [e He]. exfalso.
      destruct playerRating as [| | | | p]; try discriminate.
      destruct opponentRating as [| | | | o]; try discriminate.
      destruct (EloCalculator.getActualScore anyResult);
        [destruct (EloCalculator.expectedScore p o) |]; discriminate.
    - intros e He. exfalso.
      destruct playerRating as [| | | | p]; try discriminate.
      destruct opponentRating as [| | | | o]; try discriminate.
      destruct (EloCalculator.getActualScore anyResult);
        [destruct (EloCalculator.expectedScore p o) |]; discriminate. }
  split.
  { intros other k.
    assert (Hres : EloCalculator.is_result (JStr result) = true).
    { apply spec_actual_cases in Hact as [[-> _] | [[-> _] | [-> _]]];
        vm_compute; reflexivity. }
    unfold EloCalculator.calculateNewRating, EloCalculator.validateInputs.
    rewrite Hres.
    destruct other as [| | | | [x | | |]]; cbn [typeof_number negb orb];
      try (split; reflexivity);
      destruct (EloCalculator.getActualScore (JStr result)); split; reflexivity. }
  split.
  { intros w playerId gameMode now p unknown opponentRating Hff Hp Hun.
    split; [apply is_result_unknown; assumption |].
    split; [| reflexivity].
    apply (updatePlayerRating_unknown_result w playerId gameMode unknown
             opponentRating now p); assumption. }
  split.
  { intros w playerId gameMode now p opponentRating Hff Hp Hbad run. subst run.
    assert (Hnan : PlayerService.newRating_for
                     (PlayerService.rating_operand (player_ratings p !! gameMode))
                     opponentRating actual = None).
    { apply newRating_for_None. destruct Hbad as [-> | ->]; auto. }
    unfold outcome, exec.
    rewrite (updatePlayerRating_not_a_number w playerId gameMode result
               opponentRating now p actual Hff Hp Hact Hnan).
    cbn. rewrite lookup_insert_eq. repeat split. }
  split; [intros; apply updatePlayerRating_returns; assumption |].
  intros w playerId gameMode opponentRating anyResult now p p' run Hp Hp'.
  destruct (updatePlayerRating_record w playerId gameMode anyResult opponentRating
              now p Hp) as [Hsame | [a Hnew]]; fold run in Hsame || fold run in Hnew.
  - left. congruence.
  - rewrite Hnew in Hp'. injection Hp' as <-. cbn [player_ratings PlayerService.rated_player].
    destruct (assign_rating_cases (player_ratings p) gameMode
                (PlayerService.newRating_for
                   (PlayerService.rating_operand (player_ratings p !! gameMode))
                   opponentRating a)) as [Hset | (_ & _ & ->)]; [| left; reflexivity].
    rewrite Hset.
    destruct (PlayerService.newRating_for _ opponentRating a) as [r |] eqn:Hr;
      [| right; right; reflexivity].
    right. left. exists r. split; [reflexivity |].
    apply newRating_for_Some in Hr as [_ Hfloor]. exact Hfloor.
Qed.

Lemma rating_update_formula_and_floor_witness :
  (100 <= 1000 <= rating_limit /\ 100 <= 1200 <= rating_limit
   /\ spec_actual "win" = Some 1%R)
  /\ EloCalculator.calculateNewRating (JNum (IZR 1000)) (JNum (IZR 1200))
       (JStr "win") EloCalculator.defaultK
     = inr (integer (spec_newRating 1000 1200 1 32)).
Proof.
  assert (H1 : 100 <= 1000 <= rating_limit) by (unfold rating_limit; lia).
  assert (H2 : 100 <= 1200 <= rating_limit) by (unfold rating_limit; lia).
  assert (H3 : spec_actual "win" = Some 1%R) by (vm_compute; reflexivity).
  split; [split; [exact H1 | split; [exact H2 | exact H3]] |].
  exact (proj1 (rating_update_formula_and_floor 1000 1200 "win" 1 H1 H2 H3)).
Defined.

(** C4 as stated fails: a rating that is not a number does not make the
    update fail with InvalidInput, and the floor does not hold after every
    update.  Alice's chess rating updated against an opponent rating of [NaN]:
    her record is persisted with [null] as her chess rating and one more game
    played, and the call throws a store error.  The same happens for a mode
    she has no rating for.  And the calculator returns [NaN] for a rating of
    [NaN]. *)
Lemma updatePlayerRating_checks_no_rating :
  (let run := PlayerService.updatePlayerRating "uuid-0" "chess" NaN "win" 50 in
   outcome run two_players = inl StoreError
   /\ classify StoreError <> InvalidInput
   /\ player_ratings alice !! "chess"%string = Some (Some 1000)
   /\ (p ← redis_players (exec run two_players) !! "uuid-0";
       Some (player_ratings p !! "chess"%string, player_stats p))
      = Some (Some None, mkStats 1 1 0 0))
  /\ (let run := PlayerService.updatePlayerRating "uuid-0" "tennis" 1200 "win" 50 in
      outcome run two_players = inl StoreError
      /\ (p ← redis_players (exec run two_players) !! "uuid-0";
          Some (player_ratings p !! "tennis"%string, player_stats p))
         = Some (Some None, mkStats 1 1 0 0))
  /\ EloCalculator.calculateNewRating JNaN (JNum 1000) (JStr "win") 32 = inr NaN.
Proof.
  split; [| split]; [| | reflexivity]; cbv zeta; repeat split;
    try discriminate; vm_compute; reflexivity.
Qed.

(** *** Elo symmetry *)

Lemma ps_expected_pos (p o : R) : (0 < PlayerService.calculateExpectedScore p o)%R.
Proof. exact (expected_pos p o). Qed.

Lemma ps_expected_lt_1 (p o : R) : (PlayerService.calculateExpectedScore p o < 1)%R.
Proof. exact (expected_lt_1 p o). Qed.

Lemma ps_expected_complement (p o : R) :
  (PlayerService.calculateExpectedScore p o
   + PlayerService.calculateExpectedScore o p = 1)%R.
Proof. exact (expected_complement p o). Qed.

(** The raw changes of the two sides cancel when the actual scores add up to
    one. *)
Lemma raw_delta_sum (r1 r2 : Z) (a1 a2 : R) :
  (a1 + a2 = 1)%R -> (raw_delta r1 r2 a1 + raw_delta r2 r1 a2 = 0)%R.
Proof.
  intros Ha. unfold raw_delta, PlayerService.eloK.
  pose proof (ps_expected_complement (IZR r1) (IZR r2)) as He. nra.
Qed.

Lemma raw_delta_bound (r1 r2 : Z) (a : R) :
  (0 <= a <= 1)%R -> (-32 < raw_delta r1 r2 a < 32)%R.
Proof.
  intros Ha. unfold raw_delta, PlayerService.eloK.
  pose proof (ps_expected_pos (IZR r1) (IZR r2)).
  pose proof (ps_expected_lt_1 (IZR r1) (IZR r2)). lra.
Qed.

Lemma newRating_of_raw (c o : Z) (a : R) :
  PlayerService.newRating_of c o a
  = Z.max 100 (Math_round (IZR c + raw_delta c o a)).
Proof. reflexivity. Qed.

Lemma Math_round_shift (z : Z) (x : R) :
  Math_round (IZR z + x) = z + Math_round x.
Proof.
  unfold Math_round.
  replace (IZR z + x + / 2)%R with (x + / 2 + IZR z)%R by lra.
  rewrite Zfloor_addz. lia.
Qed.

Lemma Math_round_bound (x : R) (n : Z) :
  (- IZR n < x < IZR n)%R -> - n <= Math_round x <= n.
Proof.
  intros [Hlo Hhi]. unfold Math_round.
  pose proof (Zfloor_bound (x + / 2)) as [Hfl Hfu].
  split.
  - apply Zfloor_lub. rewrite opp_IZR. lra.
  - assert (Hlt : (IZR (Zfloor (x + / 2)) < IZR (n + 1))%R)
      by (rewrite plus_IZR; lra).
    apply lt_IZR in Hlt. lia.
Qed.

(** The stored rating moves by at most 32 points. *)
Lemma newRating_of_step (c o : Z) (a : R) :
  100 <= c -> (0 <= a <= 1)%R ->
  Z.abs (PlayerService.newRating_of c o a - c) <= 32.
Proof.
  intros Hc Ha. rewrite newRating_of_raw, Math_round_shift.
  pose proof (Math_round_bound (raw_delta c o a) 32 (raw_delta_bound c o a Ha)).
  lia.
Qed.

Lemma rated_world_fault_free (w : World) (playerId gameMode : string) (p : Player)
    (score : Z) :
  fault_free w -> fault_free (rated_world w playerId gameMode p score).
Proof. intros H. exact H. Qed.

(** Two rating updates in a row, on two different stored players. *)
Lemma two_updates (w : World) (idA idB gameMode resA resB : string)
    (oppA oppB now cA cB : Z) (PA PB : Player) (aA aB : R) :
  fault_free w -> idA <> idB ->
  redis_players w !! idA = Some PA ->
  redis_players w !! idB = Some PB ->
  PlayerService.rating_operand (player_ratings PA !! gameMode) = Some cA ->
  PlayerService.rating_operand (player_ratings PB !! gameMode) = Some cB ->
  spec_actual resA = Some aA -> spec_actual resB = Some aB ->
  let rA := PlayerService.newRating_of cA oppA aA in
  let rB := PlayerService.newRating_of cB oppB aB in
  let PA' := PlayerService.rated_player PA gameMode (Some rA) resA now in
  let PB' := PlayerService.rated_player PB gameMode (Some rB) resB now in
  (PlayerService.updatePlayerRating idA gameMode oppA resA now;;
   PlayerService.updatePlayerRating idB gameMode oppB resB now;;
   mret tt) w
  = (rated_world (rated_world w idA gameMode PA' rA) idB gameMode PB' rB, inr tt).
Proof.
  intros Hff Hne HA HB HcA HcB HaA HaB rA rB PA' PB'.
  rewrite bind_run.
  rewrite (updatePlayerRating_ok w idA gameMode resA oppA now PA cA aA) by assumption.
  cbv zeta. rewrite bind_run.
  rewrite (updatePlayerRating_ok _ idB gameMode resB oppB now PB cB aB);
    [reflexivity | apply rated_world_fault_free; assumption | | assumption ..].
  cbn. rewrite lookup_insert_ne by assumption. assumption.
Qed.

Lemma two_updates_players (w : World) (idA idB gameMode : string) (PA' PB' : Player)
    (rA rB : Z) :
  idA <> idB ->
  let w' := rated_world (rated_world w idA gameMode PA' rA) idB gameMode PB' rB in
  redis_players w' !! idA = Some PA' /\ redis_players w' !! idB = Some PB'.
Proof.
  intros Hne. cbn. split.
  - rewrite lookup_insert_ne by congruence. apply lookup_insert_eq.
  - apply lookup_insert_eq.
Qed.

Lemma settled_scores_range (winnerId : option string) (p1 p2 : GamePlayer) :
  let s := settled_scores winnerId p1 p2 in
  (s.1 + s.2 = 1)%R /\ (0 <= s.1 <= 1)%R /\ (0 <= s.2 <= 1)%R.
Proof.
  unfold settled_scores. repeat case_bool_decide; cbn; lra.
Qed.

(** What [settle] leaves for two stored participants with numeric chess
    ratings [c1] and [c2], the store not failing. *)
Lemma settle_ok (w : World) (winnerId : option string) (p1 p2 : GamePlayer)
    (P1 P2 : Player) (c1 c2 now : Z) :
  fault_free w -> gp_id p1 <> gp_id p2 ->
  redis_players w !! gp_id p1 = Some P1 ->
  redis_players w !! gp_id p2 = Some P2 ->
  PlayerService.rating_operand (player_ratings P1 !! "chess"%string) = Some c1 ->
  PlayerService.rating_operand (player_ratings P2 !! "chess"%string) = Some c2 ->
  let s := settled_scores winnerId p1 p2 in
  exists w' P1' P2',
    GameService.settle "chess" winnerId p1 p2 now w = (w', inr tt)
    /\ (fault_free w' /\ activeGames w' = activeGames w
        /\ redis_games w' = redis_games w /\ emitted w' = emitted w
        /\ timers w' = timers w)
    /\ redis_players w' !! gp_id p1 = Some P1'
    /\ redis_players w' !! gp_id p2 = Some P2'
    /\ player_ratings P1' !! "chess"%string
       = Some (Some (PlayerService.newRating_of c1 (gp_rating p2) s.1))
    /\ player_ratings P2' !! "chess"%string
       = Some (Some (PlayerService.newRating_of c2 (gp_rating p1) s.2))
    /\ gamesPlayed (player_stats P1') = gamesPlayed (player_stats P1) + 1
    /\ gamesPlayed (player_stats P2') = gamesPlayed (player_stats P2) + 1.
Proof.
  intros Hff Hne H1 H2 Hc1 Hc2 s. subst s.
  assert (Hwin : spec_actual "win" = Some 1%R) by (vm_compute; reflexivity).
  assert (Hloss : spec_actual "loss" = Some 0%R) by (vm_compute; reflexivity).
  assert (Hdraw : spec_actual "draw" = Some (/ 2)%R) by (vm_compute; reflexivity).
  unfold GameService.settle, settled_scores.
  case_bool_decide; [| case_bool_decide].
  - rewrite (two_updates w (gp_id p1) (gp_id p2) "chess" "win" "loss"
               (gp_rating p2) (gp_rating p1) now _ _ P1 P2 1%R 0%R
               Hff Hne H1 H2 Hc1 Hc2 Hwin Hloss).
    do 3 eexists. split; [reflexivity |]. split; [by repeat split |].
    edestruct (two_updates_players w (gp_id p1) (gp_id p2)) as [-> ->]; [done |].
    repeat split; cbn; try apply lookup_insert_eq.
  - assert (Hne' : gp_id p2 <> gp_id p1) by congruence.
    rewrite (two_updates w (gp_id p2) (gp_id p1) "chess" "win" "loss"
               (gp_rating p1) (gp_rating p2) now _ _ P2 P1 1%R 0%R
               Hff Hne' H2 H1 Hc2 Hc1 Hwin Hloss).
    do 3 eexists. split; [reflexivity |]. split; [by repeat split |].
    edestruct (two_updates_players w (gp_id p2) (gp_id p1)) as [-> ->]; [done |].
    repeat split; cbn; try apply lookup_insert_eq.
  - rewrite (two_updates w (gp_id p1) (gp_id p2) "chess" "draw" "draw"
               (gp_rating p2) (gp_rating p1) now _ _ P1 P2 (/ 2)%R (/ 2)%R
               Hff Hne H1 H2 Hc1 Hc2 Hdraw Hdraw).
    do 3 eexists. split; [reflexivity |]. split; [by repeat split |].
    edestruct (two_updates_players w (gp_id p1) (gp_id p2)) as [-> ->]; [done |].
    repeat split; cbn; try apply lookup_insert_eq.
Qed.

(** C8.  In the settlement of a two-player chess game whose participants'
    stored ratings equal the ratings cached in the game, the two ratings are
    replaced by [max(100, round(r + d))] where the raw changes [d1], [d2] of
    the two sides add up to 0 and are at most k = 32 in absolute value; and
    a stored rating of at least 100 itself moves by at most 32 points. *)
Theorem elo_symmetry (w : World) (winnerId : option string) (p1 p2 : GamePlayer)
    (P1 P2 : Player) (now : Z) :
  fault_free w -> gp_id p1 <> gp_id p2 ->
  redis_players w !! gp_id p1 = Some P1 ->
  redis_players w !! gp_id p2 = Some P2 ->
  player_ratings P1 !! "chess"%string = Some (Some (gp_rating p1)) ->
  player_ratings P2 !! "chess"%string = Some (Some (gp_rating p2)) ->
  let s := settled_scores winnerId p1 p2 in
  let d1 := raw_delta (gp_rating p1) (gp_rating p2) s.1 in
  let d2 := raw_delta (gp_rating p2) (gp_rating p1) s.2 in
  let w' := exec (GameService.settle "chess" winnerId p1 p2 now) w in
  (d1 + d2 = 0)%R /\ (Rabs d1 <= 32)%R /\ (Rabs d2 <= 32)%R
  /\ exists P1' P2' r1' r2',
       redis_players w' !! gp_id p1 = Some P1'
       /\ redis_players w' !! gp_id p2 = Some P2'
       /\ player_ratings P1' !! "chess"%string = Some (Some r1')
       /\ player_ratings P2' !! "chess"%string = Some (Some r2')
       /\ r1' = Z.max 100 (Math_round (IZR (gp_rating p1) + d1))
       /\ r2' = Z.max 100 (Math_round (IZR (gp_rating p2) + d2))
       /\ (100 <= gp_rating p1 -> Z.abs (r1' - gp_rating p1) <= 32)
       /\ (100 <= gp_rating p2 -> Z.abs (r2' - gp_rating p2) <= 32).
Proof.
  intros Hff Hne H1 H2 Hr1 Hr2 s d1 d2 w'.
  destruct (settled_scores_range winnerId p1 p2) as (Hsum & Hs1 & Hs2).
  fold s in Hsum, Hs1, Hs2.
  pose proof (raw_delta_bound (gp_rating p1) (gp_rating p2) s.1 Hs1) as Hb1.
  pose proof (raw_delta_bound (gp_rating p2) (gp_rating p1) s.2 Hs2) as Hb2.
  split; [apply raw_delta_sum; assumption |].
  split; [apply Rabs_le; subst d1; lra |].
  split; [apply Rabs_le; subst d2; lra |].
  assert (Hc1 : PlayerService.rating_operand (player_ratings P1 !! "chess"%string)
                = Some (gp_rating p1)) by (rewrite Hr1; reflexivity).
  assert (Hc2 : PlayerService.rating_operand (player_ratings P2 !! "chess"%string)
                = Some (gp_rating p2)) by (rewrite Hr2; reflexivity).
  destruct (settle_ok w winnerId p1 p2 P1 P2 _ _ now Hff Hne H1 H2 Hc1 Hc2)
    as (w1 & P1' & P2' & Hrun & _ & HP1 & HP2 & HR1 & HR2 & _).
  subst w'. unfold exec. rewrite Hrun. cbn [fst].
  exists P1', P2'. do 2 eexists.
  split; [exact HP1 |]. split; [exact HP2 |].
  split; [exact HR1 |]. split; [exact HR2 |].
  split; [apply newRating_of_raw |]. split; [apply newRating_of_raw |].
  split; intros Hfloor; apply newRating_of_step; assumption.
Qed.

Lemma elo_symmetry_witness :
  let s := settled_scores (Some "uuid-0"%string) alice_gp bob_gp in
  (fault_free two_players /\ gp_id alice_gp <> gp_id bob_gp)
  /\ (raw_delta 1000 1000 s.1 + raw_delta 1000 1000 s.2 = 0)%R.
Proof.
  assert (Hff : fault_free two_players) by (vm_compute; reflexivity).
  assert (Hne : gp_id alice_gp <> gp_id bob_gp) by (cbn; discriminate).
  assert (H1 : redis_players two_players !! gp_id alice_gp = Some alice)
    by (vm_compute; reflexivity).
  assert (H2 : redis_players two_players !! gp_id bob_gp = Some bob)
    by (vm_compute; reflexivity).
  assert (Hr1 : player_ratings alice !! "chess"%string
                = Some (Some (gp_rating alice_gp))) by (vm_compute; reflexivity).
  assert (Hr2 : player_ratings bob !! "chess"%string
                = Some (Some (gp_rating bob_gp))) by (vm_compute; reflexivity).
  split; [split; assumption |].
  exact (proj1 (elo_symmetry two_players (Some "uuid-0"%string) alice_gp bob_gp
                  alice bob 5 Hff Hne H1 H2 Hr1 Hr2)).
Defined.

(** *** GameService: the life cycle of a game *)

Lemma set_activeGames_id (w : World) (gameId : string) (game : Game) :
  activeGames w !! gameId = Some game ->
  set_activeGames <[gameId := game]> w = w.
Proof.
  intros H. destruct w. unfold set_activeGames. cbn in *.
  rewrite insert_id by assumption. reflexivity.
Qed.

(** [getGame] on a game that can be found, the store not failing: the game is
    returned and is held in memory afterwards. *)
Lemma getGame_found (w : World) (gameId : string) (game : Game) :
  fault_free w -> lookup_game w gameId = Some game ->
  GameService.getGame gameId w
  = (set_activeGames <[gameId := game]> w, inr (Some game)).
Proof.
  intros Hff Hl. unfold lookup_game in Hl. unfold GameService.getGame.
  rewrite bind_run. cbn.
  destruct (activeGames w !! gameId) as [held |] eqn:Hheld.
  - simplify_eq. rewrite set_activeGames_id by assumption. reflexivity.
  - unfold RedisClient.get_game. rewrite bind_run, command_ok by assumption.
    cbn. rewrite Hl. reflexivity.
Qed.

Lemma getGame_missing (w : World) (gameId : string) :
  fault_free w -> lookup_game w gameId = None ->
  GameService.getGame gameId w = (w, inr None).
Proof.
  intros Hff Hl. unfold lookup_game in Hl. unfold GameService.getGame.
  rewrite bind_run. cbn.
  destruct (activeGames w !! gameId) as [held |] eqn:Hheld; [discriminate |].
  unfold RedisClient.get_game. rewrite bind_run, command_ok by assumption.
  cbn. rewrite Hl. reflexivity.
Qed.

Lemma updateGame_ok (w : World) (gameId : string) (game : Game) :
  fault_free w ->
  GameService.updateGame gameId game w
  = (set_activeGames <[gameId := game]> (set_games <[gameId := game]> w), inr tt).
Proof.
  intros Hff. unfold GameService.updateGame, RedisClient.setEx_game.
  rewrite bind_run, command_ok by assumption. reflexivity.
Qed.

(** The world [startGame] leaves for a game that can be found. *)
Lemma startGame_run (w : World) (gameId : string) (game : Game) (now : Z) :
  fault_free w -> lookup_game w gameId = Some game ->
  let game' := GameService.started game now in
  GameService.startGame gameId now w
  = (set_emitted (fun l => l ++ [game_update gameId (game_started game')])
       (set_activeGames <[gameId := game']>
          (set_games <[gameId := game']>
             (set_activeGames <[gameId := game']>
                (set_activeGames <[gameId := game]> w)))), inr tt).
Proof.
  intros Hff Hl game'. unfold GameService.startGame.
  rewrite bind_run, (getGame_found w gameId game) by assumption.
  cbv zeta. fold game'. rewrite bind_run. cbn [modify].
  rewrite bind_run, updateGame_ok by exact Hff. reflexivity.
Qed.

(** C6, as the code has it.  [startGame] does not look at the status: for
    every game that [getGame] finds, be it starting, active or finished, it
    sets the status to active and [startedAt] to now, persists the game and
    emits the game-started update; it does nothing only when no game is
    found. *)
Theorem startGame_ignores_status (w : World) (gameId : string) (now : Z) :
  fault_free w ->
  let w' := exec (GameService.startGame gameId now) w in
  match lookup_game w gameId with
  | Some game =>
      let game' := GameService.started game now in
      game_status game' = active
      /\ game_startedAt game' = Some now
      /\ activeGames w' !! gameId = Some game'
      /\ redis_games w' !! gameId = Some game'
      /\ emitted w' = emitted w ++ [game_update gameId (game_started game')]
  | None => w' = w
  end.
Proof.
  intros Hff w'. subst w'. unfold exec.
  destruct (lookup_game w gameId) as [game |] eqn:Hl.
  - rewrite (startGame_run w gameId game now Hff Hl). cbn.
    rewrite !lookup_insert_eq. repeat split.
  - unfold GameService.startGame.
    rewrite bind_run, getGame_missing by assumption. reflexivity.
Qed.

Lemma startGame_ignores_status_witness :
  fault_free game_over
  /\ let w' := exec (GameService.startGame "game-1" 9000) game_over in
     match lookup_game game_over "game-1" with
     | Some game =>
         let game' := GameService.started game 9000 in
         game_status game' = active
         /\ game_startedAt game' = Some 9000
         /\ activeGames w' !! "game-1" = Some game'
         /\ redis_games w' !! "game-1" = Some game'
         /\ emitted w'
            = emitted game_over ++ [game_update "game-1" (game_started game')]
     | None => w' = game_over
     end.
Proof.
  assert (Hff : fault_free game_over) by (vm_compute; reflexivity).
  split; [exact Hff |].
  exact (startGame_ignores_status game_over "game-1" 9000 Hff).
Defined.

(** C6 as stated fails: the game of the example is finished, and [startGame]
    makes it active again. *)
Lemma startGame_revives_finished_game :
  game_status <$> (activeGames game_over !! "game-1") = Some finished
  /\ game_status
       <$> (activeGames (exec (GameService.startGame "game-1" 9000) game_over)
              !! "game-1") = Some active.
Proof. split; vm_compute; reflexivity. Qed.

(** *** Actions on a game that is not active *)

(** [handleGameAction] drops every action on a game that is not active:
    nothing changes but that the game is held in memory. *)
Lemma handleGameAction_dropped (w : World) (gameId socketId action : string)
    (payload : GameService.Payload) (now : Z) (game : Game) :
  fault_free w -> lookup_game w gameId = Some game ->
  game_status game <> active ->
  GameService.handleGameAction gameId socketId action payload now w
  = (set_activeGames <[gameId := game]> w, inr tt).
Proof.
  intros Hff Hl Hst. unfold GameService.handleGameAction.
  rewrite bind_run, (getGame_found w gameId game) by assumption.
  destruct (game_status game); [reflexivity | contradiction | reflexivity].
Qed.




(** *** Runs that differ only in what they record about the game *)

Lemma same_ratings_refl (w : World) : same_ratings w w.
Proof. repeat split. Qed.

Lemma alike_ret {A} (a : A) : alike (mret a) (mret a).
Proof. intros wa wb H. split; [exact H | reflexivity]. Qed.

Lemma alike_throw {A} (e : error) : alike (@throw A e) (throw e).
Proof. intros wa wb H. split; [exact H | reflexivity]. Qed.

Lemma alike_bind {A B} (ma mb : M A) (ka kb : A -> M B) :
  alike ma mb -> (forall a, alike (ka a) (kb a)) -> alike (ma ≫= ka) (mb ≫= kb).
Proof.
  intros Hm Hk wa wb H. rewrite !bind_run.
  destruct (Hm wa wb H) as [Hw Ho].
  destruct (ma wa) as [wa' ra], (mb wb) as [wb' rb]. cbn in Hw, Ho. subst rb.
  destruct ra as [e | a]; [split; [exact Hw | reflexivity] |].
  apply Hk. exact Hw.
Qed.

Lemma alike_command {A} (ma mb : M A) :
  alike ma mb -> alike (RedisClient.command ma) (RedisClient.command mb).
Proof.
  intros Hm wa wb H. unfold RedisClient.command.
  destruct H as (Hp & Hl & Hf). rewrite Hf.
  destruct (faults wb) as [| [] rest] eqn:Hfb.
  - apply Hm. repeat split; congruence.
  - split; [repeat split; assumption | reflexivity].
  - apply Hm. repeat split; assumption.
Qed.

(** A change of the world that leaves players, leaderboards and faults as
    they are. *)
Lemma alike_modify_other (f g : World -> World) :
  (forall w, same_ratings (f w) w) -> (forall w, same_ratings (g w) w) ->
  alike (modify f) (modify g).
Proof.
  intros Hf Hg wa wb H. split; [| reflexivity]. cbn.
  unfold same_ratings in *.
  destruct (Hf wa) as (? & ? & ?), (Hg wb) as (? & ? & ?), H as (? & ? & ?).
  repeat split; congruence.
Qed.

(** Settles [same_ratings] and equal results of one primitive step. *)
Ltac same_step :=
  let H := fresh in
  intros ? ? H; unfold same_ratings in *; cbn in *;
  destruct H as (? & ? & ?); repeat split; congruence.

Lemma alike_getPlayer (playerId : string) :
  alike (PlayerService.getPlayer playerId) (PlayerService.getPlayer playerId).
Proof. apply alike_command. same_step. Qed.

Lemma alike_setEx_player (playerId : string) (p : Player) :
  alike (RedisClient.setEx_player playerId p) (RedisClient.setEx_player playerId p).
Proof. apply alike_command. same_step. Qed.

Lemma alike_zAdd_leaderboard (board : string) (score : option Z) (value : string) :
  alike (RedisClient.zAdd_leaderboard board score value)
        (RedisClient.zAdd_leaderboard board score value).
Proof.
  apply alike_command. destruct score as [s |]; [| apply alike_throw].
  same_step.
Qed.

Lemma alike_actualScore_of (result : string) :
  alike (PlayerService.actualScore_of result) (PlayerService.actualScore_of result).
Proof.
  unfold PlayerService.actualScore_of.
  repeat case_bool_decide; first [apply alike_ret | apply alike_throw].
Qed.

Lemma alike_updatePlayerRating (playerId gameMode result : string)
    (opponentRating now : Z) :
  alike (PlayerService.updatePlayerRating playerId gameMode opponentRating result now)
        (PlayerService.updatePlayerRating playerId gameMode opponentRating result now).
Proof.
  unfold PlayerService.updatePlayerRating.
  apply alike_bind; [apply alike_getPlayer |].
  intros [player |]; [| apply alike_throw].
  apply alike_bind; [apply alike_actualScore_of |]. intros actual.
  apply alike_bind; [apply alike_setEx_player |]. intros _.
  apply alike_bind; [apply alike_zAdd_leaderboard |]. intros _.
  apply alike_ret.
Qed.

Lemma alike_settle (gameMode : string) (winnerId : option string)
    (p1 p2 : GamePlayer) (now : Z) :
  alike (GameService.settle gameMode winnerId p1 p2 now)
        (GameService.settle gameMode winnerId p1 p2 now).
Proof.
  unfold GameService.settle.
  repeat case_bool_decide;
    (apply alike_bind; [apply alike_updatePlayerRating |]; intros _;
     apply alike_bind; [apply alike_updatePlayerRating |]; intros _;
     apply alike_ret).
Qed.

Lemma alike_updateGame (gameId : string) (ga gb : Game) :
  alike (GameService.updateGame gameId ga) (GameService.updateGame gameId gb).
Proof.
  unfold GameService.updateGame, RedisClient.setEx_game.
  apply alike_bind.
  - apply alike_command, alike_modify_other; intros w; repeat split.
  - intros _. apply alike_modify_other; intros w; repeat split.
Qed.

(** A [winnerId] that is neither participant's id takes the branch of
    [null]: the draw. *)
Lemma settle_unknown_winner (gameMode x : string) (p1 p2 : GamePlayer) (now : Z) :
  x <> gp_id p1 -> x <> gp_id p2 ->
  GameService.settle gameMode (Some x) p1 p2 now
  = (PlayerService.updatePlayerRating (gp_id p1) gameMode (gp_rating p2) "draw" now;;
     PlayerService.updatePlayerRating (gp_id p2) gameMode (gp_rating p1) "draw" now;;
     mret tt).
Proof.
  intros H1 H2. unfold GameService.settle.
  rewrite !bool_decide_eq_false_2 by congruence. reflexivity.
Qed.

Lemma settle_null_winner (gameMode : string) (p1 p2 : GamePlayer) (now : Z) :
  GameService.settle gameMode None p1 p2 now
  = (PlayerService.updatePlayerRating (gp_id p1) gameMode (gp_rating p2) "draw" now;;
     PlayerService.updatePlayerRating (gp_id p2) gameMode (gp_rating p1) "draw" now;;
     mret tt).
Proof.
  unfold GameService.settle.
  rewrite !bool_decide_eq_false_2 by discriminate. reflexivity.
Qed.

(** What [getGame] returns is the game that can be found. *)
Lemma getGame_returns (w w1 : World) (gameId : string) (game : Game) :
  GameService.getGame gameId w = (w1, inr (Some game)) ->
  lookup_game w gameId = Some game.
Proof.
  unfold GameService.getGame, lookup_game. rewrite bind_run. cbn.
  destruct (activeGames w !! gameId) as [held |].
  { intros Hrun. injection Hrun as _ ->. reflexivity. }
  unfold RedisClient.get_game, RedisClient.command. rewrite bind_run.
  destruct (faults w) as [| [] rest]; cbn; try discriminate;
    destruct (redis_games w !! gameId); cbn; intros Hrun;
    try discriminate; injection Hrun as _ ->; reflexivity.
Qed.

Lemma alike_emit (ea eb : Event) : alike (emit ea) (emit eb).
Proof. apply alike_modify_other; intros w; repeat split. Qed.

Lemma alike_setTimeout (ta tb : Timer) : alike (setTimeout ta) (setTimeout tb).
Proof. apply alike_modify_other; intros w; repeat split. Qed.

Lemma bump_stats_draw (s : Stats) :
  PlayerService.bump_stats "draw" s
  = mkStats (gamesPlayed s + 1) (wins s) (losses s) (draws s + 1).
Proof. reflexivity. Qed.

(** [endGame] on a two-player chess game with a [winnerId] that is the id of
    neither participant, the store answering: what it leaves behind. *)
Lemma endGame_draw_run (w : World) (gameId reason : string) (game : Game)
    (p1 p2 : GamePlayer) (P1 P2 : Player) (c1 c2 : Z) (winnerId : option string)
    (now : Z) :
  fault_free w -> lookup_game w gameId = Some game ->
  game_players game = [p1; p2] -> game_gameMode game = "chess"%string ->
  winnerId <> Some (gp_id p1) -> winnerId <> Some (gp_id p2) ->
  gp_id p1 <> gp_id p2 ->
  redis_players w !! gp_id p1 = Some P1 ->
  redis_players w !! gp_id p2 = Some P2 ->
  PlayerService.rating_operand (player_ratings P1 !! "chess"%string) = Some c1 ->
  PlayerService.rating_operand (player_ratings P2 !! "chess"%string) = Some c2 ->
  let r1 := PlayerService.newRating_of c1 (gp_rating p2) (/ 2) in
  let r2 := PlayerService.newRating_of c2 (gp_rating p1) (/ 2) in
  let P1' := PlayerService.rated_player P1 "chess" (Some r1) "draw" now in
  let P2' := PlayerService.rated_player P2 "chess" (Some r2) "draw" now in
  let run := GameService.endGame gameId winnerId reason now in
  let w' := exec run w in
  outcome run w = inr tt
  /\ redis_players w' = <[gp_id p2 := P2']> (<[gp_id p1 := P1']> (redis_players w))
  /\ leaderboard_of w' "chess"
     = zAdd (fun m : string => m) r2 (gp_id p2)
         (zAdd (fun m : string => m) r1 (gp_id p1) (leaderboard_of w "chess"))
  /\ redis_games w' !! gameId = Some (GameService.ended game winnerId reason now)
  /\ emitted w'
     = emitted w ++ [game_update gameId (game_ended (mkGameResult winnerId reason))].
Proof.
  intros Hff Hl Hpl Hmode Hw1 Hw2 Hne H1 H2 Hc1 Hc2 r1 r2 P1' P2' run w'.
  assert (Hdraw : spec_actual "draw" = Some (/ 2)%R) by (vm_compute; reflexivity).
  subst run w'. unfold exec, outcome, GameService.endGame.
  rewrite bind_run, (getGame_found w gameId game) by assumption.
  cbv zeta. rewrite bind_run. cbn [modify].
  set (game' := GameService.ended game winnerId reason now).
  set (w1 := set_activeGames <[gameId := game']>
               (set_activeGames <[gameId := game]> w)).
  replace (game_players game') with [p1; p2] by (symmetry; exact Hpl).
  replace (game_gameMode game') with "chess"%string by (symmetry; exact Hmode).
  rewrite bool_decide_eq_true_2 by reflexivity.
  unfold GameService.settle. rewrite !bool_decide_eq_false_2 by assumption.
  rewrite bind_run.
  rewrite (two_updates w1 (gp_id p1) (gp_id p2) "chess" "draw" "draw"
             (gp_rating p2) (gp_rating p1) now c1 c2 P1 P2 (/ 2)%R (/ 2)%R
             Hff Hne H1 H2 Hc1 Hc2 Hdraw Hdraw).
  cbv zeta. fold r1 r2 P1' P2'.
  rewrite bind_run, updateGame_ok
    by (apply rated_world_fault_free, rated_world_fault_free; exact Hff).
  rewrite bind_run. unfold emit, setTimeout, modify, leaderboard_of. cbn.
  rewrite !lookup_insert_eq. repeat split.
Qed.

(** C10.  For a two-player chess game, [endGame] with a [winnerId] that is
    the id of neither participant applies the outcome draw to both
    participants.  When the store answers and both have a record with a
    rating, each record gets one more game and one more draw, its wins and
    losses are as they were, its chess rating is the new rating of a draw
    against the other's rating, and the chess board lists both with these
    ratings; the stored result of the game still names the unknown id as the
    winner.  Whatever the store does, the players and the leaderboards end up
    exactly as [endGame] with [winnerId = null] leaves them. *)
Theorem endGame_unknown_winner_is_draw (w : World) (gameId x reason : string)
    (game : Game) (p1 p2 : GamePlayer) (now : Z) :
  lookup_game w gameId = Some game ->
  game_players game = [p1; p2] -> game_gameMode game = "chess"%string ->
  x <> gp_id p1 -> x <> gp_id p2 ->
  let run_x := GameService.endGame gameId (Some x) reason now in
  let run_null := GameService.endGame gameId None reason now in
  GameService.settle "chess" (Some x) p1 p2 now
  = (PlayerService.updatePlayerRating (gp_id p1) "chess" (gp_rating p2) "draw" now;;
     PlayerService.updatePlayerRating (gp_id p2) "chess" (gp_rating p1) "draw" now;;
     mret tt)
  /\ redis_players (exec run_x w) = redis_players (exec run_null w)
  /\ redis_leaderboards (exec run_x w) = redis_leaderboards (exec run_null w)
  /\ outcome run_x w = outcome run_null w
  /\ (forall (P1 P2 : Player) (c1 c2 : Z),
        fault_free w -> gp_id p1 <> gp_id p2 ->
        redis_players w !! gp_id p1 = Some P1 ->
        redis_players w !! gp_id p2 = Some P2 ->
        PlayerService.rating_operand (player_ratings P1 !! "chess"%string) = Some c1 ->
        PlayerService.rating_operand (player_ratings P2 !! "chess"%string) = Some c2 ->
        let r1 := PlayerService.newRating_of c1 (gp_rating p2) (/ 2) in
        let r2 := PlayerService.newRating_of c2 (gp_rating p1) (/ 2) in
        let w' := exec run_x w in
        exists P1' P2',
          outcome run_x w = inr tt
          /\ redis_players w'
             = <[gp_id p2 := P2']> (<[gp_id p1 := P1']> (redis_players w))
          /\ player_ratings P1' !! "chess"%string = Some (Some r1)
          /\ player_ratings P2' !! "chess"%string = Some (Some r2)
          /\ player_stats P1'
             = mkStats (gamesPlayed (player_stats P1) + 1) (wins (player_stats P1))
                 (losses (player_stats P1)) (draws (player_stats P1) + 1)
          /\ player_stats P2'
             = mkStats (gamesPlayed (player_stats P2) + 1) (wins (player_stats P2))
                 (losses (player_stats P2)) (draws (player_stats P2) + 1)
          /\ leaderboard_of w' "chess"
             = zAdd (fun m : string => m) r2 (gp_id p2)
                 (zAdd (fun m : string => m) r1 (gp_id p1) (leaderboard_of w "chess"))
          /\ redis_games w' !! gameId
             = Some (GameService.ended game (Some x) reason now)
          /\ emitted w'
             = emitted w
               ++ [game_update gameId (game_ended (mkGameResult (Some x) reason))]).
Proof.
  intros Hl Hpl Hmode Hx1 Hx2 run_x run_null.
  split; [apply settle_unknown_winner; assumption |].
  assert (Hsame : redis_players (exec run_x w) = redis_players (exec run_null w)
                  /\ redis_leaderboards (exec run_x w)
                     = redis_leaderboards (exec run_null w)
                  /\ outcome run_x w = outcome run_null w).
  { subst run_x run_null. unfold exec, outcome, GameService.endGame.
    rewrite !bind_run.
    destruct (GameService.getGame gameId w) as [w1 [e | [game0 |]]] eqn:Hget;
      [repeat split | | repeat split].
    apply getGame_returns in Hget. rewrite Hl in Hget. injection Hget as <-.
    cbv zeta.
    match goal with
    | |- redis_players (?ma w1).1 = redis_players (?mb w1).1 /\ _ =>
        assert (Halike : alike ma mb)
    end.
    { apply alike_bind; [apply alike_modify_other; intros ?; repeat split |].
      intros _. apply alike_bind.
      - cbn [GameService.ended game_players game_gameMode].
        rewrite Hpl, Hmode. rewrite bool_decide_eq_true_2 by reflexivity.
        rewrite settle_unknown_winner, settle_null_winner by assumption.
        apply alike_bind; [apply alike_updatePlayerRating |]; intros _.
        apply alike_bind; [apply alike_updatePlayerRating |]; intros _.
        apply alike_ret.
      - intros _. apply alike_bind; [apply alike_updateGame |]. intros _.
        apply alike_bind; [apply alike_emit |]. intros _. apply alike_setTimeout. }
    destruct (Halike w1 w1 (same_ratings_refl w1)) as ((Hp & Hb & _) & Ho).
    repeat split; assumption. }
  destruct Hsame as (Hp & Hb & Ho).
  split; [exact Hp |]. split; [exact Hb |]. split; [exact Ho |].
  intros P1 P2 c1 c2 Hff Hne H1 H2 Hc1 Hc2 r1 r2 w'.
  destruct (endGame_draw_run w gameId reason game p1 p2 P1 P2 c1 c2 (Some x) now)
    as (Hout & Hplayers & Hboard & Hgame & Hem); try assumption; try congruence.
  exists (PlayerService.rated_player P1 "chess" (Some r1) "draw" now),
         (PlayerService.rated_player P2 "chess" (Some r2) "draw" now).
  split; [exact Hout |]. split; [exact Hplayers |].
  split; [apply assign_rating_own, (rating_operand_own _ _ Hc1) |].
  split; [apply assign_rating_own, (rating_operand_own _ _ Hc2) |].
  split; [apply bump_stats_draw |]. split; [apply bump_stats_draw |].
  split; [exact Hboard |]. split; [exact Hgame | exact Hem].
Qed.

Lemma endGame_unknown_winner_is_draw_witness :
  (lookup_game game_running "game-1"
   = Some (GameService.started
             (mkGame "game-1" [alice_gp; bob_gp] "chess" starting 2000 ChessConfig
                None None None) 7000))
  /\ redis_players
       (exec (GameService.endGame "game-1" (Some "mallory"%string) "completed" 8000)
          game_running)
     = redis_players
         (exec (GameService.endGame "game-1" None "completed" 8000) game_running)
  /\ outcome (GameService.endGame "game-1" (Some "mallory"%string) "completed" 8000)
       game_running = inr tt.
Proof.
  assert (Hl : lookup_game game_running "game-1"
               = Some (GameService.started
                         (mkGame "game-1" [alice_gp; bob_gp] "chess" starting 2000
                            ChessConfig None None None) 7000))
    by (vm_compute; reflexivity).
  assert (H1 : "mallory"%string <> gp_id alice_gp) by (cbn; discriminate).
  assert (H2 : "mallory"%string <> gp_id bob_gp) by (cbn; discriminate).
  split; [exact Hl |].
  destruct (endGame_unknown_winner_is_draw game_running "game-1"
              "mallory" "completed" _ alice_gp bob_gp 8000
              Hl eq_refl eq_refl H1 H2) as (_ & Hsame & _ & _ & Hdraw).
  split; [exact Hsame |].
  assert (Hff : fault_free game_running) by (vm_compute; reflexivity).
  assert (Hne : gp_id alice_gp <> gp_id bob_gp) by (cbn; discriminate).
  assert (HA : redis_players game_running !! gp_id alice_gp = Some alice)
    by (vm_compute; reflexivity).
  assert (HB : redis_players game_running !! gp_id bob_gp = Some bob)
    by (vm_compute; reflexivity).
  assert (HcA : PlayerService.rating_operand (player_ratings alice !! "chess"%string)
                = Some 1000) by (vm_compute; reflexivity).
  assert (HcB : PlayerService.rating_operand (player_ratings bob !! "chess"%string)
                = Some 1000) by (vm_compute; reflexivity).
  destruct (Hdraw alice bob 1000 1000 Hff Hne HA HB HcA HcB)
    as (P1' & P2' & Hout & _).
  exact Hout.
Defined.

(** With no store fault, the unknown winner of the example gives each of the
    two players one more game, counted as a draw. *)
Lemma endGame_unknown_winner_example :
  let w' :=
    exec (GameService.endGame "game-1" (Some "mallory"%string) "completed" 8000)
      game_running in
  player_stats <$> (redis_players w' !! "uuid-0") = Some (mkStats 1 0 0 1)
  /\ player_stats <$> (redis_players w' !! "uuid-1") = Some (mkStats 1 0 0 1).
Proof. split; vm_compute; reflexivity. Qed.

(** *** Sorted sets *)

Section SortedSetFacts.
Context {A : Type} (text : A -> string).

Lemma zset_insert_perm (x : A * Z) (l : list (A * Z)) :
  zset_insert text x l ≡ₚ x :: l.
Proof.
  induction l as [| y l IH]; cbn; [reflexivity |].
  destruct (zset_before text x y); [reflexivity |].
  rewrite IH. apply Permutation_swap.
Qed.

Lemma zAdd_perm (score : Z) (member : A) (l : list (A * Z)) :
  zAdd text score member l ≡ₚ (member, score) :: zRem text (text member) l.
Proof. apply zset_insert_perm. Qed.

Lemma zAdd_elem (score : Z) (member : A) (l : list (A * Z)) :
  (member, score) ∈ zAdd text score member l.
Proof. rewrite zAdd_perm. left. Qed.

Lemma zRem_elem (t : string) (l : list (A * Z)) (x : A * Z) :
  x ∈ zRem text t l <-> text x.1 <> t /\ x ∈ l.
Proof. unfold zRem. apply (list_elem_of_filter (fun y => text y.1 <> t)). Qed.

Lemma zRem_members (t : string) (l : list (A * Z)) :
  (zRem text t l).*1 = filter (fun m => text m <> t) l.*1.
Proof.
  unfold zRem. induction l as [| [m s] l IH]; [reflexivity |].
  rewrite fmap_cons, !filter_cons. cbn [fst].
  destruct (decide (text m <> t)); [rewrite fmap_cons |]; cbn [fst]; congruence.
Qed.
End SortedSetFacts.

(** *** PlayerService.createPlayer *)

Lemma initial_rating (gameMode : string) :
  gameMode ∈ MatchmakingService.gameModes ->
  PlayerService.initial_ratings !! gameMode = Some (Some 1000).
Proof.
  unfold MatchmakingService.gameModes. intros H.
  repeat (apply elem_of_cons in H as [-> | H]; [vm_compute; reflexivity |]).
  inversion H.
Qed.

(** C7, as the code has it.  [createPlayer] makes no check on the name: for
    every name, also the empty one, and each of the four modes (or none, which
    means fps), it returns a player with the next fresh id and all four
    ratings 1000, persists it, and enters it in [leaderboard:global] with
    score [ratings[gameMode]], that is 1000. *)
Theorem createPlayer_any_name (w : World) (username : string)
    (gameMode : option string) (now : Z) :
  fault_free w ->
  default "fps"%string gameMode ∈ MatchmakingService.gameModes ->
  let run := PlayerService.createPlayer username gameMode now in
  let playerId := uuid_of (next_uuid w) in
  let player := new_player playerId username now in
  outcome run w = inr player
  /\ (forall mode, mode ∈ MatchmakingService.gameModes ->
        player_ratings player !! mode = Some (Some 1000))
  /\ player_ratings player !! default "fps"%string gameMode = Some (Some 1000)
  /\ redis_players (exec run w) !! playerId = Some player
  /\ (playerId, 1000) ∈ leaderboard_of (exec run w) "global"
  /\ next_uuid (exec run w) = S (next_uuid w).
Proof.
  intros Hff Hmode run playerId player.
  assert (Hrun : run w
    = (set_leaderboards (fun lb =>
         <["global"%string :=
             zAdd (fun m : string => m) 1000 playerId
               (default [] (lb !! "global"%string))]> lb)
         (set_players <[playerId := player]> (set_next_uuid S w)), inr player)).
  { subst run. unfold PlayerService.createPlayer.
    rewrite bind_run. cbn [uuidv4]. fold playerId. cbv zeta.
    unfold RedisClient.setEx_player, RedisClient.zAdd_leaderboard.
    rewrite bind_run, command_ok by exact Hff. cbn [modify].
    rewrite bind_run, command_ok by exact Hff.
    cbn [player_ratings]. rewrite (initial_rating _ Hmode). reflexivity. }
  unfold outcome, exec. rewrite Hrun. cbn [fst snd].
  split; [reflexivity |]. split; [apply initial_rating |].
  split; [apply initial_rating; exact Hmode |].
  split; [cbn; apply lookup_insert_eq |].
  split; [| reflexivity].
  unfold leaderboard_of. cbn. rewrite lookup_insert_eq. cbn. apply zAdd_elem.
Qed.

Lemma createPlayer_any_name_witness :
  (fault_free empty_world
   /\ default "fps"%string (Some "chess"%string) ∈ MatchmakingService.gameModes)
  /\ outcome (PlayerService.createPlayer "a" (Some "chess"%string) 1) empty_world
     = inr (new_player (uuid_of (next_uuid empty_world)) "a" 1).
Proof.
  assert (Hff : fault_free empty_world) by reflexivity.
  assert (Hmode : default "fps"%string (Some "chess"%string)
                  ∈ MatchmakingService.gameModes)
    by (cbn; unfold MatchmakingService.gameModes; set_solver).
  split; [split; assumption |].
  exact (proj1 (createPlayer_any_name empty_world "a" (Some "chess"%string) 1
                  Hff Hmode)).
Defined.

(** C7 as stated fails: names of one character and of none are accepted,
    and the player is created. *)
Lemma createPlayer_accepts_short_names :
  (String.length "a" < 2)%nat
  /\ outcome (PlayerService.createPlayer "a" (Some "chess"%string) 1) empty_world
     = inr (new_player "uuid-0" "a" 1)
  /\ redis_players
       (exec (PlayerService.createPlayer "a" (Some "chess"%string) 1) empty_world)
       !! "uuid-0" = Some (new_player "uuid-0" "a" 1)
  /\ outcome (PlayerService.createPlayer "" None 1) empty_world
     = inr (new_player "uuid-0" "" 1).
Proof. split; [cbn; lia |]. repeat split; vm_compute; reflexivity. Qed.

(** *** PlayerService.getLeaderboard *)

Lemma Forall_sublist {A} (P : A -> Prop) (l1 l2 : list A) :
  l1 `sublist_of` l2 -> Forall P l2 -> Forall P l1.
Proof.
  induction 1 as [| x l1 l2 Hsub IH | x l1 l2 Hsub IH]; intros Hall.
  - constructor.
  - apply Forall_cons in Hall as [Hx Hall]. constructor; auto.
  - apply Forall_cons in Hall as [_ Hall]. auto.
Qed.

Lemma StronglySorted_sublist {A} (R : relation A) (l1 l2 : list A) :
  l1 `sublist_of` l2 -> StronglySorted R l2 -> StronglySorted R l1.
Proof.
  induction 1 as [| x l1 l2 Hsub IH | x l1 l2 Hsub IH]; intros Hs.
  - constructor.
  - apply StronglySorted_inv in Hs as [Hs Hall]. constructor; [auto |].
    eapply Forall_sublist; eassumption.
  - apply StronglySorted_inv in Hs as [Hs _]. auto.
Qed.

Lemma zset_insert_sorted {A} (text : A -> string) (x : A * Z) (l : list (A * Z)) :
  zset_sorted l -> zset_sorted (zset_insert text x l).
Proof.
  unfold zset_sorted. induction l as [| y l IH]; intros Hs; cbn.
  - repeat constructor.
  - apply StronglySorted_inv in Hs as [Hs Hall].
    destruct (zset_before text x y) eqn:Hb.
    + assert (Hxy : x.2 <= y.2).
      { unfold zset_before in Hb. apply orb_true_iff in Hb as [Hb | Hb]; [lia |].
        apply andb_true_iff in Hb as [Hb _]. lia. }
      constructor; [constructor; assumption |].
      constructor; [exact Hxy |].
      eapply Forall_impl; [exact Hall |]. cbn. intros; lia.
    + assert (Hyx : y.2 <= x.2).
      { unfold zset_before in Hb. apply orb_false_iff in Hb as [Hb _]. lia. }
      constructor; [auto |].
      rewrite (zset_insert_perm text x l). constructor; assumption.
Qed.

(** [zAdd] keeps a sorted set sorted. *)
Lemma zAdd_sorted {A} (text : A -> string) (score : Z) (member : A)
    (l : list (A * Z)) :
  zset_sorted l -> zset_sorted (zAdd text score member l).
Proof.
  intros Hs. apply zset_insert_sorted. unfold zset_sorted, zRem.
  eapply StronglySorted_sublist; [apply sublist_filter | exact Hs].
Qed.

Lemma zRevRange_descending {A} (stop : Z) (l : list (A * Z)) :
  zset_sorted l ->
  StronglySorted (fun x y => y.2 <= x.2) (zRevRangeWithScores stop l).
Proof.
  intros Hs. unfold zRevRangeWithScores.
  destruct (_ || _); [constructor |].
  eapply StronglySorted_sublist; [apply sublist_take |].
  apply Sorted_StronglySorted; [intros x y z; lia |].
  apply StronglySorted_Sorted in Hs.
  apply (Sorted_reverse _ _ Hs).
Qed.

Lemma zRevRange_length {A} (stop : Z) (l : list (A * Z)) :
  0 <= stop -> Z.of_nat (length (zRevRangeWithScores stop l)) <= stop + 1.
Proof.
  intros Hstop. unfold zRevRangeWithScores.
  destruct (stop <? 0) eqn:Hneg; [lia |].
  destruct (_ || _); [cbn; lia |].
  rewrite length_take. lia.
Qed.

Lemma getPlayer_ok (w : World) (playerId : string) :
  fault_free w ->
  PlayerService.getPlayer playerId w = (w, inr (redis_players w !! playerId)).
Proof.
  intros Hff. unfold PlayerService.getPlayer, RedisClient.get_player.
  rewrite command_ok by exact Hff. reflexivity.
Qed.





(** *** MatchmakingService.arePlayersCompatible *)

Lemma no_conflict_spec (a b : option string) :
  MatchmakingService.no_conflict a b = true <-> one_unset_or_equal a b.
Proof.
  unfold MatchmakingService.no_conflict, one_unset_or_equal.
  destruct (MatchmakingService.truthy a), (MatchmakingService.truthy b);
    cbn; try (split; [auto | reflexivity]).
  case_bool_decide; cbn; split; intros Hc; auto; try discriminate.
  destruct Hc as [? | [? | ?]]; congruence.
Qed.

Lemma no_conflict_sym (a b : option string) :
  MatchmakingService.no_conflict a b = MatchmakingService.no_conflict b a.
Proof.
  unfold MatchmakingService.no_conflict.
  destruct (MatchmakingService.truthy a), (MatchmakingService.truthy b);
    cbn; try reflexivity.
  repeat case_bool_decide; congruence.
Qed.

(** C5, as the code has it.  [arePlayersCompatible] holds iff the core gate
    holds and, for fps, one of the two entries has no region set or the two
    regions are equal, for chess likewise with the time control, with no
    further gate for any other mode; and it is symmetric in the two
    entries. *)
Theorem arePlayersCompatible_spec (now : Z) (a b : QueueEntry) (gameMode : string) :
  (MatchmakingService.arePlayersCompatible now a b gameMode = true <->
   core_gate now a b
   /\ (gameMode = "fps"%string ->
       one_unset_or_equal (region (entry_preferences a))
         (region (entry_preferences b)))
   /\ (gameMode = "chess"%string ->
       one_unset_or_equal (timeControl (entry_preferences a))
         (timeControl (entry_preferences b))))
  /\ MatchmakingService.arePlayersCompatible now a b gameMode
     = MatchmakingService.arePlayersCompatible now b a gameMode.
Proof.
  split.
  - unfold MatchmakingService.arePlayersCompatible, core_gate,
      MatchmakingService.checkFPSCompatibility,
      MatchmakingService.checkChessCompatibility.
    destruct (Z.ltb_spec
                (100 + Z.max (now - entry_joinedAt a) (now - entry_joinedAt b)
                       / 10000 * 30)
                (Z.abs (entry_rating a - entry_rating b))) as [Hlt | Hge].
    + split; [discriminate |]. intros [Hcore _]. lia.
    + repeat case_bool_decide; subst; try discriminate;
        rewrite ?no_conflict_spec; split;
        try (intros Hg; split; [lia | split; intros; congruence || assumption]);
        try (intros (_ & Hf & Hc); auto); reflexivity.
  - unfold MatchmakingService.arePlayersCompatible,
      MatchmakingService.checkFPSCompatibility,
      MatchmakingService.checkChessCompatibility.
    rewrite (Z.max_comm (now - entry_joinedAt b)).
    replace (Z.abs (entry_rating b - entry_rating a))
      with (Z.abs (entry_rating a - entry_rating b)) by lia.
    destruct (_ <? _); [reflexivity |].
    repeat case_bool_decide; auto using no_conflict_sym.
Qed.

(** C5 as stated fails: for fps, an entry with a region and an entry without
    one are compatible, though they neither both lack a region nor have equal
    regions. *)
Lemma region_and_no_region_are_compatible :
  MatchmakingService.arePlayersCompatible 0 eu_entry anywhere_entry "fps" = true
  /\ ~ spec_compatible 0 eu_entry anywhere_entry "fps".
Proof.
  split; [vm_compute; reflexivity |].
  intros (_ & Hfps & _). destruct (Hfps eq_refl) as [[Hnone _] | Heq];
    cbn in *; discriminate.
Qed.

(** *** MatchmakingService.addToQueue *)

Section SortedSetRemoval.
Context {A : Type} (text : A -> string).

Lemma zRem_all (t : string) (l : list (A * Z)) :
  Forall (fun y => text y.1 <> t) (zRem text t l).
Proof.
  apply Forall_forall. intros y Hy. apply zRem_elem in Hy as [Hy _]. exact Hy.
Qed.

Lemma zRem_none (t : string) (l : list (A * Z)) :
  Forall (fun y => text y.1 <> t) l -> zRem text t l = l.
Proof.
  unfold zRem. induction 1 as [| y l Hy Hall IH]; [reflexivity |].
  rewrite filter_cons, decide_True by exact Hy. congruence.
Qed.

Lemma zRem_insert (x : A * Z) (l : list (A * Z)) :
  Forall (fun y => text y.1 <> text x.1) l ->
  zRem text (text x.1) (zset_insert text x l) = l.
Proof.
  assert (Hx : ~ text x.1 <> text x.1) by (intros Hne; apply Hne; reflexivity).
  induction 1 as [| y l Hy Hall IH]; cbn [zset_insert].
  - unfold zRem. rewrite filter_cons, decide_False by exact Hx. reflexivity.
  - destruct (zset_before text x y).
    + unfold zRem. rewrite filter_cons, decide_False by exact Hx.
      apply (zRem_none (text x.1) (y :: l)). constructor; assumption.
    + unfold zRem in *. rewrite filter_cons, decide_True by exact Hy. congruence.
Qed.

(** Adding the same member with the same score twice is adding it once. *)
Lemma zAdd_idem (score : Z) (member : A) (l : list (A * Z)) :
  zAdd text score member (zAdd text score member l) = zAdd text score member l.
Proof.
  unfold zAdd at 1. unfold zAdd at 1.
  rewrite (zRem_insert (member, score)) by apply zRem_all. reflexivity.
Qed.

End SortedSetRemoval.

Lemma publish_run (key subject mode : string) (now : Z) (w : World) :
  publish key subject mode now w
  = if rabbitmq_channel w
    then (set_published (fun l => l ++ [mkBusMessage key subject mode now]) w, inr tt)
    else (w, inl ChannelNotInitialized).
Proof.
  unfold publish. rewrite bind_run. unfold gets.
  destruct (rabbitmq_channel w); reflexivity.
Qed.

(** [addToQueue], the store answering, for a rating that is a number: the
    entry is in the queue whether or not [publish] then throws. *)
Lemma addToQueue_ok (w : World) (playerId gameMode socketId : string)
    (preferences : option Preferences) (now : Z) (player : Player) (e : QueueEntry) :
  fault_free w -> redis_players w !! playerId = Some player ->
  MatchmakingService.playerData_of playerId player gameMode preferences socketId now
  = Some e ->
  let queued :=
    set_queues (fun qs =>
      <[gameMode := zAdd entry_text (entry_rating e) e (default [] (qs !! gameMode))]>
        qs) w in
  MatchmakingService.addToQueue playerId gameMode preferences socketId now w
  = if rabbitmq_channel w
    then (set_published
            (fun l => l ++ [mkBusMessage "matchmaking.queue.join" playerId gameMode now])
            queued, inr tt)
    else (queued, inl ChannelNotInitialized).
Proof.
  intros Hff Hp He queued. unfold MatchmakingService.addToQueue.
  rewrite bind_run, getPlayer_ok by exact Hff. rewrite Hp. cbv beta iota.
  rewrite He. unfold RedisClient.zAdd_queue, RedisClient.expire.
  rewrite bind_run, command_ok by exact Hff. cbn [modify].
  rewrite bind_run, command_ok by exact Hff. cbn [mret M_ret].
  rewrite publish_run. reflexivity.
Qed.

(** [addToQueue], the store answering, for a rating that is not a number:
    the [zAdd] is rejected and nothing is written. *)
Lemma addToQueue_rejected (w : World) (playerId gameMode socketId : string)
    (preferences : option Preferences) (now : Z) (player : Player) :
  fault_free w -> redis_players w !! playerId = Some player ->
  MatchmakingService.playerData_of playerId player gameMode preferences socketId now
  = None ->
  MatchmakingService.addToQueue playerId gameMode preferences socketId now w
  = (w, inl StoreError).
Proof.
  intros Hff Hp He. unfold MatchmakingService.addToQueue.
  rewrite bind_run, getPlayer_ok by exact Hff. rewrite Hp. cbv beta iota.
  rewrite He. unfold RedisClient.zAdd_queue_rejected.
  rewrite command_ok by exact Hff. reflexivity.
Qed.

Lemma addToQueue_queue (w : World) (playerId gameMode socketId : string)
    (preferences : option Preferences) (now : Z) (player : Player) (e : QueueEntry) :
  fault_free w -> redis_players w !! playerId = Some player ->
  MatchmakingService.playerData_of playerId player gameMode preferences socketId now
  = Some e ->
  let w' := exec (MatchmakingService.addToQueue playerId gameMode preferences
                    socketId now) w in
  default [] (redis_queues w' !! gameMode)
  = zAdd entry_text (entry_rating e) e (default [] (redis_queues w !! gameMode))
  /\ fault_free w' /\ redis_players w' = redis_players w.
Proof.
  intros Hff Hp He w'. subst w'. unfold exec.
  rewrite (addToQueue_ok w playerId gameMode socketId preferences now player e
             Hff Hp He).
  destruct (rabbitmq_channel w); cbn; rewrite lookup_insert_eq; repeat split;
    exact Hff.
Qed.





(** The text of an entry escapes the quotes inside its strings: a region
    that spells out the rest of an object does not get the text of the entry
    that has these fields. *)
Example entry_text_escapes :
  let forged :=
    mkPreferences
      (Some ("eu" +:+ dquote +:+ "," +:+ dquote +:+ "timeControl" +:+ dquote +:+ ":"
             +:+ dquote +:+ "5")%string) None None None in
  let plain := mkPreferences (Some "eu"%string) (Some "5"%string) None None in
  preferences_text plain
  = ("{" +:+ dquote +:+ "region" +:+ dquote +:+ ":" +:+ dquote +:+ "eu" +:+ dquote
     +:+ "," +:+ dquote +:+ "timeControl" +:+ dquote +:+ ":" +:+ dquote +:+ "5"
     +:+ dquote +:+ "}")%string
  /\ preferences_text forged <> preferences_text plain
  /\ entry_text (mkQueueEntry "uuid-0" "alice" 1000 forged "socket-a" 10 0)
     <> entry_text (mkQueueEntry "uuid-0" "alice" 1000 plain "socket-a" 10 0)
  /\ json_string (String (ascii_of_nat 10) EmptyString)
     = (dquote +:+ backslash +:+ "n" +:+ dquote)%string
  /\ json_string (String (ascii_of_nat 1) EmptyString)
     = (dquote +:+ backslash +:+ "u0001" +:+ dquote)%string.
Proof. repeat split; vm_compute; try reflexivity; discriminate. Qed.

(** *** MatchmakingService.processMatchmaking *)

Lemma removals_announced_refl (gameMode : string) (w : World) :
  removals_announced gameMode w w.
Proof.
  exists []. rewrite app_nil_r. repeat split; [reflexivity |].
  intros e He Hne. contradiction.
Qed.

Lemma announced_app (l1 l2 : list Event) :
  announced (l1 ++ l2) = announced l1 ++ announced l2.
Proof. apply omap_app. Qed.

Lemma removals_announced_trans (gameMode : string) (w0 w1 w2 : World) :
  removals_announced gameMode w0 w1 -> removals_announced gameMode w1 w2 ->
  removals_announced gameMode w0 w2.
Proof.
  intros (new1 & Hem1 & Hsub1 & Hrem1) (new2 & Hem2 & Hsub2 & Hrem2).
  exists (new1 ++ new2). split; [rewrite Hem2, Hem1, app_assoc; reflexivity |].
  split; [etransitivity; eassumption |].
  intros e He0 Hne2. rewrite announced_app.
  destruct (decide (e ∈ queue_of w1 gameMode)) as [He1 | Hne1].
  - destruct (Hrem2 e He1 Hne2) as (group & e' & Hg & He' & Ht).
    exists group, e'. split; [apply elem_of_app; right; exact Hg | auto].
  - destruct (Hrem1 e He0 Hne1) as (group & e' & Hg & He' & Ht).
    exists group, e'. split; [apply elem_of_app; left; exact Hg | auto].
Qed.

(** [zRem] on a queue, whatever the store does: nothing is emitted, and the
    queue is as before or has lost the members with the given text. *)
Lemma zRem_queue_effect (gameMode t : string) (w : World) :
  let r := RedisClient.zRem_queue gameMode t w in
  emitted r.1 = emitted w
  /\ (queue_of r.1 gameMode = queue_of w gameMode
      \/ queue_of r.1 gameMode
         = filter (fun q => entry_text q <> t) (queue_of w gameMode))
  /\ (fault_free w ->
      r.2 = inr tt /\ fault_free r.1
      /\ queue_of r.1 gameMode
         = filter (fun q => entry_text q <> t) (queue_of w gameMode))
  /\ rabbitmq_channel r.1 = rabbitmq_channel w.
Proof.
  unfold RedisClient.zRem_queue, RedisClient.command, fault_free, queue_of.
  destruct (faults w) as [| [] rest] eqn:Hf; cbn;
    rewrite ?lookup_insert_eq; cbn; rewrite ?zRem_members;
    (split; [reflexivity |]); (split; [auto |]);
    (split; [| reflexivity]); try discriminate.
  intros _. repeat split. exact Hf.
Qed.

(** [getGameConfig] throws for the methods of [Object.prototype] only. *)
Lemma getGameConfig_throws (gameMode : string) (e : error) :
  GameService.getGameConfig gameMode = inl e ->
  e = NotValidJSON /\ gameMode ∈ Object_prototype_methods.
Proof.
  unfold GameService.getGameConfig. repeat case_bool_decide; try discriminate.
  intros He. inversion He. auto.
Qed.

Lemma getGameConfig_ok (gameMode : string) :
  gameMode ∉ Object_prototype_methods ->
  exists config, GameService.getGameConfig gameMode = inr config.
Proof.
  intros Hno. destruct (GameService.getGameConfig gameMode) as [e | config] eqn:Hc;
    [| eauto].
  apply getGameConfig_throws in Hc as [_ Hin]. contradiction.
Qed.

(** [createGame] under each fate of its one store command. *)
Lemma createGame_run (w : World) (gameId gameMode : string)
    (players : list QueueEntry) (now : Z) :
  GameService.createGame gameId players gameMode now w
  = match GameService.getGameConfig gameMode with
    | inl e => (w, inl e)
    | inr config =>
        let game := mkGame gameId (participant_of <$> players) gameMode starting now
                      config None None None in
        match faults w with
        | true :: rest => (set_faults (fun _ => rest) w, inl StoreError)
        | fate =>
            (set_timers (fun l => l ++ [StartGameAt (now + 5000) gameId])
               (set_activeGames <[gameId := game]>
                  (set_games <[gameId := game]>
                     (set_faults (fun _ => tail fate) w))),
             inr game)
        end
    end.
Proof.
  unfold GameService.createGame. rewrite bind_run. unfold lift.
  destruct (GameService.getGameConfig gameMode) as [e | config]; [reflexivity |].
  destruct w as [ps gs qs lbs ag em pub tm n fs ch]. cbn [faults].
  destruct fs as [| [] rest]; reflexivity.
Qed.

(** [createMatch] under each fate of its one store command and each state
    of the channel of the bus. *)
Lemma createMatch_run (w : World) (gameMode : string) (group : list QueueEntry)
    (now : Z) :
  let gameId := uuid_of (next_uuid w) in
  MatchmakingService.createMatch group gameMode now w
  = match GameService.getGameConfig gameMode with
    | inl e => (set_next_uuid S w, inl e)
    | inr config =>
        let game := mkGame gameId (participant_of <$> group) gameMode starting now
                      config None None None in
        match faults w with
        | true :: rest =>
            (set_faults (fun _ => rest) (set_next_uuid S w), inl StoreError)
        | fate =>
            let announced :=
              set_emitted
                (fun l => l ++ [match_found (mkMatchData gameId group gameMode now)])
                (set_timers (fun l => l ++ [StartGameAt (now + 5000) gameId])
                   (set_activeGames <[gameId := game]>
                      (set_games <[gameId := game]>
                         (set_faults (fun _ => tail fate) (set_next_uuid S w))))) in
            if rabbitmq_channel w
            then (set_published
                    (fun l => l ++ [mkBusMessage "matchmaking.match.created" gameId
                                      gameMode now]) announced, inr tt)
            else (announced, inl ChannelNotInitialized)
        end
    end.
Proof.
  intros gameId. subst gameId. unfold MatchmakingService.createMatch.
  rewrite bind_run. unfold uuidv4 at 1. cbv beta iota.
  rewrite bind_run, createGame_run.
  destruct (GameService.getGameConfig gameMode) as [e | config]; [reflexivity |].
  destruct w as [ps gs qs lbs ag em pub tm n fs ch].
  destruct fs as [| [] rest], ch; reflexivity.
Qed.

(** [createMatch], whatever the store does: the queue is untouched and at
    most the [match_found] of the group is emitted; it is emitted when
    [createMatch] returns.  When the store does not fail and the mode has a
    configuration, it is emitted, and [createMatch] then returns if the
    channel of the bus is set and throws if it is not. *)
Lemma createMatch_effect (gameMode : string) (now : Z) (group : list QueueEntry)
    (w : World) :
  let r := MatchmakingService.createMatch group gameMode now w in
  let found := match_found (mkMatchData (uuid_of (next_uuid w)) group gameMode now) in
  redis_queues r.1 = redis_queues w
  /\ rabbitmq_channel r.1 = rabbitmq_channel w
  /\ (emitted r.1 = emitted w \/ emitted r.1 = emitted w ++ [found])
  /\ (r.2 = inr tt -> emitted r.1 = emitted w ++ [found])
  /\ (fault_free w -> gameMode ∉ Object_prototype_methods ->
      fault_free r.1
      /\ emitted r.1 = emitted w ++ [found]
      /\ r.2 = if rabbitmq_channel w then inr tt else inl ChannelNotInitialized).
Proof.
  cbv zeta. rewrite createMatch_run. cbv zeta. unfold fault_free.
  destruct (GameService.getGameConfig gameMode) as [e | config] eqn:Hc.
  { apply getGameConfig_throws in Hc as [_ Hin]. cbn.
    repeat split; auto; try discriminate; contradiction. }
  destruct (faults w) as [| [] rest] eqn:Hf;
    destruct (rabbitmq_channel w) eqn:Hch; cbn; rewrite ?Hf;
    repeat split; auto; try discriminate.
Qed.

Lemma pruned_refl (gameMode : string) (group : list QueueEntry) (w : World) :
  pruned gameMode group w w.
Proof. repeat split; [reflexivity |]. intros e He Hne. contradiction. Qed.

Lemma pruned_trans (gameMode : string) (group : list QueueEntry) (w0 w1 w2 : World) :
  pruned gameMode group w0 w1 -> pruned gameMode group w1 w2 ->
  pruned gameMode group w0 w2.
Proof.
  intros (Hem1 & Hsub1 & Hrem1) (Hem2 & Hsub2 & Hrem2).
  split; [congruence |]. split; [etransitivity; eassumption |].
  intros e He0 Hne2.
  destruct (decide (e ∈ queue_of w1 gameMode)) as [He1 | Hne1]; eauto.
Qed.

Lemma zRem_queue_pruned (gameMode : string) (group : list QueueEntry)
    (member : QueueEntry) (w : World) :
  member ∈ group ->
  pruned gameMode group w (RedisClient.zRem_queue gameMode (entry_text member) w).1.
Proof.
  intros Hin.
  destruct (zRem_queue_effect gameMode (entry_text member) w) as (Hem & Hq & _).
  split; [exact Hem |]. destruct Hq as [-> | ->].
  - split; [reflexivity |]. intros e He Hne. contradiction.
  - split; [apply sublist_filter |]. intros e He Hne.
    exists member. split; [exact Hin |].
    destruct (decide (entry_text e = entry_text member)) as [Heq | Hneq]; [auto |].
    exfalso. apply Hne. apply list_elem_of_filter. split; assumption.
Qed.

(** The removal loop over the players of a group, whatever the store does;
    and when the store does not fail no member of the group is left. *)
Lemma remove_group_effect (gameMode : string) (group members : list QueueEntry) :
  (forall e, e ∈ members -> e ∈ group) ->
  forall w,
  let r := for_each (fun player =>
             RedisClient.zRem_queue gameMode (entry_text player)) members w in
  pruned gameMode group w r.1
  /\ rabbitmq_channel r.1 = rabbitmq_channel w
  /\ (fault_free w ->
      r.2 = inr tt /\ fault_free r.1
      /\ forall e q, e ∈ members -> q ∈ queue_of r.1 gameMode ->
           entry_text q <> entry_text e).
Proof.
  induction members as [| m rest IH]; intros Hin w.
  - cbn. split; [apply pruned_refl |]. split; [reflexivity |].
    intros Hff. repeat split; [exact Hff |].
    intros e q He. inversion He.
  - cbn [for_each]. rewrite bind_run.
    pose proof (zRem_queue_pruned gameMode group m w (Hin m ltac:(left))) as Hstep.
    destruct (zRem_queue_effect gameMode (entry_text m) w) as (_ & _ & Hok & Hch).
    destruct (RedisClient.zRem_queue gameMode (entry_text m) w) as [w1 [err | []]].
    + split; [exact Hstep |]. split; [exact Hch |].
      intros Hff. destruct (Hok Hff) as [Hr _]. discriminate.
    + destruct (IH (fun e He => Hin e ltac:(right; exact He)) w1)
        as (Hrest & Hch1 & Hff1).
      split; [eapply pruned_trans; eassumption |].
      split; [cbn [fst] in *; congruence |].
      intros Hff. destruct (Hok Hff) as (_ & Hffw1 & Hq1).
      destruct (Hff1 Hffw1) as (Hr & Hff2 & Hgone).
      split; [exact Hr |]. split; [exact Hff2 |].
      intros e q He Hq. apply elem_of_cons in He as [-> | He]; [| eauto].
      destruct Hrest as (_ & Hsub & _).
      pose proof (elem_of_sublist _ _ _ Hq Hsub) as Hq'. cbn in Hq1.
      rewrite Hq1 in Hq'. apply list_elem_of_filter in Hq' as [Hne _]. exact Hne.
Qed.

Lemma queue_of_same (w w' : World) (gameMode : string) :
  redis_queues w' = redis_queues w -> queue_of w' gameMode = queue_of w gameMode.
Proof. unfold queue_of. intros ->. reflexivity. Qed.

(** One turn of the loop of [processMatchmaking], whatever the store does.
    When the store does not fail and the mode has a configuration, the group
    is announced; then, with the channel of the bus set, none of its members
    is left in the queue, and with the channel not set the turn throws and
    the queue is as it was. *)
Lemma commit_group_effect (gameMode : string) (now : Z) (group : list QueueEntry)
    (w : World) :
  let r := MatchmakingService.commit_group gameMode now group w in
  removals_announced gameMode w r.1
  /\ rabbitmq_channel r.1 = rabbitmq_channel w
  /\ (fault_free w -> gameMode ∉ Object_prototype_methods ->
      fault_free r.1
      /\ announced (emitted r.1) = announced (emitted w) ++ [group]
      /\ if rabbitmq_channel w
         then r.2 = inr tt
              /\ queue_of r.1 gameMode `sublist_of` queue_of w gameMode
              /\ (forall e q, e ∈ group -> q ∈ queue_of r.1 gameMode ->
                    entry_text q <> entry_text e)
         else r.2 = inl ChannelNotInitialized
              /\ queue_of r.1 gameMode = queue_of w gameMode).
Proof.
  unfold MatchmakingService.commit_group. rewrite bind_run.
  destruct (createMatch_effect gameMode now group w)
    as (Hq & Hch & Hem & Hret & Hok).
  destruct (MatchmakingService.createMatch group gameMode now w) as [w1 [err | []]];
    cbn [fst snd] in *.
  - split; [| split; [exact Hch |]].
    + destruct Hem as [Hem | Hem]; eexists; (split; [rewrite Hem; try reflexivity;
        symmetry; apply app_nil_r |]);
        rewrite (queue_of_same w w1 gameMode Hq);
        (split; [reflexivity |]); intros e He Hne; contradiction.
    + intros Hff Hmode. destruct (Hok Hff Hmode) as (Hff1 & Hem1 & Hr).
      split; [exact Hff1 |].
      split; [rewrite Hem1, announced_app; reflexivity |].
      destruct (rabbitmq_channel w); [discriminate |].
      split; [exact Hr | apply queue_of_same; exact Hq].
  - destruct (remove_group_effect gameMode group group (fun e He => He) w1)
      as ((Hem2 & Hsub & Hrem) & Hch2 & Hff2).
    specialize (Hret eq_refl).
    rewrite (queue_of_same w w1 gameMode Hq) in *.
    split; [| split; [congruence |]].
    + eexists. split; [rewrite Hem2, Hret; reflexivity |].
      split; [exact Hsub |]. intros e He Hne.
      destruct (Hrem e He Hne) as (e' & He' & Ht).
      exists group, e'. split; [cbn; constructor |]. split; assumption.
    + intros Hff Hmode. destruct (Hok Hff Hmode) as (Hff1 & _ & Hr).
      destruct (Hff2 Hff1) as (Hr2 & Hff3 & Hgone).
      split; [exact Hff3 |].
      split; [rewrite Hem2, Hret, announced_app; reflexivity |].
      destruct (rabbitmq_channel w); [| discriminate].
      split; [exact Hr2 |]. split; [exact Hsub | exact Hgone].
Qed.

(** The loop over the matches, whatever the store does. *)
Lemma commit_groups_removals (gameMode : string) (now : Z)
    (matches : list (list QueueEntry)) (w : World) :
  removals_announced gameMode w
    (for_each (MatchmakingService.commit_group gameMode now) matches w).1.
Proof.
  revert w. induction matches as [| group rest IH]; intros w.
  - apply removals_announced_refl.
  - cbn [for_each]. rewrite bind_run.
    destruct (commit_group_effect gameMode now group w) as [Hstep _].
    destruct (MatchmakingService.commit_group gameMode now group w)
      as [w1 [err | []]]; [exact Hstep |].
    eapply removals_announced_trans; [exact Hstep | apply IH].
Qed.

(** The loop over the matches when the store does not fail and the channel
    of the bus is set: every match is announced, and no member of any of them
    is left in the queue. *)
Lemma commit_groups_fault_free (gameMode : string) (now : Z)
    (matches : list (list QueueEntry)) (w : World) :
  fault_free w -> rabbitmq_channel w = true ->
  gameMode ∉ Object_prototype_methods ->
  let r := for_each (MatchmakingService.commit_group gameMode now) matches w in
  r.2 = inr tt /\ fault_free r.1
  /\ announced (emitted r.1) = announced (emitted w) ++ matches
  /\ queue_of r.1 gameMode `sublist_of` queue_of w gameMode
  /\ forall group e q, group ∈ matches -> e ∈ group ->
       q ∈ queue_of r.1 gameMode -> entry_text q <> entry_text e.
Proof.
  intros Hff Hch Hmode. revert w Hff Hch.
  induction matches as [| group rest IH]; intros w Hff Hch.
  - cbn. rewrite app_nil_r.
    split; [reflexivity |]. split; [exact Hff |]. split; [reflexivity |].
    split; [reflexivity |]. intros group e q Hg. inversion Hg.
  - cbn [for_each]. rewrite bind_run.
    destruct (commit_group_effect gameMode now group w) as (_ & Hch1 & Hok).
    destruct (Hok Hff Hmode) as (Hff1 & Hann & Hrest). clear Hok.
    rewrite Hch in Hrest. destruct Hrest as (Hr & Hsub & Hgone).
    destruct (MatchmakingService.commit_group gameMode now group w)
      as [w1 [err | []]]; cbn [fst snd] in *; [discriminate |].
    destruct (IH w1 Hff1 ltac:(congruence)) as (Hr2 & Hff2 & Hann2 & Hsub2 & Hgone2).
    split; [exact Hr2 |]. split; [exact Hff2 |].
    split; [rewrite Hann2, Hann, <- app_assoc; reflexivity |].
    split; [etransitivity; eassumption |].
    intros g e q Hg He Hq. apply elem_of_cons in Hg as [-> | Hg]; [| eauto].
    apply (Hgone e q He). eapply elem_of_sublist; eassumption.
Qed.

(** The loop over the matches when the store does not fail and the channel
    of the bus is not set: its first turn announces the first match and
    throws; nobody is removed. *)
Lemma commit_groups_no_channel (gameMode : string) (now : Z)
    (matches : list (list QueueEntry)) (w : World) :
  fault_free w -> rabbitmq_channel w = false ->
  gameMode ∉ Object_prototype_methods ->
  let r := for_each (MatchmakingService.commit_group gameMode now) matches w in
  announced (emitted r.1) = announced (emitted w) ++ take 1 matches
  /\ queue_of r.1 gameMode = queue_of w gameMode
  /\ (matches <> [] -> r.2 = inl ChannelNotInitialized).
Proof.
  intros Hff Hch Hmode. destruct matches as [| group rest].
  - cbn. rewrite app_nil_r. repeat split. congruence.
  - cbn [for_each take]. rewrite bind_run.
    destruct (commit_group_effect gameMode now group w) as (_ & _ & Hok).
    destruct (Hok Hff Hmode) as (_ & Hann & Hrest). clear Hok.
    rewrite Hch in Hrest. destruct Hrest as [Hr Hq].
    destruct (MatchmakingService.commit_group gameMode now group w)
      as [w1 [err | []]]; cbn [fst snd] in *; [| discriminate].
    split; [exact Hann |]. split; [exact Hq |]. intros _. exact Hr.
Qed.

Lemma removals_announced_same (gameMode : string) (w w' : World) :
  redis_queues w' = redis_queues w -> emitted w' = emitted w ->
  removals_announced gameMode w w'.
Proof.
  intros Hq Hem. exists []. rewrite app_nil_r. split; [exact Hem |].
  rewrite (queue_of_same w w' gameMode Hq). split; [reflexivity |].
  intros e He Hne. contradiction.
Qed.

(** The body of the tick, whatever the store does. *)
Lemma processMatchmaking_body_removals (gameMode : string) (now : Z) (w : World) :
  removals_announced gameMode w
    (MatchmakingService.processMatchmaking_body gameMode now w).1.
Proof.
  unfold MatchmakingService.processMatchmaking_body, RedisClient.zRange_queue,
    RedisClient.command.
  rewrite bind_run.
  destruct (faults w) as [| [] rest] eqn:Hf; cbn [gets fst snd].
  - destruct (bool_decide _); [apply removals_announced_refl |].
    apply commit_groups_removals.
  - apply removals_announced_same; reflexivity.
  - destruct (bool_decide _); [apply removals_announced_same; reflexivity |].
    eapply removals_announced_trans; [| apply commit_groups_removals].
    apply removals_announced_same; reflexivity.
Qed.

(** For a mode that names a property of [Object.prototype] the number of
    players per match is not a number, and no group is ever full. *)
Lemma getPlayersPerMatch_inherited (gameMode : string) :
  gameMode ∈ Object_prototype_methods ->
  MatchmakingService.getPlayersPerMatch gameMode = MatchmakingService.Inherited.
Proof.
  unfold Object_prototype_methods. intros Hin.
  repeat (apply elem_of_cons in Hin as [-> | Hin]; [vm_compute; reflexivity |]).
  inversion Hin.
Qed.

Lemma scan_matches_inherited (now : Z) (gameMode : string)
    (players : list QueueEntry) :
  MatchmakingService.getPlayersPerMatch gameMode = MatchmakingService.Inherited ->
  forall usedPlayers matches,
    MatchmakingService.scan_matches now gameMode players usedPlayers matches
    = matches.
Proof.
  intros Hppm. induction players as [| p rest IH]; intros usedPlayers matches;
    [reflexivity |].
  cbn [MatchmakingService.scan_matches]. case_bool_decide; [apply IH |].
  assert (Hfill : MatchmakingService.fill_match now gameMode p rest [p]
                    ({[entry_id p]} ∪ usedPlayers)
                  = ([p], {[entry_id p]} ∪ usedPlayers)).
  { destruct rest; cbn [MatchmakingService.fill_match]; [reflexivity |].
    rewrite Hppm. reflexivity. }
  rewrite Hfill, Hppm. cbn [MatchmakingService.length_is]. apply IH.
Qed.

Lemma findMatches_inherited (now : Z) (gameMode : string) (players : list QueueEntry) :
  MatchmakingService.getPlayersPerMatch gameMode = MatchmakingService.Inherited ->
  MatchmakingService.findMatches now gameMode players = [].
Proof.
  intros Hppm. unfold MatchmakingService.findMatches.
  apply scan_matches_inherited. exact Hppm.
Qed.

(** The body of the tick when the store does not fail. *)
Lemma processMatchmaking_body_fault_free (gameMode : string) (now : Z) (w : World) :
  fault_free w ->
  let r := MatchmakingService.processMatchmaking_body gameMode now w in
  let matches := matches_of_tick now gameMode w in
  if rabbitmq_channel w
  then r.2 = inr tt
       /\ announced (emitted r.1) = announced (emitted w) ++ matches
       /\ (forall group e q, group ∈ matches -> e ∈ group ->
             q ∈ queue_of r.1 gameMode -> entry_text q <> entry_text e)
  else announced (emitted r.1) = announced (emitted w) ++ take 1 matches
       /\ queue_of r.1 gameMode = queue_of w gameMode.
Proof.
  intros Hff. unfold matches_of_tick, MatchmakingService.processMatchmaking_body,
    RedisClient.zRange_queue.
  rewrite bind_run, command_ok by exact Hff. cbn [gets]. unfold zRangeAll.
  fold (queue_of w gameMode).
  destruct (bool_decide (length (queue_of w gameMode) < 2)%nat).
  { cbn. rewrite app_nil_r. destruct (rabbitmq_channel w); repeat split.
    intros group e q Hg. inversion Hg. }
  destruct (decide (gameMode ∈ Object_prototype_methods)) as [Hin | Hmode].
  { rewrite (findMatches_inherited now gameMode _
               (getPlayersPerMatch_inherited gameMode Hin)).
    cbn. rewrite app_nil_r. destruct (rabbitmq_channel w); repeat split.
    intros group e q Hg. inversion Hg. }
  destruct (rabbitmq_channel w) eqn:Hch.
  - destruct (commit_groups_fault_free gameMode now
                (MatchmakingService.findMatches now gameMode (queue_of w gameMode))
                w Hff Hch Hmode) as (Hr & _ & Hann & _ & Hgone).
    split; [exact Hr |]. split; [exact Hann | exact Hgone].
  - destruct (commit_groups_no_channel gameMode now
                (MatchmakingService.findMatches now gameMode (queue_of w gameMode))
                w Hff Hch Hmode) as (Hann & Hq & _).
    split; [exact Hann | exact Hq].
Qed.

(** C3, as the code has it.  A tick never throws.  Whatever the store and
    the bus do during the tick, entries are only removed from the mode's
    queue, and every entry removed is a member (by its text) of a group for
    which match_found was emitted during the tick: no unannounced group is
    removed.  When no store command fails during the tick and the channel of
    the bus is set, the groups announced are those of [findMatches], and no
    member of an announced group is left in the queue.  When no store command
    fails and the channel of the bus is not set, [publish] throws right after
    the first match_found: the first group of [findMatches] is announced, no
    other is, and the queue is as it was. *)
Theorem processMatchmaking_removals (w : World) (gameMode : string) (now : Z) :
  let run := MatchmakingService.processMatchmaking gameMode now in
  let w' := exec run w in
  let matches :=
    if bool_decide (length (queue_of w gameMode) < 2)%nat then []
    else MatchmakingService.findMatches now gameMode (queue_of w gameMode) in
  outcome run w = inr tt
  /\ removals_announced gameMode w w'
  /\ (fault_free w -> rabbitmq_channel w = true ->
      exists new,
        emitted w' = emitted w ++ new
        /\ announced new = matches
        /\ forall group e, group ∈ announced new -> e ∈ group ->
             e ∉ queue_of w' gameMode)
  /\ (fault_free w -> rabbitmq_channel w = false ->
      exists new,
        emitted w' = emitted w ++ new
        /\ announced new = take 1 matches
        /\ queue_of w' gameMode = queue_of w gameMode).
Proof.
  intros run w'. subst run w'.
  unfold exec, outcome, MatchmakingService.processMatchmaking, try_catch.
  cbn [fst snd].
  split; [reflexivity |].
  pose proof (processMatchmaking_body_removals gameMode now w) as Hrem.
  split; [exact Hrem |].
  destruct Hrem as (new & Hem & _).
  split; intros Hff Hch;
    pose proof (processMatchmaking_body_fault_free gameMode now w Hff) as Hok;
    cbv zeta in Hok; rewrite Hch in Hok; unfold matches_of_tick in Hok.
  - destruct Hok as (_ & Hann & Hgone).
    exists new. split; [exact Hem |].
    rewrite Hem, announced_app in Hann. apply app_inv_head in Hann.
    split; [exact Hann |].
    intros group e Hg He Hin. rewrite Hann in Hg.
    exact (Hgone group e e Hg He Hin eq_refl).
  - destruct Hok as [Hann Hq].
    exists new. split; [exact Hem |].
    rewrite Hem, announced_app in Hann. apply app_inv_head in Hann.
    split; [exact Hann | exact Hq].
Qed.

Lemma processMatchmaking_removals_witness :
  (fault_free both_queued /\ rabbitmq_channel both_queued = true)
  /\ exists new,
       emitted (exec (MatchmakingService.processMatchmaking "chess" 2000) both_queued)
       = emitted both_queued ++ new
       /\ announced new = [[alice_entry; bob_entry]].
Proof.
  assert (Hff : fault_free both_queued) by (vm_compute; reflexivity).
  assert (Hch : rabbitmq_channel both_queued = true) by (vm_compute; reflexivity).
  split; [split; assumption |].
  destruct (processMatchmaking_removals both_queued "chess" 2000)
    as (_ & _ & Hok & _).
  destruct (Hok Hff Hch) as (new & Hem & Hann & _).
  exists new. split; [exact Hem |]. rewrite Hann. vm_compute. reflexivity.
Defined.

(** C3 as stated fails.  With Alice and Bob waiting and a store that rejects
    the first [zRem] of the tick, match_found is emitted for the two and both
    are still in the queue.  With four players waiting and a store that
    rejects the creation of the second game, the tick throws inside and the
    queue has lost the first group.  With Alice and Bob waiting, a store that
    answers and the channel of the bus not set, match_found is emitted for the
    two, [publish] throws, and both are still in the queue. *)
Lemma processMatchmaking_not_atomic :
  (let w' := exec (MatchmakingService.processMatchmaking "chess" 2000)
               (failing_at 2 both_queued) in
   announced (emitted w') = [[alice_entry; bob_entry]]
   /\ queue_of w' "chess" = [alice_entry; bob_entry])
  /\ (let w := failing_at 4 four_queued in
      let body := MatchmakingService.processMatchmaking_body "chess" 2000 in
      outcome body w = inl StoreError
      /\ queue_of w "chess" = [alice_entry; bob_entry; carol_entry; dave_entry]
      /\ queue_of (exec (MatchmakingService.processMatchmaking "chess" 2000) w)
           "chess" = [carol_entry; dave_entry])
  /\ (let w := set_rabbitmq_channel (fun _ => false) both_queued in
      let body := MatchmakingService.processMatchmaking_body "chess" 2000 in
      fault_free w
      /\ outcome body w = inl ChannelNotInitialized
      /\ announced (emitted (exec (MatchmakingService.processMatchmaking "chess" 2000)
                               w))
         = [[alice_entry; bob_entry]]
      /\ queue_of (exec (MatchmakingService.processMatchmaking "chess" 2000) w)
           "chess" = [alice_entry; bob_entry]).
Proof. repeat split; vm_compute; reflexivity. Qed.

(** The scenarios of the specification and the test of the repository. *)
Example tick_two_players :
  let w' := exec (MatchmakingService.processMatchmaking "chess" 2000) both_queued in
  announced (emitted w') = [[alice_entry; bob_entry]]
  /\ queue_of w' "chess" = [].
Proof. split; vm_compute; reflexivity. Qed.

Example tick_four_players :
  let w' := exec (MatchmakingService.processMatchmaking "chess" 2000) four_queued in
  announced (emitted w')
  = [[alice_entry; bob_entry]; [carol_entry; dave_entry]]
  /\ queue_of w' "chess" = [].
Proof. split; vm_compute; reflexivity. Qed.

Example findMatches_test :
  MatchmakingService.findMatches 0 "chess"
    [rated_entry "1" 1000; rated_entry "2" 1050; rated_entry "3" 1500]
  = [[rated_entry "1" 1000; rated_entry "2" 1050]].
Proof. vm_compute. reflexivity. Qed.

Example findMatches_wait_relaxes :
  MatchmakingService.findMatches 2000 "chess"
    [rated_entry "alice" 1000; rated_entry "carol" 1500] = []
  /\ MatchmakingService.findMatches 170000 "chess"
       [rated_entry "alice" 1000; rated_entry "carol" 1500]
     = [[rated_entry "alice" 1000; rated_entry "carol" 1500]].
Proof. split; vm_compute; reflexivity. Qed.

(** Equal ratings: the expected score is one half, so a win is worth 16
    points, a loss costs 16 and a draw changes nothing. *)
Example newRating_equal_ratings :
  PlayerService.newRating_of 1000 1000 1 = 1016
  /\ PlayerService.newRating_of 1000 1000 0 = 984
  /\ PlayerService.newRating_of 1000 1000 (/ 2) = 1000.
Proof.
  assert (He : PlayerService.calculateExpectedScore (IZR 1000) (IZR 1000) = (/ 2)%R).
  { unfold PlayerService.calculateExpectedScore.
    replace ((IZR 1000 - IZR 1000) / 400)%R with 0%R by lra.
    rewrite Rpower_O by lra. lra. }
  unfold PlayerService.newRating_of, PlayerService.eloK. rewrite He.
  replace (IZR 1000 + 32 * (1 - / 2))%R with (IZR 1016) by lra.
  replace (IZR 1000 + 32 * (0 - / 2))%R with (IZR 984) by lra.
  replace (IZR 1000 + 32 * (/ 2 - / 2))%R with (IZR 1000) by lra.
  rewrite !Math_round_IZR. repeat split.
Qed.

(** Scenario 4 of the specification: Alice (1000) beats Bob (1200); her new
    rating is 1024 and his is 1176. *)
Example newRating_scenario_4 :
  PlayerService.newRating_of 1000 1200 1 = 1024
  /\ PlayerService.newRating_of 1200 1000 0 = 1176.
Proof.
  assert (Hs : (3.16 < sqrt 10 < 3.17)%R).
  { split.
    - replace 3.16%R with (sqrt (3.16 * 3.16)) by (apply sqrt_square; lra).
      apply sqrt_lt_1_alt. lra.
    - replace 3.17%R with (sqrt (3.17 * 3.17)) by (apply sqrt_square; lra).
      apply sqrt_lt_1_alt. lra. }
  assert (Hup : Rpower 10 ((IZR 1200 - IZR 1000) / 400) = sqrt 10).
  { replace ((IZR 1200 - IZR 1000) / 400)%R with (/ 2)%R by lra.
    apply Rpower_sqrt. lra. }
  assert (Hdown : Rpower 10 ((IZR 1000 - IZR 1200) / 400) = (/ sqrt 10)%R).
  { replace ((IZR 1000 - IZR 1200) / 400)%R with (- / 2)%R by lra.
    rewrite Rpower_Ropp, Rpower_sqrt by lra. reflexivity. }
  assert (Hinv : (0.315 < / sqrt 10 < 0.317)%R).
  { assert (Hpos : (0 < sqrt 10)%R) by lra.
    split.
    - apply (Rmult_lt_reg_r (sqrt 10)); [exact Hpos |].
      rewrite Rinv_l by lra. nra.
    - apply (Rmult_lt_reg_r (sqrt 10)); [exact Hpos |].
      rewrite Rinv_l by lra. nra. }
  unfold PlayerService.newRating_of, PlayerService.calculateExpectedScore,
    PlayerService.eloK.
  rewrite Hup, Hdown. split.
  - assert (He : (0.239 < 1 / (1 + sqrt 10) < 0.241)%R).
    { assert (Hpos : (0 < 1 + sqrt 10)%R) by lra.
      split; apply (Rmult_lt_reg_r (1 + sqrt 10)); try exact Hpos;
        unfold Rdiv; rewrite Rmult_assoc, Rinv_l by lra; nra. }
    assert (Hz : Math_round (IZR 1000 + 32 * (1 - 1 / (1 + sqrt 10))) = 1024).
    { unfold Math_round. apply Zfloor_eq. lra. }
    rewrite Hz. reflexivity.
  - assert (He : (0.759 < 1 / (1 + / sqrt 10) < 0.761)%R).
    { assert (Hpos : (0 < 1 + / sqrt 10)%R) by lra.
      split; apply (Rmult_lt_reg_r (1 + / sqrt 10)); try exact Hpos;
        unfold Rdiv; rewrite Rmult_assoc, Rinv_l by lra; nra. }
    assert (Hz : Math_round (IZR 1200 + 32 * (0 - 1 / (1 + / sqrt 10))) = 1176).
    { unfold Math_round. apply Zfloor_eq. lra. }
    rewrite Hz. reflexivity.
Qed.

(** The tests of the repository on the queue: a player who joins is in the
    queue, and is out of it again after leaving. *)
Example queue_join_then_leave :
  let joined := exec (MatchmakingService.addToQueue "uuid-0" "fps" (Some no_preferences)
                        "socket123" 10) two_players in
  let left := exec (MatchmakingService.removeFromQueue "uuid-0" "fps" 11) joined in
  outcome (RedisClient.zCard_queue "fps") joined = inr 1
  /\ outcome (RedisClient.zCard_queue "fps") left = inr 0.
Proof. split; vm_compute; reflexivity. Qed.

(** A disconnect removes the entries of that socket, in every mode. *)
Example disconnect_leaves_queues :
  let w := exec (MatchmakingService.addToQueue "uuid-0" "fps" None "socket-a" 13)
             both_queued in
  let w' := exec (MatchmakingService.handlePlayerDisconnect "socket-a") w in
  queue_of w "fps" = [mkQueueEntry "uuid-0" "alice" 1000 no_preferences "socket-a" 13 0]
  /\ queue_of w' "fps" = []
  /\ queue_of w' "chess" = [bob_entry].
Proof. repeat split; vm_compute; reflexivity. Qed.

(** Identifiers handed out by [uuidv4] at different times differ. *)
Lemma uuid_of_inj (n m : nat) : uuid_of n = uuid_of m -> n = m.
Proof.
  unfold uuid_of. intros H. apply (inj pretty).
  apply (inj (String.append "uuid-")). exact H.
Qed.

(** * More properties of the services *)

(** ** MatchmakingService.findMatches *)

Lemma insert_by_joinedAt_perm (p : QueueEntry) (l : list QueueEntry) :
  MatchmakingService.insert_by_joinedAt p l ≡ₚ p :: l.
Proof.
  induction l as [| q l IH]; cbn; [reflexivity |].
  destruct (entry_joinedAt p <=? entry_joinedAt q); [reflexivity |].
  rewrite IH. apply Permutation_swap.
Qed.

Lemma sort_by_joinedAt_perm (l : list QueueEntry) :
  MatchmakingService.sort_by_joinedAt l ≡ₚ l.
Proof.
  unfold MatchmakingService.sort_by_joinedAt.
  induction l as [| p l IH]; cbn; [reflexivity |].
  rewrite insert_by_joinedAt_perm, IH. reflexivity.
Qed.

Lemma insert_by_joinedAt_sorted (p : QueueEntry) (l : list QueueEntry) :
  by_joinedAt l -> by_joinedAt (MatchmakingService.insert_by_joinedAt p l).
Proof.
  unfold by_joinedAt. induction l as [| q l IH]; intros Hs; cbn.
  - repeat constructor.
  - apply StronglySorted_inv in Hs as [Hs Hall].
    destruct (Z.leb_spec (entry_joinedAt p) (entry_joinedAt q)) as [Hle | Hgt].
    + constructor; [constructor; assumption |].
      constructor; [exact Hle |].
      eapply Forall_impl; [exact Hall |]. cbn. intros; lia.
    + constructor; [auto |].
      rewrite insert_by_joinedAt_perm. constructor; [lia | exact Hall].
Qed.

Lemma sort_by_joinedAt_sorted (l : list QueueEntry) :
  by_joinedAt (MatchmakingService.sort_by_joinedAt l).
Proof.
  unfold MatchmakingService.sort_by_joinedAt.
  induction l as [| p l IH]; cbn; [constructor |].
  apply insert_by_joinedAt_sorted. exact IH.
Qed.

(** The inner loop of [findMatches]: what it appends to the group and adds
    to the used ids. *)
Lemma fill_match_spec (now : Z) (gameMode : string) (n : nat) (seed : QueueEntry)
    (candidates : list QueueEntry) :
  MatchmakingService.getPlayersPerMatch gameMode = MatchmakingService.Players n ->
  forall (potentialMatch : list QueueEntry) (usedPlayers : gset string),
  exists added,
    MatchmakingService.fill_match now gameMode seed candidates potentialMatch
      usedPlayers
    = (potentialMatch ++ added, list_to_set (ids_of added) ∪ usedPlayers)
    /\ added `sublist_of` candidates
    /\ Forall (fun q =>
         MatchmakingService.arePlayersCompatible now seed q gameMode = true) added
    /\ NoDup (ids_of added)
    /\ (forall q, q ∈ added -> entry_id q ∉ usedPlayers)
    /\ ((length potentialMatch <= n)%nat ->
        (length (potentialMatch ++ added) <= n)%nat).
Proof.
  intros Hppm. induction candidates as [| q rest IH]; intros pm used.
  - exists []. cbn. rewrite app_nil_r.
    split; [f_equal; set_solver |]. split; [constructor |].
    split; [constructor |]. split; [constructor |].
    split; [intros x Hx; inversion Hx | auto].
  - cbn [MatchmakingService.fill_match]. rewrite Hppm.
    cbn [MatchmakingService.length_below]. case_bool_decide as Hlen.
    + case_bool_decide as Hused.
      * destruct (IH pm used) as (added & Hrun & Hsub & Hc & Hnd & Hfresh & Hle).
        exists added. split; [exact Hrun |].
        split; [apply sublist_cons; exact Hsub | auto].
      * destruct (MatchmakingService.arePlayersCompatible now seed q gameMode)
          eqn:Hcompat.
        -- destruct (IH (pm ++ [q]) ({[entry_id q]} ∪ used))
             as (added & Hrun & Hsub & Hc & Hnd & Hfresh & Hle).
           exists (q :: added). rewrite Hrun, <- app_assoc. cbn.
           split; [f_equal; set_solver |].
           split; [apply sublist_skip; exact Hsub |].
           split; [constructor; assumption |].
           split.
           { apply NoDup_cons. split; [| exact Hnd].
             intros Hin. apply list_elem_of_fmap in Hin as (x & Hid & Hx).
             apply Hfresh in Hx. set_solver. }
           split.
           { intros x Hx. apply elem_of_cons in Hx as [-> | Hx]; [exact Hused |].
             apply Hfresh in Hx. set_solver. }
           intros _. rewrite <- app_assoc in Hle. cbn in Hle. apply Hle.
           rewrite length_app. cbn. lia.
        -- destruct (IH pm used) as (added & Hrun & Hsub & Hc & Hnd & Hfresh & Hle).
           exists added. split; [exact Hrun |].
           split; [apply sublist_cons; exact Hsub | auto].
    + exists []. rewrite app_nil_r.
      split; [f_equal; set_solver |]. split; [apply sublist_nil_l |].
      split; [constructor |]. split; [constructor |].
      split; [intros x Hx; inversion Hx | auto].
Qed.

Lemma release_players (usedPlayers : gset string) (group : list QueueEntry) :
  foldl (fun used q => used ∖ {[entry_id q]}) usedPlayers group
  = usedPlayers ∖ list_to_set (ids_of group).
Proof.
  revert usedPlayers. induction group as [| q group IH]; intros used; cbn.
  - set_solver.
  - rewrite IH. set_solver.
Qed.

(** The outer loop of [findMatches]: the groups it appends. *)
Lemma scan_matches_spec (now : Z) (gameMode : string) (n : nat)
    (players : list QueueEntry) :
  MatchmakingService.getPlayersPerMatch gameMode = MatchmakingService.Players n ->
  forall (usedPlayers : gset string) (matches : list (list QueueEntry)),
  exists new,
    MatchmakingService.scan_matches now gameMode players usedPlayers matches
    = matches ++ new
    /\ Forall (committed_group now gameMode players) new
    /\ NoDup (ids_of (concat new))
    /\ (forall q, q ∈ concat new -> entry_id q ∉ usedPlayers).
Proof.
  intros Hppm. induction players as [| p rest IH]; intros used matches.
  - exists []. cbn. rewrite app_nil_r.
    split; [reflexivity |]. split; [constructor |]. split; [constructor |].
    intros q Hq. inversion Hq.
  - cbn [MatchmakingService.scan_matches]. case_bool_decide as Hused.
    + destruct (IH used matches) as (new & Hrun & Hgood & Hnd & Hfresh).
      exists new. split; [exact Hrun |]. split; [| auto].
      eapply Forall_impl; [exact Hgood |].
      intros g (Hlen & Hsub & Hseed). split; [exact Hlen |].
      split; [apply sublist_cons; exact Hsub | exact Hseed].
    + destruct (fill_match_spec now gameMode n p rest Hppm [p]
                  ({[entry_id p]} ∪ used))
        as (added & Hfill & Hsub & Hc & Hnda & Hfa & _).
      rewrite Hfill. cbn [app]. rewrite Hppm.
      cbn [MatchmakingService.length_is]. case_bool_decide as Hfull.
      * destruct (IH (list_to_set (ids_of added) ∪ ({[entry_id p]} ∪ used))
                    (matches ++ [p :: added]))
          as (new & Hrun & Hgood & Hnd & Hfresh).
        exists ((p :: added) :: new). rewrite Hrun, <- app_assoc. cbn [app].
        split; [reflexivity |]. split.
        { constructor.
          - split; [rewrite Hppm, <- Hfull; reflexivity |].
            split; [apply sublist_skip; exact Hsub |].
            exists p, added. split; [reflexivity | exact Hc].
          - eapply Forall_impl; [exact Hgood |].
            intros g (Hlen & Hs & Hseed). split; [exact Hlen |].
            split; [apply sublist_cons; exact Hs | exact Hseed]. }
        assert (Hp : entry_id p ∉ ids_of added).
        { intros Hin. apply list_elem_of_fmap in Hin as (x & Hid & Hx).
          apply Hfa in Hx. set_solver. }
        split.
        { cbn [concat]. unfold ids_of. rewrite fmap_app, fmap_cons.
          apply NoDup_app. split.
          - apply NoDup_cons. split; [exact Hp | exact Hnda].
          - split; [| exact Hnd].
            intros i Hi Hin'. apply list_elem_of_fmap in Hin' as (x & -> & Hx).
            apply Hfresh in Hx. apply Hx.
            apply elem_of_cons in Hi as [-> | Hi]; [set_solver |].
            apply elem_of_union_l, elem_of_list_to_set. exact Hi. }
        intros q Hq. cbn [concat] in Hq. apply elem_of_app in Hq as [Hq | Hq].
        -- apply elem_of_cons in Hq as [-> | Hq]; [exact Hused |].
           apply Hfa in Hq. set_solver.
        -- apply Hfresh in Hq. set_solver.
      * rewrite release_players.
        assert (Hback : (list_to_set (ids_of added) ∪ ({[entry_id p]} ∪ used))
                          ∖ list_to_set (ids_of (p :: added)) = used).
        { assert (Hd : forall i, i ∈ ids_of added -> i ∉ used).
          { intros i Hi. apply list_elem_of_fmap in Hi as (x & -> & Hx).
            apply Hfa in Hx. set_solver. }
          apply set_eq. intros i. unfold ids_of in *. rewrite fmap_cons.
          rewrite elem_of_difference, !elem_of_union, list_to_set_cons,
            elem_of_union, elem_of_singleton, elem_of_list_to_set.
          split.
          - intros [[Hi | [Hi | Hi]] Hn]; [tauto | tauto | exact Hi].
          - intros Hi. split; [tauto |].
            intros [-> | Hi']; [exact (Hused Hi) | exact (Hd _ Hi' Hi)]. }
        rewrite Hback.
        destruct (IH used matches) as (new & Hrun & Hgood & Hnd & Hfresh).
        exists new. split; [exact Hrun |]. split; [| auto].
        eapply Forall_impl; [exact Hgood |].
        intros g (Hlen & Hs & Hseed). split; [exact Hlen |].
        split; [apply sublist_cons; exact Hs | exact Hseed].
Qed.

Lemma findMatches_spec (now : Z) (gameMode : string) (players : list QueueEntry) :
  Forall (committed_group now gameMode (MatchmakingService.sort_by_joinedAt players))
    (MatchmakingService.findMatches now gameMode players)
  /\ NoDup (ids_of (concat (MatchmakingService.findMatches now gameMode players))).
Proof.
  destruct (MatchmakingService.getPlayersPerMatch gameMode) as [n |] eqn:Hppm.
  - unfold MatchmakingService.findMatches.
    destruct (scan_matches_spec now gameMode n
                (MatchmakingService.sort_by_joinedAt players) Hppm ∅ [])
      as (new & Hrun & Hgood & Hnd & _).
    rewrite Hrun. cbn [app]. split; assumption.
  - rewrite (findMatches_inherited now gameMode players Hppm).
    split; constructor.
Qed.

(** The number of players of a match, when it is a number, is 2 or 10. *)
Lemma getPlayersPerMatch_pos (gameMode : string) (n : nat) :
  MatchmakingService.getPlayersPerMatch gameMode = MatchmakingService.Players n ->
  (2 <= n)%nat.
Proof.
  unfold MatchmakingService.getPlayersPerMatch.
  repeat case_bool_decide; try destruct (inherited gameMode);
    intros Hn; inversion Hn; lia.
Qed.

(** It is a number unless the mode names a property of [Object.prototype]. *)
Lemma getPlayersPerMatch_number (gameMode : string) :
  inherited gameMode = false ->
  exists n, MatchmakingService.getPlayersPerMatch gameMode
            = MatchmakingService.Players n.
Proof.
  intros Hno. unfold MatchmakingService.getPlayersPerMatch.
  repeat case_bool_decide; eauto. rewrite Hno. eauto.
Qed.

(** X1. Every group that [findMatches] returns has exactly the number of
    players of the mode, all of them queue entries of the input; its first
    member has waited at least as long as every other member and is
    compatible, by [arePlayersCompatible], with each of them. *)
Theorem findMatches_groups_full_and_compatible (now : Z) (gameMode : string)
    (players group : list QueueEntry) :
  group ∈ MatchmakingService.findMatches now gameMode players ->
  MatchmakingService.getPlayersPerMatch gameMode
  = MatchmakingService.Players (length group)
  /\ (forall q, q ∈ group -> q ∈ players)
  /\ exists seed followers,
       group = seed :: followers
       /\ Forall (fun q =>
            entry_joinedAt seed <= entry_joinedAt q
            /\ MatchmakingService.arePlayersCompatible now seed q gameMode = true)
            followers.
Proof.
  intros Hin.
  destruct (findMatches_spec now gameMode players) as [Hgood _].
  rewrite Forall_forall in Hgood.
  destruct (Hgood _ Hin) as (Hlen & Hsub & seed & followers & -> & Hc).
  split; [exact Hlen |]. split.
  - intros q Hq. rewrite <- (sort_by_joinedAt_perm players).
    eapply elem_of_sublist; eassumption.
  - exists seed, followers. split; [reflexivity |].
    pose proof (StronglySorted_sublist _ _ _ Hsub
                  (sort_by_joinedAt_sorted players)) as Hs.
    apply StronglySorted_inv in Hs as [_ Hall].
    rewrite Forall_forall in *. intros q Hq. split; auto.
Qed.

(** X2. No player id occurs twice in the groups that [findMatches] returns,
    neither inside one group nor in two of them. *)
Theorem findMatches_no_player_twice (now : Z) (gameMode : string)
    (players : list QueueEntry) :
  NoDup (ids_of (concat (MatchmakingService.findMatches now gameMode players))).
Proof.
  apply (findMatches_spec now gameMode players).
Qed.

Lemma elem_of_concat {A} (x : A) (ls : list (list A)) :
  x ∈ concat ls -> exists l, x ∈ l /\ l ∈ ls.
Proof.
  induction ls as [| l ls IH]; cbn; intros Hx; [inversion Hx |].
  apply elem_of_app in Hx as [Hx | Hx].
  - exists l. split; [exact Hx | left].
  - destruct (IH Hx) as (g & Hg & Hin). exists g. split; [exact Hg | right; exact Hin].
Qed.

Lemma concat_length_uniform {A} (n : nat) (ls : list (list A)) :
  Forall (fun l => length l = n) ls -> length (concat ls) = (length ls * n)%nat.
Proof.
  induction 1 as [| l ls Hl _ IH]; cbn; [reflexivity |].
  rewrite length_app, IH, Hl. reflexivity.
Qed.

(** X3. [findMatches] never returns more groups than the queue can fill:
    the number of groups times the players per match is at most the number
    of entries, so a queue shorter than one match gives no group.  (For a mode
    whose number of players per match is not a number there is no group at
    all.) *)
Theorem findMatches_count (now : Z) (gameMode : string) (players : list QueueEntry) :
  (forall n,
     MatchmakingService.getPlayersPerMatch gameMode = MatchmakingService.Players n ->
     (length (MatchmakingService.findMatches now gameMode players) * n
      <= length players)%nat
     /\ ((length players < n)%nat ->
         MatchmakingService.findMatches now gameMode players = []))
  /\ (MatchmakingService.getPlayersPerMatch gameMode = MatchmakingService.Inherited ->
      MatchmakingService.findMatches now gameMode players = []).
Proof.
  split; [| apply findMatches_inherited].
  intros n Hppm.
  destruct (findMatches_spec now gameMode players) as [Hgood Hnd].
  assert (Hfull : Forall (fun g : list QueueEntry => length g = n)
                    (MatchmakingService.findMatches now gameMode players)).
  { eapply Forall_impl; [exact Hgood |]. intros g (Hg & _).
    rewrite Hppm in Hg. inversion Hg. reflexivity. }
  assert (Hcount :
    (length (MatchmakingService.findMatches now gameMode players) * n
     <= length players)%nat).
  { rewrite <- (concat_length_uniform _ _ Hfull).
    rewrite <- (Permutation_length (sort_by_joinedAt_perm players)).
    apply submseteq_length, NoDup_submseteq.
    - eapply NoDup_fmap_1. exact Hnd.
    - intros x Hx. apply elem_of_concat in Hx as (g & Hx & Hg).
      rewrite Forall_forall in Hgood. destruct (Hgood _ Hg) as (_ & Hsub & _).
      eapply elem_of_sublist; eassumption. }
  split; [exact Hcount |].
  intros Hshort.
  destruct (MatchmakingService.findMatches now gameMode players) as [| g gs];
    [reflexivity |].
  cbn in Hcount. lia.
Qed.

Lemma filter_other_id_length (i : string) (cs : list QueueEntry) :
  NoDup (ids_of cs) ->
  (length cs <= S (length (filter (fun x => entry_id x <> i) cs)))%nat.
Proof.
  induction cs as [| c cs IH]; intros Hnd; [cbn; lia |].
  unfold ids_of in Hnd. rewrite fmap_cons in Hnd.
  apply NoDup_cons in Hnd as [Hc Hnd].
  rewrite filter_cons. destruct (decide (entry_id c <> i)) as [Hne | Heq].
  - cbn. specialize (IH Hnd). lia.
  - assert (Hi : entry_id c = i) by (destruct (decide (entry_id c = i)); tauto).
    subst i. cbn.
    assert (Hall : filter (fun x => entry_id x <> entry_id c) cs = cs).
    { clear IH Heq Hnd. induction cs as [| d cs IH]; [reflexivity |].
      rewrite filter_cons. rewrite fmap_cons, not_elem_of_cons in Hc.
      destruct Hc as [Hd Hc].
      destruct (decide (entry_id d <> entry_id c)) as [_ | Hn];
        [| exfalso; apply Hn; intros E; apply Hd; symmetry; exact E].
      f_equal. apply IH. exact Hc. }
    rewrite Hall. lia.
Qed.

(** The inner loop fills the group when enough compatible entries with fresh
    ids are among the candidates. *)
Lemma fill_match_fills (now : Z) (gameMode : string) (n : nat) (seed : QueueEntry)
    (candidates : list QueueEntry) :
  MatchmakingService.getPlayersPerMatch gameMode = MatchmakingService.Players n ->
  forall (potentialMatch cs : list QueueEntry) (usedPlayers : gset string),
  (forall q, q ∈ cs ->
     q ∈ candidates /\ (entry_id q ∉ usedPlayers)
     /\ MatchmakingService.arePlayersCompatible now seed q gameMode = true) ->
  NoDup (ids_of cs) ->
  (n <= length potentialMatch + length cs)%nat ->
  (n <= length (MatchmakingService.fill_match now gameMode seed candidates
                  potentialMatch usedPlayers).1)%nat.
Proof.
  intros Hppm.
  induction candidates as [| q rest IH]; intros pm cs used Hcs Hnd Hlen.
  - destruct cs as [| c cs].
    + cbn in *. lia.
    + destruct (Hcs c) as [Hin _]; [left |]. inversion Hin.
  - cbn [MatchmakingService.fill_match]. rewrite Hppm.
    cbn [MatchmakingService.length_below].
    case_bool_decide as Hroom; [| cbn; lia].
    assert (Hskip : (entry_id q ∈ used
                     \/ MatchmakingService.arePlayersCompatible now seed q gameMode
                        = false) ->
                    forall x, x ∈ cs ->
                      x ∈ rest /\ (entry_id x ∉ used)
                      /\ MatchmakingService.arePlayersCompatible now seed x gameMode
                         = true).
    { intros Hq x Hx. destruct (Hcs x Hx) as (Hin & Hfresh & Hc).
      split; [| auto]. apply elem_of_cons in Hin as [-> | Hin]; [| exact Hin].
      destruct Hq as [Hq | Hq]; [contradiction | congruence]. }
    case_bool_decide as Hused.
    + apply (IH pm cs used); auto.
    + destruct (MatchmakingService.arePlayersCompatible now seed q gameMode)
        eqn:Hcompat.
      * apply (IH (pm ++ [q]) (filter (fun x => entry_id x <> entry_id q) cs)).
        -- intros x Hx. apply list_elem_of_filter in Hx as [Hne Hx].
           destruct (Hcs x Hx) as (Hin & Hfresh & Hc).
           split; [| split; [set_solver | exact Hc]].
           apply elem_of_cons in Hin as [-> | Hin]; [congruence | exact Hin].
        -- unfold ids_of. eapply sublist_NoDup; [exact Hnd |].
           apply fmap_sublist, sublist_filter.
        -- pose proof (filter_other_id_length (entry_id q) cs Hnd).
           rewrite length_app. cbn. lia.
      * apply (IH pm cs used); auto.
Qed.

(** X4. The longest-waiting entry is served first: for a mode whose number
    of players per match is a number, when the queue, in order of joining,
    starts with [p] and holds enough other entries, with distinct ids
    different from [p]'s, that are compatible with [p] to fill a match, the
    first group of [findMatches] starts with [p]. *)
Theorem findMatches_serves_longest_waiting (now : Z) (gameMode : string) (n : nat)
    (players rest cs : list QueueEntry) (p : QueueEntry) :
  MatchmakingService.getPlayersPerMatch gameMode = MatchmakingService.Players n ->
  MatchmakingService.sort_by_joinedAt players = p :: rest ->
  (forall q, q ∈ cs ->
     q ∈ rest /\ entry_id q <> entry_id p
     /\ MatchmakingService.arePlayersCompatible now p q gameMode = true) ->
  NoDup (ids_of cs) ->
  (n <= S (length cs))%nat ->
  exists followers others,
    MatchmakingService.findMatches now gameMode players = (p :: followers) :: others
    /\ length (p :: followers) = n.
Proof.
  intros Hppm Hsort Hcs Hnd Hlen.
  unfold MatchmakingService.findMatches. rewrite Hsort.
  cbn [MatchmakingService.scan_matches].
  rewrite bool_decide_eq_false_2 by set_solver.
  pose proof (fill_match_fills now gameMode n p rest Hppm [p] cs
                ({[entry_id p]} ∪ ∅)) as Hfill.
  destruct (fill_match_spec now gameMode n p rest Hppm [p] ({[entry_id p]} ∪ ∅))
    as (added & Hrun & _ & _ & _ & _ & Hle).
  rewrite Hrun in *. cbn [fst app] in *.
  pose proof (getPlayersPerMatch_pos gameMode n Hppm) as Hpos.
  assert (Hfull : length (p :: added) = n).
  { apply Nat.le_antisymm.
    - apply Hle. cbn. lia.
    - apply Hfill; [| exact Hnd | cbn; lia].
      intros q Hq. destruct (Hcs q Hq) as (Hin & Hne & Hc).
      split; [exact Hin |]. split; [set_solver | exact Hc]. }
  rewrite Hppm. cbn [MatchmakingService.length_is].
  rewrite bool_decide_eq_true_2 by exact Hfull.
  destruct (scan_matches_spec now gameMode n rest Hppm
              (list_to_set (ids_of added) ∪ ({[entry_id p]} ∪ ∅)) [p :: added])
    as (new & Hscan & _).
  rewrite Hscan. cbn [app]. eauto.
Qed.

Lemma findMatches_serves_longest_waiting_witness :
  exists followers others,
    MatchmakingService.findMatches 20 "chess" [bob_entry; alice_entry]
    = (alice_entry :: followers) :: others
    /\ length (alice_entry :: followers) = 2%nat.
Proof.
  apply (findMatches_serves_longest_waiting 20 "chess" 2 [bob_entry; alice_entry]
           [bob_entry] [bob_entry] alice_entry).
  - vm_compute. reflexivity.
  - vm_compute. reflexivity.
  - intros q Hq. apply list_elem_of_singleton in Hq as ->.
    split; [left |]. split; [discriminate | vm_compute; reflexivity].
  - repeat constructor. set_solver.
  - vm_compute. lia.
Defined.

Lemma findMatches_groups_full_and_compatible_witness :
  MatchmakingService.getPlayersPerMatch "chess"
  = MatchmakingService.Players (length [alice_entry; bob_entry])
  /\ (forall q, q ∈ [alice_entry; bob_entry] -> q ∈ [bob_entry; alice_entry])
  /\ exists seed followers,
       [alice_entry; bob_entry] = seed :: followers
       /\ Forall (fun q =>
            entry_joinedAt seed <= entry_joinedAt q
            /\ MatchmakingService.arePlayersCompatible 20 seed q "chess" = true)
            followers.
Proof.
  apply (findMatches_groups_full_and_compatible 20 "chess" [bob_entry; alice_entry]
           [alice_entry; bob_entry]).
  vm_compute. left.
Defined.

(** ** MatchmakingService.removeFromQueue *)

Lemma zRange_queue_ok (w : World) (gameMode : string) :
  fault_free w ->
  RedisClient.zRange_queue gameMode w = (w, inr (queue_of w gameMode)).
Proof.
  intros Hff. unfold RedisClient.zRange_queue. rewrite command_ok by exact Hff.
  reflexivity.
Qed.

Lemma zRem_queue_ok (w : World) (gameMode t : string) :
  fault_free w ->
  exists w',
    RedisClient.zRem_queue gameMode t w = (w', inr tt)
    /\ fault_free w'
    /\ queue_of w' gameMode = filter (fun q => entry_text q <> t) (queue_of w gameMode).
Proof.
  intros Hff. destruct (zRem_queue_effect gameMode t w) as (_ & _ & Hok & _).
  destruct (Hok Hff) as (Hr & Hff' & Hq).
  destruct (RedisClient.zRem_queue gameMode t w) as [w' r] eqn:Hrun.
  cbn in *. subst r. exists w'. auto.
Qed.

(** The queue [removeFromQueue] leaves when the store answers. *)
Lemma removeFromQueue_queue (w : World) (playerId gameMode : string) (now : Z) :
  fault_free w ->
  queue_of (exec (MatchmakingService.removeFromQueue playerId gameMode now) w) gameMode
  = match List.find (fun e => bool_decide (entry_id e = playerId))
            (queue_of w gameMode) with
    | Some e => filter (fun q => entry_text q <> entry_text e) (queue_of w gameMode)
    | None => queue_of w gameMode
    end.
Proof.
  intros Hff. unfold exec, MatchmakingService.removeFromQueue.
  rewrite bind_run, zRange_queue_ok by exact Hff. cbv beta iota.
  rewrite bind_run.
  destruct (List.find _ (queue_of w gameMode)) as [e |].
  - destruct (zRem_queue_ok w gameMode (entry_text e) Hff) as (w' & -> & _ & Hq).
    rewrite publish_run. destruct (rabbitmq_channel w'); exact Hq.
  - cbn [mret M_ret]. rewrite publish_run.
    destruct (rabbitmq_channel w); reflexivity.
Qed.

Lemma NoDup_fmap_text (l : list QueueEntry) (x y : QueueEntry) :
  NoDup (entry_text <$> l) -> x ∈ l -> y ∈ l -> entry_text x = entry_text y -> x = y.
Proof.
  induction l as [| z l IH]; intros Hnd Hx Hy Heq; [inversion Hx |].
  rewrite fmap_cons in Hnd. apply NoDup_cons in Hnd as [Hz Hnd].
  apply elem_of_cons in Hx as [-> | Hx]; apply elem_of_cons in Hy as [-> | Hy].
  - reflexivity.
  - exfalso. apply Hz. rewrite Heq. apply list_elem_of_fmap. eauto.
  - exfalso. apply Hz. rewrite <- Heq. apply list_elem_of_fmap. eauto.
  - auto.
Qed.

Lemma filter_length_NoDup_text (e : QueueEntry) (l : list QueueEntry) :
  NoDup (entry_text <$> l) -> e ∈ l ->
  S (length (filter (fun q => entry_text q <> entry_text e) l)) = length l.
Proof.
  induction l as [| x l IH]; intros Hnd Hin; [inversion Hin |].
  rewrite fmap_cons in Hnd. apply NoDup_cons in Hnd as [Hx Hnd].
  rewrite filter_cons.
  destruct (decide (entry_text x <> entry_text e)) as [Hne | Heq].
  - apply elem_of_cons in Hin as [-> | Hin]; [congruence |].
    cbn. rewrite (IH Hnd Hin). reflexivity.
  - assert (Hxe : entry_text x = entry_text e).
    { destruct (decide (entry_text x = entry_text e)); tauto. }
    cbn. f_equal.
    assert (Hall : filter (fun q => entry_text q <> entry_text e) l = l).
    { clear IH Hin Hnd Heq. rewrite <- Hxe. clear Hxe.
      induction l as [| y l IH]; [reflexivity |].
      rewrite fmap_cons, not_elem_of_cons in Hx. destruct Hx as [Hy Hx].
      rewrite filter_cons.
      destruct (decide (entry_text y <> entry_text x)) as [_ | Hn];
        [| exfalso; apply Hn; intros E; apply Hy; symmetry; exact E].
      f_equal. apply IH. exact Hx. }
    rewrite Hall. reflexivity.
Qed.

(** X5. When the store answers, [removeFromQueue] takes exactly one entry
    out of a queue in which the player has one, and it is an entry of that
    player; every entry of another player stays, nothing is added, and a
    queue without an entry of the player is left as it is. *)
Theorem removeFromQueue_removes_one_entry (w : World) (playerId gameMode : string)
    (now : Z) :
  fault_free w ->
  NoDup (entry_text <$> queue_of w gameMode) ->
  let before := queue_of w gameMode in
  let after :=
    queue_of (exec (MatchmakingService.removeFromQueue playerId gameMode now) w)
      gameMode in
  after `sublist_of` before
  /\ (forall q, q ∈ before -> entry_id q <> playerId -> q ∈ after)
  /\ ((exists e, e ∈ before /\ entry_id e = playerId) ->
      S (length after) = length before)
  /\ ((forall e, e ∈ before -> entry_id e <> playerId) -> after = before).
Proof.
  intros Hff Hnd before after. subst before after.
  rewrite removeFromQueue_queue by exact Hff.
  destruct (List.find _ (queue_of w gameMode)) as [e |] eqn:Hfind.
  - apply find_some in Hfind as [Hin Hid]. apply bool_decide_eq_true in Hid.
    apply list_elem_of_In in Hin.
    split; [apply sublist_filter |]. split.
    { intros q Hq Hne. apply list_elem_of_filter. split; [| exact Hq].
      intros Heq. apply Hne. rewrite <- Hid.
      assert (q = e); [| congruence].
      apply (NoDup_fmap_text _ _ _ Hnd Hq Hin Heq). }
    split.
    { intros _. apply filter_length_NoDup_text; assumption. }
    intros Hnone. exfalso. exact (Hnone e Hin Hid).
  - split; [reflexivity |]. split; [auto |]. split; [| reflexivity].
    intros (e & Hin & Hid). apply list_elem_of_In in Hin.
    pose proof (find_none _ _ Hfind e Hin) as Hno. cbn in Hno.
    apply bool_decide_eq_false in Hno. contradiction.
Qed.

Lemma removeFromQueue_removes_one_entry_witness :
  let before := queue_of both_queued "chess" in
  let after :=
    queue_of (exec (MatchmakingService.removeFromQueue "uuid-0" "chess" 20) both_queued)
      "chess" in
  after `sublist_of` before
  /\ (forall q, q ∈ before -> entry_id q <> "uuid-0"%string -> q ∈ after)
  /\ ((exists e, e ∈ before /\ entry_id e = "uuid-0"%string) ->
      S (length after) = length before)
  /\ ((forall e, e ∈ before -> entry_id e <> "uuid-0"%string) -> after = before).
Proof.
  apply (removeFromQueue_removes_one_entry both_queued "uuid-0" "chess" 20).
  - vm_compute. reflexivity.
  - vm_compute. repeat constructor; set_solver.
Defined.

(** X6. One [removeFromQueue] does not take a player who is queued twice out
    of the queue: when two entries of different text carry the player's id,
    an entry of that player is still queued afterwards. *)
Theorem removeFromQueue_leaves_second_entry (w : World) (playerId gameMode : string)
    (now : Z) (e1 e2 : QueueEntry) :
  fault_free w ->
  e1 ∈ queue_of w gameMode -> e2 ∈ queue_of w gameMode ->
  entry_id e1 = playerId -> entry_id e2 = playerId ->
  entry_text e1 <> entry_text e2 ->
  exists e,
    e ∈ queue_of (exec (MatchmakingService.removeFromQueue playerId gameMode now) w)
          gameMode
    /\ entry_id e = playerId.
Proof.
  intros Hff H1 H2 Hid1 Hid2 Hne.
  rewrite removeFromQueue_queue by exact Hff.
  destruct (List.find _ (queue_of w gameMode)) as [e |]; [| eauto].
  destruct (decide (entry_text e1 = entry_text e)) as [Heq | Hneq].
  - exists e2. split; [| exact Hid2].
    apply list_elem_of_filter. split; [congruence | exact H2].
  - exists e1. split; [| exact Hid1].
    apply list_elem_of_filter. split; assumption.
Qed.

Lemma removeFromQueue_leaves_second_entry_witness :
  exists e,
    e ∈ queue_of (exec (MatchmakingService.removeFromQueue "uuid-0" "chess" 20)
                    alice_queued_twice) "chess"
    /\ entry_id e = "uuid-0"%string.
Proof.
  apply (removeFromQueue_leaves_second_entry alice_queued_twice "uuid-0" "chess" 20
           alice_entry alice_entry_again).
  - vm_compute. reflexivity.
  - vm_compute. left.
  - vm_compute. right. left.
  - reflexivity.
  - reflexivity.
  - vm_compute. discriminate.
Defined.

Lemma find_unique {A} (P : A -> bool) (l : list A) (e : A) :
  e ∈ l -> P e = true -> (forall x, x ∈ l -> P x = true -> x = e) ->
  List.find P l = Some e.
Proof.
  intros Hin HP Huniq.
  destruct (List.find P l) as [x |] eqn:Hfind.
  - apply find_some in Hfind as [Hx HPx]. apply list_elem_of_In in Hx.
    f_equal. auto.
  - apply list_elem_of_In in Hin. pose proof (find_none _ _ Hfind e Hin).
    congruence.
Qed.

(** X7. Joining and then leaving restores the queue: when the store answers
    and the queue of the mode holds no entry of the player (nor one with the
    text of the new entry), the queue after [addToQueue] followed by
    [removeFromQueue] is the queue before. *)
Theorem addToQueue_then_removeFromQueue (w : World)
    (playerId gameMode socketId : string) (preferences : option Preferences)
    (now now' : Z) (player : Player) :
  fault_free w -> redis_players w !! playerId = Some player ->
  (forall q, q ∈ queue_of w gameMode ->
     entry_id q <> playerId
     /\ forall e,
          MatchmakingService.playerData_of playerId player gameMode preferences
            socketId now = Some e ->
          entry_text q <> entry_text e) ->
  queue_of
    (exec (MatchmakingService.removeFromQueue playerId gameMode now')
       (exec (MatchmakingService.addToQueue playerId gameMode preferences socketId now)
          w)) gameMode
  = queue_of w gameMode.
Proof.
  intros Hff Hplayer Hfresh.
  destruct (MatchmakingService.playerData_of playerId player gameMode preferences
              socketId now) as [e |] eqn:He.
  2:{ unfold exec at 2.
      rewrite (addToQueue_rejected w playerId gameMode socketId preferences now
                 player Hff Hplayer He). cbn [fst].
      rewrite removeFromQueue_queue by exact Hff.
      destruct (List.find _ (queue_of w gameMode)) as [x |] eqn:Hfind;
        [| reflexivity].
      apply find_some in Hfind as [Hin Hid]. apply bool_decide_eq_true in Hid.
      apply list_elem_of_In in Hin. destruct (Hfresh x Hin) as [Hne _].
      contradiction. }
  destruct (addToQueue_queue w playerId gameMode socketId preferences now player
              e Hff Hplayer He) as (Hq & Hff' & _).
  set (w' := exec (MatchmakingService.addToQueue playerId gameMode preferences
                     socketId now) w) in *.
  cbv zeta in Hq.
  assert (Hid : entry_id e = playerId).
  { unfold MatchmakingService.playerData_of in He.
    destruct (MatchmakingService.rating_or_1000 _ _); [| discriminate].
    cbn in He. injection He as <-. reflexivity. }
  assert (Hnone : Forall (fun y => entry_text y.1 <> entry_text e)
                    (default [] (redis_queues w !! gameMode))).
  { apply Forall_forall. intros [q s] Hin. cbn.
    apply (Hfresh q); [| reflexivity]. unfold queue_of. apply list_elem_of_fmap.
    exists (q, s). split; [reflexivity | exact Hin]. }
  assert (Hqueue : queue_of w' gameMode
                   = (zset_insert entry_text (e, entry_rating e)
                        (default [] (redis_queues w !! gameMode))).*1).
  { unfold queue_of. rewrite Hq. unfold zAdd. rewrite zRem_none by exact Hnone.
    reflexivity. }
  rewrite removeFromQueue_queue by exact Hff'.
  rewrite (find_unique _ _ e).
  - rewrite Hqueue, <- zRem_members.
    rewrite (zRem_insert entry_text (e, entry_rating e)) by exact Hnone.
    reflexivity.
  - rewrite Hqueue. apply list_elem_of_fmap. exists (e, entry_rating e).
    split; [reflexivity |]. rewrite zset_insert_perm. left.
  - apply bool_decide_eq_true. exact Hid.
  - intros x Hx Hidx. apply bool_decide_eq_true in Hidx.
    rewrite Hqueue in Hx. apply list_elem_of_fmap in Hx as ([x' s] & -> & Hx).
    rewrite zset_insert_perm in Hx. apply elem_of_cons in Hx as [Hx | Hx].
    + inversion Hx. reflexivity.
    + exfalso. destruct (Hfresh x') as [Hne _]; [| exact (Hne Hidx)].
      unfold queue_of. apply list_elem_of_fmap. exists (x', s).
      split; [reflexivity | exact Hx].
Qed.

Lemma addToQueue_then_removeFromQueue_witness :
  queue_of
    (exec (MatchmakingService.removeFromQueue "uuid-0" "fps" 30)
       (exec (MatchmakingService.addToQueue "uuid-0" "fps" None "socket-a" 20)
          both_queued)) "fps"
  = queue_of both_queued "fps".
Proof.
  apply (addToQueue_then_removeFromQueue both_queued "uuid-0" "fps" "socket-a" None
           20 30 alice).
  - vm_compute. reflexivity.
  - vm_compute. reflexivity.
  - intros q Hq. vm_compute in Hq. inversion Hq.
Defined.

(** ** What the operations leave alone *)

Section Frames.
Context (R : relation World) `{!Frame R}.

Lemma keeps_ret {A} (a : A) : keeps R (mret a).
Proof. intros w. apply frame_refl. Qed.

Lemma keeps_throw {A} (e : error) : keeps R (@throw A e).
Proof. intros w. apply frame_refl. Qed.

Lemma keeps_gets {A} (f : World -> A) : keeps R (gets f).
Proof. intros w. apply frame_refl. Qed.

Lemma keeps_bind {A B} (m : M A) (k : A -> M B) :
  keeps R m -> (forall a, keeps R (k a)) -> keeps R (m ≫= k).
Proof.
  intros Hm Hk w. rewrite bind_run. specialize (Hm w).
  destruct (m w) as [w1 [e | a]]; [exact Hm |].
  eapply frame_trans; [exact Hm | apply Hk].
Qed.

Lemma keeps_command {A} (run : M A) : keeps R run -> keeps R (RedisClient.command run).
Proof.
  intros Hrun w. unfold RedisClient.command.
  destruct (faults w) as [| [] rest].
  - apply Hrun.
  - apply frame_faults.
  - eapply frame_trans; [apply frame_faults | apply Hrun].
Qed.

Lemma keeps_for_each {A} (body : A -> M unit) (xs : list A) :
  (forall x, keeps R (body x)) -> keeps R (for_each body xs).
Proof.
  intros Hbody. induction xs as [| x xs IH]; cbn [for_each].
  - apply keeps_ret.
  - apply keeps_bind; [apply Hbody | intros _; exact IH].
Qed.

Lemma keeps_try_catch (body : M unit) : keeps R body -> keeps R (try_catch body).
Proof. intros Hbody w. apply Hbody. Qed.

Lemma keeps_modify (f : World -> World) : (forall w, R w (f w)) -> keeps R (modify f).
Proof. intros Hf w. apply Hf. Qed.

End Frames.

#[local] Instance players_untouched_frame : Frame players_untouched.
Proof.
  split.
  - intros w. split; reflexivity.
  - intros w1 w2 w3 [H1 H2] [H3 H4]. split; congruence.
  - intros w f. split; reflexivity.
Qed.

#[local] Instance other_queues_untouched_frame (gameMode : string) :
  Frame (other_queues_untouched gameMode).
Proof.
  split.
  - intros w m _. reflexivity.
  - intros w1 w2 w3 H1 H2 m Hm. rewrite (H2 m Hm). exact (H1 m Hm).
  - intros w f m _. reflexivity.
Qed.

#[local] Instance store_untouched_frame : Frame store_untouched.
Proof.
  split.
  - intros w. repeat split.
  - intros w1 w2 w3 (? & ? & ? & ?) (? & ? & ? & ?). repeat split; congruence.
  - intros w f. repeat split.
Qed.

#[local] Instance only_queues_touched_frame : Frame only_queues_touched.
Proof.
  split.
  - intros w. repeat split.
  - intros w1 w2 w3 (? & ? & ? & ? & ? & ? & ? & ?) (? & ? & ? & ? & ? & ? & ? & ?).
    repeat split; congruence.
  - intros w f. repeat split.
Qed.

#[local] Instance matchmaking_frame_frame (gameMode : string) :
  Frame (matchmaking_frame gameMode).
Proof.
  split.
  - intros w. split; apply frame_refl.
  - intros w1 w2 w3 [H1 H2] [H3 H4].
    split; eapply frame_trans; eassumption.
  - intros w f. split; apply frame_faults.
Qed.

(** Splits a frame goal into the operations of a computation. *)
Ltac frame_step :=
  lazymatch goal with
  | |- keeps _ (mret _) => apply keeps_ret; exact _
  | |- keeps _ (throw _) => apply keeps_throw; exact _
  | |- keeps _ (gets _) => apply keeps_gets; exact _
  | |- keeps _ (RedisClient.command _) => apply keeps_command; [exact _ |]
  | |- keeps _ (try_catch _) => apply keeps_try_catch
  | |- keeps _ (_ ≫= _) => apply keeps_bind; [exact _ | | intros ?]
  | |- keeps _ (for_each _ _) => apply keeps_for_each; [exact _ | intros ?]
  | |- keeps _ (modify _) => apply keeps_modify; intros ?
  | |- keeps _ (match ?x with _ => _ end) => destruct x
  end.

Ltac frame_steps := repeat frame_step.

(** ** MatchmakingService.handlePlayerDisconnect *)

Lemma handlePlayerDisconnect_frame (socketId : string) :
  keeps only_queues_touched (MatchmakingService.handlePlayerDisconnect socketId).
Proof.
  unfold MatchmakingService.handlePlayerDisconnect, RedisClient.zRange_queue,
    RedisClient.zRem_queue.
  frame_steps. repeat split.
Qed.

Lemma zRem_queue_run (w : World) (gameMode t : string) :
  fault_free w ->
  exists w',
    RedisClient.zRem_queue gameMode t w = (w', inr tt)
    /\ fault_free w'
    /\ queue_of w' gameMode = filter (fun q => entry_text q <> t) (queue_of w gameMode)
    /\ forall m, m <> gameMode -> queue_of w' m = queue_of w m.
Proof.
  intros Hff. unfold RedisClient.zRem_queue. rewrite command_ok by exact Hff.
  eexists. split; [reflexivity |]. split; [exact Hff |]. split.
  - unfold queue_of. cbn. rewrite lookup_insert_eq. cbn. apply zRem_members.
  - intros m Hm. unfold queue_of. cbn. rewrite lookup_insert_ne by congruence.
    reflexivity.
Qed.

Lemma filter_all {A} (P : A -> Prop) `{!forall x, Decision (P x)} (l : list A) :
  (forall x, P x) -> filter P l = l.
Proof.
  intros HP. induction l as [| x l IH]; [reflexivity |].
  rewrite filter_cons_True by apply HP. f_equal. exact IH.
Qed.

(** The inner loop of [handlePlayerDisconnect] over a snapshot of the
    members. *)
Lemma disconnect_members (socketId gameMode : string) (members : list QueueEntry) :
  forall w, fault_free w ->
  let r := for_each (fun e =>
             if bool_decide (entry_socketId e = socketId)
             then RedisClient.zRem_queue gameMode (entry_text e)
             else mret tt) members w in
  r.2 = inr tt /\ fault_free r.1
  /\ queue_of r.1 gameMode
     = filter (fun q => entry_text q ∉ texts_of_socket socketId members)
         (queue_of w gameMode)
  /\ forall m, m <> gameMode -> queue_of r.1 m = queue_of w m.
Proof.
  unfold texts_of_socket.
  induction members as [| e rest IH]; intros w Hff; cbn [for_each].
  - cbn. split; [reflexivity |]. split; [exact Hff |]. split; [| reflexivity].
    symmetry. apply filter_all. intros q Hq. inversion Hq.
  - rewrite bind_run, filter_cons. case_bool_decide as Hs.
    + destruct (zRem_queue_run w gameMode (entry_text e) Hff)
        as (w1 & -> & Hff1 & Hq1 & Hother1).
      destruct (IH w1 Hff1) as (Hr & Hff2 & Hq2 & Hother2).
      split; [exact Hr |]. split; [exact Hff2 |]. split.
      * rewrite Hq2, Hq1, list_filter_filter.
        rewrite decide_True by exact Hs. rewrite fmap_cons.
        apply list_filter_iff. intros q. rewrite not_elem_of_cons. tauto.
      * intros m Hm. rewrite (Hother2 m Hm). apply Hother1. exact Hm.
    + rewrite decide_False by exact Hs. apply (IH w Hff).
Qed.

(** The loop of [handlePlayerDisconnect] over the modes. *)
Lemma disconnect_modes (socketId : string) (modes : list string) :
  NoDup modes ->
  forall w, fault_free w ->
  let r := for_each (fun gameMode =>
             members ← RedisClient.zRange_queue gameMode;
             for_each (fun e =>
               if bool_decide (entry_socketId e = socketId)
               then RedisClient.zRem_queue gameMode (entry_text e)
               else mret tt) members) modes w in
  r.2 = inr tt /\ fault_free r.1
  /\ (forall m, m ∈ modes ->
        queue_of r.1 m
        = filter (fun q => entry_text q ∉ texts_of_socket socketId (queue_of w m))
            (queue_of w m))
  /\ (forall m, m ∉ modes -> queue_of r.1 m = queue_of w m).
Proof.
  induction modes as [| m0 modes IH]; intros Hnd w Hff; cbn [for_each].
  - cbn. split; [reflexivity |]. split; [exact Hff |].
    split; [intros m Hm; inversion Hm | reflexivity].
  - apply NoDup_cons in Hnd as [Hm0 Hnd].
    rewrite bind_run, bind_run, zRange_queue_ok by exact Hff. cbv beta iota.
    destruct (disconnect_members socketId m0 (queue_of w m0) w Hff)
      as (Hr1 & Hff1 & Hq1 & Hother1).
    destruct (for_each _ (queue_of w m0) w) as [w1 r1]. cbn in Hr1, Hff1, Hq1, Hother1.
    subst r1.
    destruct (IH Hnd w1 Hff1) as (Hr & Hff2 & Hin & Hout).
    split; [exact Hr |]. split; [exact Hff2 |]. split.
    + intros m Hm. apply elem_of_cons in Hm as [-> | Hm].
      * rewrite (Hout m0 Hm0). exact Hq1.
      * rewrite (Hin m Hm). rewrite (Hother1 m) by (intros ->; contradiction).
        reflexivity.
    + intros m Hm. apply not_elem_of_cons in Hm as [Hne Hm].
      rewrite (Hout m Hm). apply Hother1. exact Hne.
Qed.

(** X8. When the store answers, [handlePlayerDisconnect] leaves no entry of
    the socket in the queues of the four modes; a queue only loses entries,
    and, members of a queue having distinct texts, it loses no entry of
    another socket.  No record is written, and nothing is emitted, published
    or scheduled: a disconnect is not announced as a leave. *)
Theorem handlePlayerDisconnect_clears_socket (w : World) (socketId : string) :
  fault_free w ->
  let w' := exec (MatchmakingService.handlePlayerDisconnect socketId) w in
  outcome (MatchmakingService.handlePlayerDisconnect socketId) w = inr tt
  /\ (forall gameMode q, gameMode ∈ MatchmakingService.gameModes ->
        q ∈ queue_of w' gameMode -> entry_socketId q <> socketId)
  /\ (forall gameMode, queue_of w' gameMode `sublist_of` queue_of w gameMode)
  /\ (forall gameMode q, NoDup (entry_text <$> queue_of w gameMode) ->
        q ∈ queue_of w gameMode -> entry_socketId q <> socketId ->
        q ∈ queue_of w' gameMode)
  /\ only_queues_touched w w'.
Proof.
  intros Hff w'.
  assert (Hnd : NoDup MatchmakingService.gameModes).
  { unfold MatchmakingService.gameModes. repeat constructor; set_solver. }
  destruct (disconnect_modes socketId MatchmakingService.gameModes Hnd w Hff)
    as (Hr & _ & Hin & Hout).
  fold (MatchmakingService.handlePlayerDisconnect socketId) in Hr, Hin, Hout.
  fold (exec (MatchmakingService.handlePlayerDisconnect socketId) w) in Hin, Hout.
  fold w' in Hin, Hout.
  split; [exact Hr |]. split.
  { intros gameMode q Hmode Hq Hs. rewrite (Hin _ Hmode) in Hq.
    apply list_elem_of_filter in Hq as [Hno Hq]. apply Hno.
    unfold texts_of_socket. apply list_elem_of_fmap. exists q.
    split; [reflexivity |]. apply list_elem_of_filter. split; assumption. }
  split.
  { intros gameMode.
    destruct (decide (gameMode ∈ MatchmakingService.gameModes)) as [Hmode | Hmode].
    - rewrite (Hin _ Hmode). apply sublist_filter.
    - rewrite (Hout _ Hmode). reflexivity. }
  split.
  { intros gameMode q Htexts Hq Hs.
    destruct (decide (gameMode ∈ MatchmakingService.gameModes)) as [Hmode | Hmode].
    - rewrite (Hin _ Hmode). apply list_elem_of_filter. split; [| exact Hq].
      unfold texts_of_socket. intros Ht.
      apply list_elem_of_fmap in Ht as (e & Heq & He).
      apply list_elem_of_filter in He as [Hes He].
      apply Hs. rewrite (NoDup_fmap_text _ q e Htexts Hq He Heq). exact Hes.
    - rewrite (Hout _ Hmode). exact Hq. }
  apply handlePlayerDisconnect_frame.
Qed.

Lemma handlePlayerDisconnect_clears_socket_witness :
  let w' := exec (MatchmakingService.handlePlayerDisconnect "socket-a") both_queued in
  outcome (MatchmakingService.handlePlayerDisconnect "socket-a") both_queued = inr tt
  /\ (forall gameMode q, gameMode ∈ MatchmakingService.gameModes ->
        q ∈ queue_of w' gameMode -> entry_socketId q <> "socket-a"%string)
  /\ (forall gameMode, queue_of w' gameMode `sublist_of` queue_of both_queued gameMode)
  /\ (forall gameMode q, NoDup (entry_text <$> queue_of both_queued gameMode) ->
        q ∈ queue_of both_queued gameMode -> entry_socketId q <> "socket-a"%string ->
        q ∈ queue_of w' gameMode)
  /\ only_queues_touched both_queued w'.
Proof.
  apply (handlePlayerDisconnect_clears_socket both_queued "socket-a").
  vm_compute. reflexivity.
Defined.

(** ** MatchmakingService.processMatchmaking, createMatch and
    GameService.createGame *)

Lemma keeps_uuidv4 (R : relation World) :
  (forall w, R w (set_next_uuid S w)) -> keeps R uuidv4.
Proof. intros HR w. apply HR. Qed.

Lemma createMatch_frame (gameMode : string) (now : Z) (group : list QueueEntry) :
  keeps (matchmaking_frame gameMode)
    (MatchmakingService.createMatch group gameMode now).
Proof.
  unfold MatchmakingService.createMatch, GameService.createGame,
    RedisClient.setEx_game, emit, publish, setTimeout.
  apply keeps_bind; [exact _ | apply keeps_uuidv4 | intros gameId].
  - intros w. split; [split; reflexivity | intros m _; reflexivity].
  - frame_steps; (split; [split; reflexivity | intros m _; reflexivity]).
Qed.

Lemma processMatchmaking_frame (gameMode : string) (now : Z) :
  keeps (matchmaking_frame gameMode)
    (MatchmakingService.processMatchmaking gameMode now).
Proof.
  unfold MatchmakingService.processMatchmaking,
    MatchmakingService.processMatchmaking_body, RedisClient.zRange_queue.
  frame_steps. unfold MatchmakingService.commit_group.
  apply keeps_bind; [exact _ | apply createMatch_frame | intros _].
  unfold RedisClient.zRem_queue. frame_steps.
  split; [split; reflexivity |].
  intros m Hm. cbn. rewrite lookup_insert_ne by congruence. reflexivity.
Qed.

(** X9. A matchmaking tick of one mode, whatever the store does, writes no
    player record and no leaderboard, and leaves the queue of every other
    mode as it is. *)
Theorem processMatchmaking_touches_only_its_queue (w : World) (gameMode : string)
    (now : Z) :
  let w' := exec (MatchmakingService.processMatchmaking gameMode now) w in
  redis_players w' = redis_players w
  /\ redis_leaderboards w' = redis_leaderboards w
  /\ forall m, m <> gameMode -> queue_of w' m = queue_of w m.
Proof.
  destruct (processMatchmaking_frame gameMode now w) as [[Hp Hl] Hq].
  split; [exact Hp |]. split; [exact Hl |].
  intros m Hm. unfold queue_of, exec. rewrite (Hq m Hm). reflexivity.
Qed.

(** One match committed while the store answers, for a mode that has a
    configuration: the game is stored and announced; with the channel of the
    bus set its players are then removed and the turn returns, without it the
    turn throws. *)
Lemma commit_group_run (gameMode : string) (now : Z) (group : list QueueEntry)
    (config : GameConfig) (w : World) :
  fault_free w -> GameService.getGameConfig gameMode = inr config ->
  let gameId := uuid_of (next_uuid w) in
  let game := mkGame gameId (participant_of <$> group) gameMode starting now
                config None None None in
  exists w1,
    MatchmakingService.commit_group gameMode now group w
    = (w1, if rabbitmq_channel w then inr tt else inl ChannelNotInitialized)
    /\ fault_free w1
    /\ rabbitmq_channel w1 = rabbitmq_channel w
    /\ next_uuid w1 = S (next_uuid w)
    /\ emitted w1 = emitted w ++ [match_found (mkMatchData gameId group gameMode now)]
    /\ redis_games w1 = <[gameId := game]> (redis_games w)
    /\ activeGames w1 = <[gameId := game]> (activeGames w)
    /\ timers w1 = timers w ++ [StartGameAt (now + 5000) gameId].
Proof.
  intros Hff Hconfig gameId game. unfold MatchmakingService.commit_group.
  rewrite bind_run, createMatch_run, Hconfig. cbv zeta. fold gameId. fold game.
  unfold fault_free in Hff. rewrite Hff.
  destruct (rabbitmq_channel w) eqn:Hch.
  2:{ eexists. split; [reflexivity |]. unfold fault_free. cbn. rewrite Hch.
      repeat split. }
  cbv beta iota.
  match goal with
  | |- context [for_each _ group ?w0'] => set (w0 := w0')
  end.
  assert (Hff0 : fault_free w0) by reflexivity.
  destruct (remove_group_effect gameMode group group (fun e He => He) w0)
    as (_ & Hch1 & Hok).
  destruct (Hok Hff0) as (Hr & Hff1 & _).
  pose proof (keeps_for_each only_queues_touched
                (fun player => RedisClient.zRem_queue gameMode (entry_text player))
                group) as Hframe.
  destruct (Hframe ltac:(intros x; unfold RedisClient.zRem_queue; frame_steps;
                         repeat split) w0)
    as (_ & Hg & _ & Ha & He & _ & Ht & Hu).
  destruct (for_each _ group w0) as [w1 r].
  cbn [fst snd] in Hr, Hff1, Hg, Ha, He, Ht, Hu, Hch1.
  subst r. exists w1. split; [reflexivity |]. split; [exact Hff1 |].
  rewrite Hu, He, Hg, Ha, Ht, Hch1. subst w0. cbn. rewrite Hch. repeat split.
Qed.

(** The matches of one tick committed while the store answers: the [i]-th
    event announces the game stored under the [i]-th fresh id. *)
Lemma commit_groups_run (gameMode : string) (now : Z) (config : GameConfig)
    (matches : list (list QueueEntry)) :
  GameService.getGameConfig gameMode = inr config ->
  forall w, fault_free w ->
  exists w' r new newTimers,
    for_each (MatchmakingService.commit_group gameMode now) matches w = (w', r)
    /\ (next_uuid w <= next_uuid w')%nat
    /\ (forall n, (n < next_uuid w)%nat ->
          redis_games w' !! uuid_of n = redis_games w !! uuid_of n
          /\ activeGames w' !! uuid_of n = activeGames w !! uuid_of n)
    /\ emitted w' = emitted w ++ new
    /\ timers w' = timers w ++ newTimers
    /\ forall i e, new !! i = Some e ->
         exists m game,
           e = match_found m
           /\ match_gameId m = uuid_of (next_uuid w + i)
           /\ redis_games w' !! match_gameId m = Some game
           /\ activeGames w' !! match_gameId m = Some game
           /\ game_of_match m game
           /\ StartGameAt (now + 5000) (match_gameId m) ∈ timers w'.
Proof.
  intros Hconfig.
  induction matches as [| g rest IH]; intros w Hff; cbn [for_each].
  - exists w, (inr tt), [], []. rewrite !app_nil_r.
    split; [reflexivity |]. split; [lia |].
    split; [auto |]. split; [reflexivity |]. split; [reflexivity |].
    intros i e Hi. rewrite lookup_nil in Hi. discriminate.
  - rewrite bind_run.
    destruct (commit_group_run gameMode now g config w Hff Hconfig)
      as (w1 & -> & Hff1 & Hch1 & Hu1 & He1 & Hg1 & Ha1 & Ht1).
    destruct (rabbitmq_channel w) eqn:Hch.
    + destruct (IH w1 Hff1)
        as (w' & r & new & newTimers & Hrun & Hu & Hkeep & He & Ht & Hnew).
      exists w', r,
        (match_found (mkMatchData (uuid_of (next_uuid w)) g gameMode now) :: new),
        (StartGameAt (now + 5000) (uuid_of (next_uuid w)) :: newTimers).
      split; [exact Hrun |]. split; [lia |]. split.
      { intros n Hn. destruct (Hkeep n ltac:(lia)) as [-> ->].
        rewrite Hg1, Ha1.
        rewrite !lookup_insert_ne
          by (intros Heq; apply uuid_of_inj in Heq; lia).
        split; reflexivity. }
      split; [rewrite He, He1, <- app_assoc; reflexivity |].
      split; [rewrite Ht, Ht1, <- app_assoc; reflexivity |].
      intros [| i] e Hi.
      * cbn in Hi. inversion Hi; subst e. clear Hi.
        eexists _, _. split; [reflexivity |]. cbn [match_gameId].
        rewrite Nat.add_0_r. split; [reflexivity |].
        destruct (Hkeep (next_uuid w) ltac:(lia)) as [-> ->].
        rewrite Hg1, Ha1, !lookup_insert_eq.
        split; [reflexivity |]. split; [reflexivity |].
        split; [repeat split |].
        rewrite Ht, Ht1. apply elem_of_app. left. apply elem_of_app. right. left.
      * cbn in Hi. destruct (Hnew i e Hi) as (m & game & -> & Hid & Hrest).
        exists m, game. split; [reflexivity |].
        split; [rewrite Hid, Hu1; f_equal; lia | exact Hrest].
    + exists w1, (inl ChannelNotInitialized),
        [match_found (mkMatchData (uuid_of (next_uuid w)) g gameMode now)],
        [StartGameAt (now + 5000) (uuid_of (next_uuid w))].
      split; [reflexivity |]. split; [lia |]. split.
      { intros n Hn. rewrite Hg1, Ha1.
        rewrite !lookup_insert_ne
          by (intros Heq; apply uuid_of_inj in Heq; lia).
        split; reflexivity. }
      split; [exact He1 |]. split; [exact Ht1 |].
      intros [| i] e Hi; [| cbn in Hi; try rewrite lookup_nil in Hi; discriminate].
      cbn in Hi. inversion Hi; subst e. clear Hi.
      eexists _, _. split; [reflexivity |]. cbn [match_gameId].
      rewrite Nat.add_0_r. split; [reflexivity |].
      rewrite Hg1, Ha1, !lookup_insert_eq.
      split; [reflexivity |]. split; [reflexivity |].
      split; [repeat split |].
      rewrite Ht1. apply elem_of_app. right. left.
Qed.

(** X10. When the store answers, every event that a matchmaking tick emits
    is a [match_found] whose game is stored, under the id the event carries,
    both in the store and in memory: waiting to start, with the players of
    the match in their order, and with its start scheduled five seconds
    later.  Two events of one tick never carry the same game id. *)
Theorem processMatchmaking_announces_stored_games (w : World) (gameMode : string)
    (now : Z) :
  fault_free w ->
  let w' := exec (MatchmakingService.processMatchmaking gameMode now) w in
  exists new,
    emitted w' = emitted w ++ new
    /\ (forall e, e ∈ new ->
          exists m game,
            e = match_found m
            /\ redis_games w' !! match_gameId m = Some game
            /\ activeGames w' !! match_gameId m = Some game
            /\ game_of_match m game
            /\ StartGameAt (now + 5000) (match_gameId m) ∈ timers w')
    /\ (forall i j m1 m2,
          new !! i = Some (match_found m1) -> new !! j = Some (match_found m2) ->
          match_gameId m1 = match_gameId m2 -> i = j).
Proof.
  intros Hff w'. subst w'.
  unfold exec, MatchmakingService.processMatchmaking, try_catch.
  cbn [fst]. unfold MatchmakingService.processMatchmaking_body.
  rewrite bind_run, zRange_queue_ok by exact Hff. cbv beta iota.
  case_bool_decide as Hfew.
  - exists []. cbn. rewrite app_nil_r. split; [reflexivity |].
    split; [intros e He; inversion He |].
    intros i j m1 m2 Hi. rewrite lookup_nil in Hi. discriminate.
  - destruct (GameService.getGameConfig gameMode) as [err | config] eqn:Hconfig.
    { apply getGameConfig_throws in Hconfig as [_ Hin].
      rewrite (findMatches_inherited now gameMode _
                 (getPlayersPerMatch_inherited gameMode Hin)).
      exists []. cbn. rewrite app_nil_r. split; [reflexivity |].
      split; [intros e He; inversion He |].
      intros i j m1 m2 Hi. rewrite lookup_nil in Hi. discriminate. }
    destruct (commit_groups_run gameMode now config
                (MatchmakingService.findMatches now gameMode (queue_of w gameMode))
                Hconfig w Hff)
      as (w' & r & new & newTimers & -> & _ & _ & He & _ & Hnew).
    cbn [fst]. exists new. split; [exact He |]. split.
    + intros e Hin. apply list_elem_of_lookup in Hin as [i Hi].
      destruct (Hnew i e Hi) as (m & game & -> & _ & Hrest).
      exists m, game. split; [reflexivity | exact Hrest].
    + intros i j m1 m2 Hi Hj Hid.
      destruct (Hnew i _ Hi) as (m & _ & Hm & Hidm & _). inversion Hm; subst m.
      destruct (Hnew j _ Hj) as (m & _ & Hm' & Hidm' & _). inversion Hm'; subst m.
      rewrite Hidm, Hidm' in Hid. apply uuid_of_inj in Hid. lia.
Qed.

Lemma processMatchmaking_announces_stored_games_witness :
  let w' := exec (MatchmakingService.processMatchmaking "chess" 20) four_queued in
  exists new,
    emitted w' = emitted four_queued ++ new
    /\ (forall e, e ∈ new ->
          exists m game,
            e = match_found m
            /\ redis_games w' !! match_gameId m = Some game
            /\ activeGames w' !! match_gameId m = Some game
            /\ game_of_match m game
            /\ StartGameAt (20 + 5000) (match_gameId m) ∈ timers w')
    /\ (forall i j m1 m2,
          new !! i = Some (match_found m1) -> new !! j = Some (match_found m2) ->
          match_gameId m1 = match_gameId m2 -> i = j).
Proof.
  apply (processMatchmaking_announces_stored_games four_queued "chess" 20).
  vm_compute. reflexivity.
Defined.

Lemma getGameConfig_methods (gameMode : string) :
  gameMode ∈ Object_prototype_methods ->
  GameService.getGameConfig gameMode = inl NotValidJSON.
Proof.
  unfold Object_prototype_methods. intros Hin.
  repeat (apply elem_of_cons in Hin as [-> | Hin]; [vm_compute; reflexivity |]).
  inversion Hin.
Qed.

(** X11. [createGame] is all or nothing, whatever the store does: when it
    returns, the game it returns is stored under its id in the store and held
    in memory, waiting to start, with one participant per player in their
    order, and its start is scheduled five seconds later; when it throws, no
    game is stored or held in memory and nothing is scheduled.  It throws
    when the store rejects the write, and, before anything is sent to the
    store, for a mode that names a method of [Object.prototype], whose
    configuration cannot be copied. *)
Theorem createGame_all_or_nothing (w : World) (gameId gameMode : string)
    (players : list QueueEntry) (now : Z) :
  let run := GameService.createGame gameId players gameMode now in
  let w' := exec run w in
  (forall game, outcome run w = inr game ->
     redis_games w' !! gameId = Some game /\ activeGames w' !! gameId = Some game
     /\ game_of_match (mkMatchData gameId players gameMode now) game
     /\ timers w' = timers w ++ [StartGameAt (now + 5000) gameId])
  /\ (forall e, outcome run w = inl e ->
        (e = StoreError \/ (e = NotValidJSON /\ gameMode ∈ Object_prototype_methods))
        /\ redis_games w' = redis_games w /\ activeGames w' = activeGames w
        /\ timers w' = timers w)
  /\ (gameMode ∈ Object_prototype_methods -> run w = (w, inl NotValidJSON)).
Proof.
  intros run w'. subst run w'. unfold exec, outcome.
  rewrite createGame_run.
  split; [| split];
    [| | intros Hin; rewrite (getGameConfig_methods gameMode Hin); reflexivity].
  - destruct (GameService.getGameConfig gameMode) as [err | config];
      [discriminate |].
    cbv zeta. destruct (faults w) as [| [] rest]; cbn [fst snd];
      try discriminate; intros game Hg; inversion Hg; subst game;
      cbn; rewrite !lookup_insert_eq; repeat split.
  - destruct (GameService.getGameConfig gameMode) as [err | config] eqn:Hconfig.
    + intros e He. inversion He. subst e.
      apply getGameConfig_throws in Hconfig as [-> Hin]. repeat split. auto.
    + cbv zeta. destruct (faults w) as [| [] rest]; cbn [fst snd];
        try discriminate; intros e He; inversion He; repeat split; auto.
Qed.

(** ** GameService.getGame *)

(** [getGame] under each state of the memory and each fate of its store
    command. *)
Lemma getGame_run (w : World) (gameId : string) :
  GameService.getGame gameId w
  = match activeGames w !! gameId with
    | Some game => (w, inr (Some game))
    | None =>
        match faults w with
        | true :: rest => (set_faults (fun _ => rest) w, inl StoreError)
        | fate =>
            match redis_games w !! gameId with
            | Some game =>
                (set_activeGames <[gameId := game]>
                   (set_faults (fun _ => tail fate) w), inr (Some game))
            | None => (set_faults (fun _ => tail fate) w, inr None)
            end
        end
    end.
Proof.
  unfold GameService.getGame. rewrite bind_run. cbn [gets].
  destruct (activeGames w !! gameId) as [game |]; [reflexivity |].
  unfold RedisClient.get_game, RedisClient.command. rewrite bind_run.
  destruct (faults w) as [| [] rest] eqn:Hf; cbn.
  - replace (set_faults (fun _ => []) w) with w
      by (destruct w; cbn in Hf; subst; reflexivity).
    destruct (redis_games w !! gameId); reflexivity.
  - reflexivity.
  - destruct (redis_games w !! gameId); reflexivity.
Qed.

Lemma getGame_frame (gameId : string) :
  keeps store_untouched (GameService.getGame gameId).
Proof.
  unfold GameService.getGame, RedisClient.get_game.
  frame_steps. repeat split.
Qed.

(** X12. A game that [getGame] has returned is served from memory from then
    on: in any later world that holds the same games in memory, [getGame]
    returns that game and sends no command to the store, whatever the store
    holds by then and whether or not it answers.  [getGame] itself writes
    nothing to the store. *)
Theorem getGame_serves_from_memory (w : World) (gameId : string) (game : Game) :
  outcome (GameService.getGame gameId) w = inr (Some game) ->
  let w1 := exec (GameService.getGame gameId) w in
  store_untouched w w1
  /\ forall w2, activeGames w2 = activeGames w1 ->
       GameService.getGame gameId w2 = (w2, inr (Some game)).
Proof.
  intros Hout w1. split; [apply getGame_frame |].
  assert (Hheld : activeGames w1 !! gameId = Some game).
  { subst w1. unfold exec, outcome in *. rewrite getGame_run in *.
    destruct (activeGames w !! gameId) as [held |] eqn:Hmem.
    - cbn in *. congruence.
    - destruct (faults w) as [| [] rest];
        destruct (redis_games w !! gameId) as [g |]; cbn in *;
        try discriminate; rewrite ?lookup_insert_eq; congruence. }
  intros w2 Hsame. rewrite getGame_run, Hsame, Hheld. reflexivity.
Qed.

Lemma getGame_serves_from_memory_witness :
  let w1 := exec (GameService.getGame "game-1") game_created in
  store_untouched game_created w1
  /\ forall w2, activeGames w2 = activeGames w1 ->
       GameService.getGame "game-1" w2
       = (w2, inr (Some (mkGame "game-1" [alice_gp; bob_gp] "chess" starting 2000
                           ChessConfig None None None))).
Proof.
  apply (getGame_serves_from_memory game_created "game-1").
  vm_compute. reflexivity.
Defined.

(** ** GameService.handleGameAction *)

#[local] Instance gameplay_frame_frame : Frame gameplay_frame.
Proof.
  split.
  - intros w. split; [apply frame_refl | split; reflexivity].
  - intros w1 w2 w3 (H1 & H2 & H3) (H4 & H5 & H6).
    split; [eapply frame_trans; eassumption | split; congruence].
  - intros w f. split; [apply frame_faults | split; reflexivity].
Qed.

Lemma getGame_gameplay_frame (gameId : string) :
  keeps gameplay_frame (GameService.getGame gameId).
Proof.
  unfold GameService.getGame, RedisClient.get_game.
  frame_steps. repeat split.
Qed.

Lemma find_socket_none (socketId : string) (players : list GamePlayer) :
  (forall p, p ∈ players -> gp_socketId p <> socketId) ->
  List.find (fun p => bool_decide (gp_socketId p = socketId)) players = None.
Proof.
  intros Hno. destruct (List.find _ players) as [p |] eqn:Hfind; [| reflexivity].
  apply find_some in Hfind as [Hin Hp]. apply bool_decide_eq_true in Hp.
  apply list_elem_of_In in Hin. exfalso. exact (Hno p Hin Hp).
Qed.

(** X13. An action sent from a socket that is not a participant's has no
    effect, whatever the action and whatever the store does: nothing is
    emitted, written, scheduled or published. *)
Theorem handleGameAction_ignores_strangers (w : World)
    (gameId socketId action : string) (payload : GameService.Payload) (now : Z) :
  (forall game, lookup_game w gameId = Some game ->
     forall p, p ∈ game_players game -> gp_socketId p <> socketId) ->
  let w' := exec (GameService.handleGameAction gameId socketId action payload now) w in
  emitted w' = emitted w /\ gameplay_frame w w'.
Proof.
  intros Hstranger w'. subst w'.
  unfold exec, GameService.handleGameAction. rewrite bind_run, getGame_run.
  unfold lookup_game in Hstranger.
  destruct (activeGames w !! gameId) as [held |].
  - cbv beta iota. rewrite (find_socket_none socketId (game_players held))
      by (apply Hstranger; reflexivity).
    destruct (game_status held); repeat split.
  - destruct (faults w) as [| [] rest];
      destruct (redis_games w !! gameId) as [g |]; cbv beta iota zeta;
      rewrite ?(find_socket_none socketId (game_players g))
        by (apply Hstranger; reflexivity);
      try destruct (game_status g); repeat split.
Qed.

Lemma handleGameAction_ignores_strangers_witness :
  let w' := exec (GameService.handleGameAction "game-1" "socket-x" "resign"
                    (GameService.mkPayload None None None None None) 7500)
              game_running in
  emitted w' = emitted game_running /\ gameplay_frame game_running w'.
Proof.
  apply (handleGameAction_ignores_strangers game_running "game-1" "socket-x" "resign").
  vm_compute. intros game Hg. inversion Hg. subst game.
  intros p Hp. cbn in Hp.
  apply elem_of_cons in Hp as [-> | Hp]; [discriminate |].
  apply elem_of_cons in Hp as [-> | Hp]; [discriminate |].
  inversion Hp.
Defined.

Lemma handleChessAction_frame (game : Game) (player : GamePlayer) (action : string)
    (payload : GameService.Payload) (now : Z) :
  action <> "resign"%string ->
  keeps gameplay_frame (GameService.handleChessAction game player action payload now).
Proof.
  intros Hne. unfold GameService.handleChessAction, emit.
  case_bool_decide; [frame_steps; repeat split |].
  case_bool_decide; [contradiction |]. frame_steps.
Qed.

Lemma handleFPSAction_frame (game : Game) (player : GamePlayer) (action : string)
    (payload : GameService.Payload) (now : Z) :
  keeps gameplay_frame (GameService.handleFPSAction game player action payload now).
Proof.
  unfold GameService.handleFPSAction, emit. frame_steps; repeat split.
Qed.

(** X14. An action other than [resign] never writes to the store, whatever
    the store does: no game, player, leaderboard or queue changes, and
    nothing is scheduled or published.  Moves, position updates and shots
    are relayed, not recorded. *)
Theorem handleGameAction_records_nothing (w : World)
    (gameId socketId action : string) (payload : GameService.Payload) (now : Z) :
  action <> "resign"%string ->
  gameplay_frame w
    (exec (GameService.handleGameAction gameId socketId action payload now) w).
Proof.
  intros Hne. revert w.
  change (keeps gameplay_frame
            (GameService.handleGameAction gameId socketId action payload now)).
  unfold GameService.handleGameAction.
  apply keeps_bind; [exact _ | apply getGame_gameplay_frame | intros found].
  frame_steps.
  - apply handleChessAction_frame. exact Hne.
  - apply handleFPSAction_frame.
Qed.

Lemma handleGameAction_records_nothing_witness :
  gameplay_frame game_running
    (exec (GameService.handleGameAction "game-1" "socket-a" "move"
             (GameService.mkPayload (Some "e2"%string) (Some "e4"%string)
                None None None) 7500)
       game_running).
Proof.
  apply (handleGameAction_records_nothing game_running "game-1" "socket-a" "move").
  discriminate.
Defined.

(** [endGame] on a chess game of two known players while the store answers. *)
Lemma endGame_settles (w : World) (gameId : string) (game : Game)
    (p1 p2 : GamePlayer) (P1 P2 : Player) (c1 c2 : Z)
    (winnerId : option string) (reason : string) (now : Z) :
  fault_free w -> lookup_game w gameId = Some game ->
  game_players game = [p1; p2] -> game_gameMode game = "chess"%string ->
  gp_id p1 <> gp_id p2 ->
  redis_players w !! gp_id p1 = Some P1 ->
  redis_players w !! gp_id p2 = Some P2 ->
  PlayerService.rating_operand (player_ratings P1 !! "chess"%string) = Some c1 ->
  PlayerService.rating_operand (player_ratings P2 !! "chess"%string) = Some c2 ->
  let game' := GameService.ended game winnerId reason now in
  let s := settled_scores winnerId p1 p2 in
  let w' := exec (GameService.endGame gameId winnerId reason now) w in
  outcome (GameService.endGame gameId winnerId reason now) w = inr tt
  /\ activeGames w' !! gameId = Some game'
  /\ redis_games w' !! gameId = Some game'
  /\ emitted w'
     = emitted w ++ [game_update gameId (game_ended (mkGameResult winnerId reason))]
  /\ timers w' = timers w ++ [EvictGameAt (now + 60000) gameId]
  /\ exists P1' P2',
       redis_players w' !! gp_id p1 = Some P1'
       /\ redis_players w' !! gp_id p2 = Some P2'
       /\ player_ratings P1' !! "chess"%string
          = Some (Some (PlayerService.newRating_of c1 (gp_rating p2) s.1))
       /\ player_ratings P2' !! "chess"%string
          = Some (Some (PlayerService.newRating_of c2 (gp_rating p1) s.2)).
Proof.
  intros Hff Hl Hpl Hmode Hne H1 H2 Hc1 Hc2 game' s w'.
  subst w'. unfold exec, outcome, GameService.endGame.
  rewrite bind_run, (getGame_found w gameId game) by assumption.
  cbv zeta. fold game'. rewrite bind_run. cbn [modify].
  set (w1 := set_activeGames <[gameId := game']>
               (set_activeGames <[gameId := game]> w)).
  replace (game_players game') with [p1; p2] by (symmetry; exact Hpl).
  replace (game_gameMode game') with "chess"%string by (symmetry; exact Hmode).
  rewrite bool_decide_eq_true_2 by reflexivity.
  destruct (settle_ok w1 winnerId p1 p2 P1 P2 c1 c2 now)
    as (w2 & P1' & P2' & Hrun & (Hff2 & Hact & Hgames & Hem & Htm)
        & HP1 & HP2 & HR1 & HR2 & _); try assumption.
  rewrite bind_run, Hrun. rewrite bind_run, updateGame_ok by exact Hff2.
  rewrite bind_run. unfold emit, setTimeout, modify. cbn.
  rewrite !lookup_insert_eq, Hem, Htm.
  split; [reflexivity |]. split; [reflexivity |]. split; [reflexivity |].
  split; [reflexivity |]. split; [reflexivity |].
  exists P1', P2'. repeat split; assumption.
Qed.

Lemma newRating_of_win (c o : Z) : c <= PlayerService.newRating_of c o 1.
Proof.
  unfold PlayerService.newRating_of. cbv zeta.
  etransitivity; [| apply Z.le_max_r].
  rewrite <- (Math_round_IZR c) at 1. apply Math_round_mono.
  pose proof (ps_expected_lt_1 (IZR c) (IZR o)). unfold PlayerService.eloK. nra.
Qed.

(** X15. A chess resignation ends the game with the resigning player
    recorded as the winner: [resign] calls [endGame] with the id of the
    player who sent it, so, the store answering and both players known, the
    game is stored as finished with that player as [winnerId] and reason
    [resignation], the rating of the player who resigned is updated as a win
    and does not go down, and the opponent's is updated as a loss. *)
Theorem resign_records_resigner_as_winner (w : World) (gameId socketId : string)
    (payload : GameService.Payload) (now : Z) (game : Game)
    (p1 p2 resigner opponent : GamePlayer) (P Q : Player) (c cq : Z) :
  fault_free w -> lookup_game w gameId = Some game -> game_id game = gameId ->
  game_status game = active -> game_gameMode game = "chess"%string ->
  game_players game = [p1; p2] -> gp_id p1 <> gp_id p2 ->
  List.find (fun p => bool_decide (gp_socketId p = socketId)) (game_players game)
  = Some resigner ->
  (resigner = p1 /\ opponent = p2) \/ (resigner = p2 /\ opponent = p1) ->
  redis_players w !! gp_id resigner = Some P ->
  redis_players w !! gp_id opponent = Some Q ->
  PlayerService.rating_operand (player_ratings P !! "chess"%string) = Some c ->
  PlayerService.rating_operand (player_ratings Q !! "chess"%string) = Some cq ->
  let w' := exec (GameService.handleGameAction gameId socketId "resign" payload now) w in
  redis_games w' !! gameId
  = Some (GameService.ended game (Some (gp_id resigner)) "resignation" now)
  /\ exists P' Q',
       redis_players w' !! gp_id resigner = Some P'
       /\ redis_players w' !! gp_id opponent = Some Q'
       /\ player_ratings P' !! "chess"%string
          = Some (Some (PlayerService.newRating_of c (gp_rating opponent) 1))
       /\ player_ratings Q' !! "chess"%string
          = Some (Some (PlayerService.newRating_of cq (gp_rating resigner) 0))
       /\ c <= PlayerService.newRating_of c (gp_rating opponent) 1.
Proof.
  intros Hff Hl Hid Hactive Hchess Hpl Hne Hfind Hwho HP HQ Hc Hcq w'.
  subst w'. unfold exec, GameService.handleGameAction.
  rewrite bind_run, (getGame_found w gameId game) by assumption.
  cbv beta iota. rewrite Hactive, Hfind, Hchess.
  rewrite bool_decide_eq_true_2 by reflexivity.
  unfold GameService.handleChessAction.
  rewrite bool_decide_eq_false_2 by discriminate.
  rewrite bool_decide_eq_true_2 by reflexivity. rewrite Hid.
  set (w0 := set_activeGames <[gameId := game]> w).
  assert (Hl0 : lookup_game w0 gameId = Some game).
  { unfold lookup_game, w0. cbn. rewrite lookup_insert_eq. reflexivity. }
  destruct Hwho as [[-> ->] | [-> ->]].
  - destruct (endGame_settles w0 gameId game p1 p2 P Q c cq (Some (gp_id p1))
                "resignation" now Hff Hl0 Hpl Hchess Hne HP HQ Hc Hcq)
      as (_ & _ & Hg & _ & _ & P' & Q' & HP' & HQ' & HR1 & HR2).
    unfold exec in *. split; [exact Hg |]. exists P', Q'.
    unfold settled_scores in HR1, HR2.
    rewrite bool_decide_eq_true_2 in HR1, HR2 by reflexivity.
    split; [exact HP' |]. split; [exact HQ' |]. split; [exact HR1 |].
    split; [exact HR2 | apply newRating_of_win].
  - destruct (endGame_settles w0 gameId game p1 p2 Q P cq c (Some (gp_id p2))
                "resignation" now Hff Hl0 Hpl Hchess Hne HQ HP Hcq Hc)
      as (_ & _ & Hg & _ & _ & Q' & P' & HQ' & HP' & HR1 & HR2).
    unfold exec in *. split; [exact Hg |]. exists P', Q'.
    unfold settled_scores in HR1, HR2.
    rewrite bool_decide_eq_false_2 in HR1, HR2 by congruence.
    rewrite bool_decide_eq_true_2 in HR1, HR2 by reflexivity.
    split; [exact HP' |]. split; [exact HQ' |]. split; [exact HR2 |].
    split; [exact HR1 | apply newRating_of_win].
Qed.

Lemma resign_records_resigner_as_winner_witness :
  let w' := exec (GameService.handleGameAction "game-1" "socket-b" "resign"
                    (GameService.mkPayload None None None None None) 7500)
              game_running in
  redis_games w' !! "game-1"
  = Some (GameService.ended
            (GameService.started
               (mkGame "game-1" [alice_gp; bob_gp] "chess" starting 2000 ChessConfig
                  None None None) 7000)
            (Some (gp_id bob_gp)) "resignation" 7500)
  /\ exists P' Q',
       redis_players w' !! gp_id bob_gp = Some P'
       /\ redis_players w' !! gp_id alice_gp = Some Q'
       /\ player_ratings P' !! "chess"%string
          = Some (Some (PlayerService.newRating_of 1000 (gp_rating alice_gp) 1))
       /\ player_ratings Q' !! "chess"%string
          = Some (Some (PlayerService.newRating_of 1000 (gp_rating bob_gp) 0))
       /\ 1000 <= PlayerService.newRating_of 1000 (gp_rating alice_gp) 1.
Proof.
  apply (resign_records_resigner_as_winner game_running "game-1" "socket-b"
           (GameService.mkPayload None None None None None) 7500
           (GameService.started
              (mkGame "game-1" [alice_gp; bob_gp] "chess" starting 2000 ChessConfig
                 None None None) 7000)
           alice_gp bob_gp bob_gp alice_gp bob alice 1000 1000).
  - vm_compute. reflexivity.
  - vm_compute. reflexivity.
  - reflexivity.
  - reflexivity.
  - reflexivity.
  - reflexivity.
  - discriminate.
  - vm_compute. reflexivity.
  - right. split; reflexivity.
  - vm_compute. reflexivity.
  - vm_compute. reflexivity.
  - vm_compute. reflexivity.
  - vm_compute. reflexivity.
Defined.

(** ** GameService.endGame *)

#[local] Instance only_ratings_touched_frame : Frame only_ratings_touched.
Proof.
  split.
  - intros w. repeat split.
  - intros w1 w2 w3 (? & ? & ? & ? & ? & ?) (? & ? & ? & ? & ? & ?).
    repeat split; congruence.
  - intros w f. repeat split.
Qed.

Lemma updatePlayerRating_frame (playerId gameMode result : string)
    (opponentRating : number) (now : Z) :
  keeps only_ratings_touched
    (PlayerService.updatePlayerRating playerId gameMode opponentRating result now).
Proof.
  unfold PlayerService.updatePlayerRating, PlayerService.getPlayer,
    RedisClient.get_player, PlayerService.actualScore_of,
    RedisClient.setEx_player, RedisClient.zAdd_leaderboard.
  frame_steps; repeat split.
Qed.

Lemma settle_frame (gameMode : string) (winnerId : option string)
    (p1 p2 : GamePlayer) (now : Z) :
  keeps only_ratings_touched (GameService.settle gameMode winnerId p1 p2 now).
Proof.
  unfold GameService.settle.
  repeat case_bool_decide;
    (apply keeps_bind; [exact _ | apply updatePlayerRating_frame | intros _];
     apply keeps_bind; [exact _ | apply updatePlayerRating_frame | intros _];
     apply keeps_ret; exact _).
Qed.

(** A rating update while the store answers either throws or leaves the
    store answering and the records of the other players as they were. *)
Lemma updatePlayerRating_cases (w : World) (playerId gameMode result : string)
    (opponentRating : number) (now : Z) :
  fault_free w ->
  let r := PlayerService.updatePlayerRating playerId gameMode opponentRating result
             now w in
  (exists e, r.2 = inl e)
  \/ (fault_free r.1
      /\ forall id, id <> playerId -> redis_players r.1 !! id = redis_players w !! id).
Proof.
  intros Hff. unfold PlayerService.updatePlayerRating.
  rewrite bind_run, getPlayer_ok by exact Hff.
  destruct (redis_players w !! playerId) as [player |]; [| left; eexists; reflexivity].
  cbv beta iota zeta. rewrite bind_run.
  unfold PlayerService.actualScore_of.
  repeat case_bool_decide; cbn [mret M_ret throw];
    try (left; eexists; reflexivity);
    (unfold RedisClient.setEx_player, RedisClient.zAdd_leaderboard;
     rewrite bind_run, command_ok by exact Hff; cbn [modify];
     rewrite bind_run, command_ok by exact Hff;
     destruct (PlayerService.newRating_for _ _ _);
     cbn; [right | left; eexists; reflexivity];
     split; [exact Hff |]; intros id Hid;
     rewrite lookup_insert_ne by congruence; reflexivity).
Qed.

Lemma updatePlayerRating_missing (w : World) (playerId gameMode result : string)
    (opponentRating : number) (now : Z) :
  fault_free w -> redis_players w !! playerId = None ->
  PlayerService.updatePlayerRating playerId gameMode opponentRating result now w
  = (w, inl PlayerNotFound).
Proof.
  intros Hff Hnone. unfold PlayerService.updatePlayerRating.
  rewrite bind_run, getPlayer_ok, Hnone by exact Hff. reflexivity.
Qed.

Lemma two_updates_missing (w : World) (idA idB gameMode resA resB : string)
    (oppA oppB now : Z) :
  fault_free w ->
  redis_players w !! idA = None \/ redis_players w !! idB = None ->
  exists e,
    ((PlayerService.updatePlayerRating idA gameMode oppA resA now;;
      PlayerService.updatePlayerRating idB gameMode oppB resB now;;
      mret tt) w).2 = inl e.
Proof.
  intros Hff Hmiss. rewrite bind_run.
  destruct (redis_players w !! idA) as [PA |] eqn:HA.
  - destruct Hmiss as [Hmiss | HB]; [discriminate |].
    destruct (updatePlayerRating_cases w idA gameMode resA oppA now Hff)
      as [[e He] | [Hff1 Hkeep]].
    + destruct (PlayerService.updatePlayerRating idA gameMode oppA resA now w)
        as [w1 [e1 | P1]]; [eexists; reflexivity | discriminate].
    + destruct (PlayerService.updatePlayerRating idA gameMode oppA resA now w)
        as [w1 [e1 | P1]]; [eexists; reflexivity |].
      cbn in Hff1, Hkeep. rewrite bind_run.
      rewrite updatePlayerRating_missing; [eexists; reflexivity | exact Hff1 |].
      rewrite Hkeep by congruence. exact HB.
  - rewrite updatePlayerRating_missing by assumption. eexists. reflexivity.
Qed.

Lemma settle_missing (w : World) (gameMode : string) (winnerId : option string)
    (p1 p2 : GamePlayer) (now : Z) :
  fault_free w ->
  redis_players w !! gp_id p1 = None \/ redis_players w !! gp_id p2 = None ->
  exists e, (GameService.settle gameMode winnerId p1 p2 now w).2 = inl e.
Proof.
  intros Hff Hmiss. unfold GameService.settle.
  repeat case_bool_decide; apply two_updates_missing; tauto.
Qed.

(** X16. [endGame] on a chess game one of whose two players has no record
    throws half way, the store answering: the game held in memory is already
    marked finished with the result, but the stored game is not written, no
    [game_ended] event is emitted and the eviction from memory is not
    scheduled. *)
Theorem endGame_missing_player_stops_half_way (w : World) (gameId : string)
    (game : Game) (p1 p2 : GamePlayer) (winnerId : option string) (reason : string)
    (now : Z) :
  fault_free w -> lookup_game w gameId = Some game ->
  game_players game = [p1; p2] -> game_gameMode game = "chess"%string ->
  redis_players w !! gp_id p1 = None \/ redis_players w !! gp_id p2 = None ->
  let w' := exec (GameService.endGame gameId winnerId reason now) w in
  (exists e, outcome (GameService.endGame gameId winnerId reason now) w = inl e)
  /\ activeGames w' !! gameId = Some (GameService.ended game winnerId reason now)
  /\ redis_games w' = redis_games w
  /\ emitted w' = emitted w
  /\ timers w' = timers w.
Proof.
  intros Hff Hl Hpl Hmode Hmiss w'. subst w'.
  unfold exec, outcome, GameService.endGame.
  rewrite bind_run, (getGame_found w gameId game) by assumption.
  cbv zeta. rewrite bind_run. cbn [modify].
  set (game' := GameService.ended game winnerId reason now).
  set (w1 := set_activeGames <[gameId := game']>
               (set_activeGames <[gameId := game]> w)).
  replace (game_players game') with [p1; p2] by (symmetry; exact Hpl).
  replace (game_gameMode game') with "chess"%string by (symmetry; exact Hmode).
  rewrite bool_decide_eq_true_2 by reflexivity.
  destruct (settle_missing w1 "chess" winnerId p1 p2 now Hff Hmiss) as [e He].
  destruct (settle_frame "chess" winnerId p1 p2 now w1)
    as (Hg & _ & Ha & Hem & _ & Ht).
  rewrite bind_run.
  destruct (GameService.settle "chess" winnerId p1 p2 now w1) as [w2 [e2 | []]];
    [| discriminate].
  cbn in Hg, Ha, Hem, Ht |- *.
  split; [eexists; reflexivity |].
  rewrite Ha, Hg, Hem, Ht. subst w1. cbn. rewrite lookup_insert_eq.
  repeat split.
Qed.

Lemma endGame_missing_player_stops_half_way_witness :
  let game := mkGame "game-2"
                [mkGamePlayer "ghost" "ghost" 1000 "ghost"; bob_gp] "chess" starting
                100 ChessConfig None None None in
  let w' := exec (GameService.endGame "game-2" None "completed" 200) ghost_game in
  (exists e, outcome (GameService.endGame "game-2" None "completed" 200) ghost_game
             = inl e)
  /\ activeGames w' !! "game-2" = Some (GameService.ended game None "completed" 200)
  /\ redis_games w' = redis_games ghost_game
  /\ emitted w' = emitted ghost_game
  /\ timers w' = timers ghost_game.
Proof.
  apply (endGame_missing_player_stops_half_way ghost_game "game-2"
           (mkGame "game-2" [mkGamePlayer "ghost" "ghost" 1000 "ghost"; bob_gp] "chess"
              starting 100 ChessConfig None None None)
           (mkGamePlayer "ghost" "ghost" 1000 "ghost") bob_gp None "completed" 200).
  - vm_compute. reflexivity.
  - vm_compute. reflexivity.
  - reflexivity.
  - reflexivity.
  - left. vm_compute. reflexivity.
Defined.

Lemma updateGame_frame (gameId : string) (game : Game) :
  keeps players_untouched (GameService.updateGame gameId game).
Proof.
  unfold GameService.updateGame, RedisClient.setEx_game.
  frame_steps; split; reflexivity.
Qed.

(** X17. Only chess games of exactly two players are rated: [endGame] on any
    other game writes no player record and no leaderboard, whatever the store
    does; and, the store answering, it stores the game as finished with the
    result, in the store and in memory, emits one [game_ended] event and
    schedules the eviction from memory a minute later. *)
Theorem endGame_unrated_game (w : World) (gameId : string) (game : Game)
    (winnerId : option string) (reason : string) (now : Z) :
  lookup_game w gameId = Some game ->
  game_gameMode game <> "chess"%string \/ length (game_players game) <> 2%nat ->
  let game' := GameService.ended game winnerId reason now in
  let w' := exec (GameService.endGame gameId winnerId reason now) w in
  players_untouched w w'
  /\ (fault_free w ->
      redis_games w' !! gameId = Some game'
      /\ activeGames w' !! gameId = Some game'
      /\ emitted w'
         = emitted w ++ [game_update gameId (game_ended (mkGameResult winnerId reason))]
      /\ timers w' = timers w ++ [EvictGameAt (now + 60000) gameId]).
Proof.
  intros Hl Hunrated game' w'.
  assert (Hskip :
    match game_players game' with
    | [player1; player2] =>
        if bool_decide (game_gameMode game' = "chess"%string)
        then GameService.settle (game_gameMode game') winnerId player1 player2 now
        else mret tt
    | _ => mret tt
    end = mret tt).
  { subst game'. cbn [GameService.ended game_players game_gameMode].
    destruct (game_players game) as [| p1 [| p2 [| p3 rest]]]; try reflexivity.
    destruct Hunrated as [Hmode | Hlen]; [| cbn in Hlen; lia].
    rewrite bool_decide_eq_false_2 by exact Hmode. reflexivity. }
  assert (Hrest : keeps players_untouched
            (modify (set_activeGames <[gameId := game']>);;
             mret tt;;
             GameService.updateGame gameId game';;
             emit (game_update gameId (game_ended (mkGameResult winnerId reason)));;
             setTimeout (EvictGameAt (now + 60000) gameId))).
  { unfold emit, setTimeout.
    apply keeps_bind; [exact _ | frame_steps; split; reflexivity | intros _].
    apply keeps_bind; [exact _ | frame_steps | intros _].
    apply keeps_bind; [exact _ | apply updateGame_frame | intros _].
    frame_steps; split; reflexivity. }
  split.
  - subst w'. unfold exec, GameService.endGame.
    rewrite bind_run, getGame_run. unfold lookup_game in Hl.
    destruct (activeGames w !! gameId) as [held |].
    + inversion Hl; subst held. cbv beta iota zeta. fold game'.
      rewrite Hskip. apply Hrest.
    + destruct (faults w) as [| [] rest]; rewrite ?Hl; cbv beta iota zeta;
        fold game'; rewrite ?Hskip;
        try (eapply (frame_trans (R := players_untouched));
             [| apply Hrest]);
        split; reflexivity.
  - intros Hff. subst w'. unfold exec, GameService.endGame.
    rewrite bind_run, (getGame_found w gameId game) by assumption.
    cbv zeta. fold game'. rewrite Hskip.
    rewrite bind_run. cbn [modify]. rewrite bind_run. cbn [mret M_ret].
    rewrite bind_run, updateGame_ok by exact Hff.
    rewrite bind_run. unfold emit, setTimeout, modify. cbn.
    rewrite !lookup_insert_eq. repeat split.
Qed.

Lemma endGame_unrated_game_witness :
  let game := mkGame "game-3" [alice_gp; bob_gp] "fps" starting 100 FpsConfig
                None None None in
  let game' := GameService.ended game (Some "uuid-0"%string) "completed" 200 in
  let w' := exec (GameService.endGame "game-3" (Some "uuid-0"%string) "completed" 200)
              fps_game in
  players_untouched fps_game w'
  /\ (fault_free fps_game ->
      redis_games w' !! "game-3" = Some game'
      /\ activeGames w' !! "game-3" = Some game'
      /\ emitted w'
         = emitted fps_game
           ++ [game_update "game-3"
                 (game_ended (mkGameResult (Some "uuid-0"%string) "completed"))]
      /\ timers w' = timers fps_game ++ [EvictGameAt (200 + 60000) "game-3"]).
Proof.
  apply (endGame_unrated_game fps_game "game-3"
           (mkGame "game-3" [alice_gp; bob_gp] "fps" starting 100 FpsConfig
              None None None)).
  - vm_compute. reflexivity.
  - left. discriminate.
Defined.

(** ** PlayerService.updatePlayerRating *)

Lemma updatePlayerRating_nan (w : World) (playerId gameMode result : string)
    (opponentRating now : Z) (player : Player) (actual : R) :
  fault_free w ->
  redis_players w !! playerId = Some player ->
  PlayerService.rating_operand (player_ratings player !! gameMode) = None ->
  spec_actual result = Some actual ->
  PlayerService.updatePlayerRating playerId gameMode opponentRating result now w
  = (set_players
       <[playerId := PlayerService.rated_player player gameMode None result now]> w,
     inl StoreError).
Proof.
  intros Hff Hp Hc Hact.
  unfold PlayerService.updatePlayerRating, PlayerService.getPlayer,
    RedisClient.get_player.
  rewrite bind_run, command_ok by assumption. cbn. rewrite Hp.
  rewrite bind_run, (actualScore_of_spec _ actual) by assumption.
  rewrite Hc. cbn.
  unfold RedisClient.setEx_player, RedisClient.zAdd_leaderboard.
  rewrite bind_run, command_ok by assumption. cbn.
  rewrite bind_run, command_ok by assumption. reflexivity.
Qed.

Lemma rating_operand_none (v : option (option Z)) :
  PlayerService.rating_operand v = None -> v = None.
Proof. destruct v as [[z |] |]; cbn; congruence. Qed.

(** X18. The board of a mode stays in step with the player records across a
    rating update, the store answering: if every entry of the board of a mode
    carries the rating its player's record holds for that mode, the same is
    true after [updatePlayerRating], for any player, mode and result, whether
    it returns or throws; and when it returns, the player is on the board of
    the updated mode with the rating returned. *)
Theorem updatePlayerRating_keeps_board_in_step (w : World)
    (playerId gameMode result board : string) (opponentRating now : Z) :
  fault_free w -> leaderboard_agrees board w ->
  let run :=
    PlayerService.updatePlayerRating playerId gameMode opponentRating result now in
  leaderboard_agrees board (exec run w)
  /\ forall p', outcome run w = inr p' ->
       exists r, player_ratings p' !! gameMode = Some (Some r)
                 /\ (playerId, r) ∈ leaderboard_of (exec run w) gameMode.
Proof.
  intros Hff Hagree run. subst run. unfold exec, outcome.
  destruct (redis_players w !! playerId) as [player |] eqn:Hp;
    [| rewrite updatePlayerRating_missing by assumption;
       split; [exact Hagree | discriminate]].
  destruct (spec_actual result) as [actual |] eqn:Hact;
    [| rewrite (updatePlayerRating_unknown_result _ _ _ _ _ _ player) by assumption;
       split; [exact Hagree | discriminate]].
  destruct (PlayerService.rating_operand (player_ratings player !! gameMode))
    as [c |] eqn:Hc.
  - rewrite (updatePlayerRating_ok _ _ _ _ _ _ player c actual) by assumption.
    cbv zeta. cbn [fst snd].
    set (r := PlayerService.newRating_of c opponentRating actual).
    set (player' := PlayerService.rated_player player gameMode (Some r) result now).
    split.
    + intros id score Hin. unfold leaderboard_of, rated_world in Hin. cbn in Hin.
      cbn [rated_world redis_players set_leaderboards set_players].
      destruct (decide (board = gameMode)) as [-> | Hboard].
      * rewrite lookup_insert_eq in Hin. cbn in Hin.
        rewrite zAdd_perm in Hin. apply elem_of_cons in Hin as [Hin | Hin].
        -- inversion Hin; subst id score. exists player'.
           rewrite lookup_insert_eq. split; [reflexivity |].
           cbn. apply assign_rating_own, (rating_operand_own _ _ Hc).
        -- apply zRem_elem in Hin as [Hne Hin]. cbn in Hne.
           destruct (Hagree id score Hin) as (P & HP & HR).
           exists P. rewrite lookup_insert_ne by congruence. split; assumption.
      * rewrite lookup_insert_ne in Hin by congruence.
        destruct (Hagree id score Hin) as (P & HP & HR).
        destruct (decide (id = playerId)) as [-> | Hid].
        -- exists player'. rewrite lookup_insert_eq. split; [reflexivity |].
           cbn. rewrite assign_rating_other by congruence. congruence.
        -- exists P. rewrite lookup_insert_ne by congruence. split; assumption.
    + intros p' Hp'. inversion Hp'; subst p'. exists r. split.
      * cbn. apply assign_rating_own, (rating_operand_own _ _ Hc).
      * unfold leaderboard_of. cbn. rewrite lookup_insert_eq. cbn.
        apply zAdd_elem.
  - rewrite (updatePlayerRating_nan _ _ _ _ _ _ player actual) by assumption.
    cbn [fst snd]. split; [| discriminate].
    apply rating_operand_none in Hc.
    intros id score Hin. unfold leaderboard_of in Hin. cbn in Hin.
    destruct (Hagree id score Hin) as (P & HP & HR). cbn.
    destruct (decide (id = playerId)) as [-> | Hid].
    + rewrite lookup_insert_eq. eexists. split; [reflexivity |]. cbn.
      assert (board <> gameMode) by congruence.
      rewrite assign_rating_other by congruence. congruence.
    + exists P. rewrite lookup_insert_ne by congruence. split; assumption.
Qed.

Lemma updatePlayerRating_keeps_board_in_step_witness :
  let run := PlayerService.updatePlayerRating "uuid-1" "chess" 1016 "win" 9000 in
  leaderboard_agrees "chess" (exec run chess_board_listed)
  /\ forall p', outcome run chess_board_listed = inr p' ->
       exists r, player_ratings p' !! "chess"%string = Some (Some r)
                 /\ ("uuid-1"%string, r) ∈ leaderboard_of (exec run chess_board_listed) "chess".
Proof.
  apply (updatePlayerRating_keeps_board_in_step chess_board_listed "uuid-1" "chess" "win" "chess"
           1016 9000).
  - vm_compute. reflexivity.
  - intros id score Hin. vm_compute in Hin.
    apply elem_of_cons in Hin as [Hin | Hin].
    + inversion Hin. eexists. split; vm_compute; reflexivity.
    + apply elem_of_cons in Hin as [Hin | Hin]; [| inversion Hin].
      inversion Hin. eexists. split; vm_compute; reflexivity.
Defined.

#[local] Instance one_player_touched_frame (playerId gameMode : string) :
  Frame (one_player_touched playerId gameMode).
Proof.
  split.
  - intros w. split; [reflexivity |]. split; [reflexivity | apply frame_refl].
  - intros w1 w2 w3 (H1 & H2 & H3) (H4 & H5 & H6).
    split; [intros id Hid; rewrite H4, H1 by exact Hid; reflexivity |].
    split; [intros b Hb; rewrite H5, H2 by exact Hb; reflexivity |].
    eapply frame_trans; eassumption.
  - intros w f. split; [reflexivity |]. split; [reflexivity | apply frame_faults].
Qed.

Lemma updatePlayerRating_one_player (playerId gameMode result : string)
    (opponentRating : number) (now : Z) :
  keeps (one_player_touched playerId gameMode)
    (PlayerService.updatePlayerRating playerId gameMode opponentRating result now).
Proof.
  unfold PlayerService.updatePlayerRating, PlayerService.getPlayer,
    RedisClient.get_player, PlayerService.actualScore_of,
    RedisClient.setEx_player, RedisClient.zAdd_leaderboard.
  frame_steps;
    (split; [intros id Hid; cbn; rewrite ?lookup_insert_ne by congruence; reflexivity |]);
    (split; [intros b Hb; cbn; rewrite ?lookup_insert_ne by congruence; reflexivity |]);
    repeat split.
Qed.

Lemma getPlayer_returns (w w1 : World) (playerId : string) (found : option Player) :
  PlayerService.getPlayer playerId w = (w1, inr found) ->
  found = redis_players w !! playerId.
Proof.
  unfold PlayerService.getPlayer, RedisClient.get_player. intros Hrun.
  apply command_returns in Hrun as (w0 & Hgets & Hp & _).
  unfold gets in Hgets. inversion Hgets. congruence.
Qed.

(** The record a rating update returns is the stored one with the
    assignments of [updatePlayerRating] applied. *)
Lemma updatePlayerRating_result (w : World) (playerId gameMode result : string)
    (opponentRating : number) (now : Z) (P P' : Player) :
  redis_players w !! playerId = Some P ->
  outcome (PlayerService.updatePlayerRating playerId gameMode opponentRating result
             now) w = inr P' ->
  exists stored, P' = PlayerService.rated_player P gameMode stored result now.
Proof.
  intros HP. unfold outcome, PlayerService.updatePlayerRating.
  rewrite bind_run.
  destruct (PlayerService.getPlayer playerId w) as [w1 [e | found]] eqn:Hget;
    [discriminate |].
  apply getPlayer_returns in Hget. rewrite HP in Hget. subst found.
  cbv beta iota zeta. rewrite bind_run.
  destruct (PlayerService.actualScore_of result w1) as [w2 [e | actual]];
    [discriminate |].
  cbv beta iota. rewrite bind_run.
  destruct (RedisClient.setEx_player _ _ w2) as [w3 [e | []]]; [discriminate |].
  rewrite bind_run.
  destruct (RedisClient.zAdd_leaderboard _ _ _ w3) as [w4 [e | []]]; [discriminate |].
  cbn. intros Hout. inversion Hout. eexists. reflexivity.
Qed.

(** X19. A rating update touches one player and one board, whatever the
    store does: the records of all other players, the boards of all other
    modes (the [global] board among them), the games, the queues and the
    events are as before.  The record it returns keeps the id, the name, the
    creation time and the ratings of the other modes, is stamped with the
    time of the update, counts one game more, and its count of games is
    still the sum of its wins, losses and draws if it was so before. *)
Theorem updatePlayerRating_touches_one_player (w : World)
    (playerId gameMode result : string) (opponentRating : number) (now : Z) :
  let run :=
    PlayerService.updatePlayerRating playerId gameMode opponentRating result now in
  one_player_touched playerId gameMode w (exec run w)
  /\ forall P P', redis_players w !! playerId = Some P -> outcome run w = inr P' ->
       player_id P' = player_id P /\ player_username P' = player_username P
       /\ player_createdAt P' = player_createdAt P /\ player_lastActive P' = now
       /\ (forall m, m <> gameMode -> player_ratings P' !! m = player_ratings P !! m)
       /\ gamesPlayed (player_stats P') = gamesPlayed (player_stats P) + 1
       /\ (stats_consistent (player_stats P) -> stats_consistent (player_stats P')).
Proof.
  intros run. split; [apply updatePlayerRating_one_player |].
  intros P P' HP Hout.
  destruct (updatePlayerRating_result w playerId gameMode result opponentRating now
              P P' HP Hout) as [stored ->].
  cbn. split; [reflexivity |]. split; [reflexivity |]. split; [reflexivity |].
  split; [reflexivity |]. split.
  { intros m Hm. apply assign_rating_other. exact Hm. }
  unfold PlayerService.bump_stats, stats_consistent.
  repeat case_bool_decide; cbn; split; lia.
Qed.

#[local] Instance other_boards_untouched_frame (gameMode : string) :
  Frame (other_boards_untouched gameMode).
Proof.
  split.
  - intros w b _. reflexivity.
  - intros w1 w2 w3 H1 H2 b Hb. rewrite (H2 b Hb). exact (H1 b Hb).
  - intros w f b _. reflexivity.
Qed.

Lemma keeps_weaken (R1 R2 : relation World) {A} (m : M A) :
  (forall w w', R1 w w' -> R2 w w') -> keeps R1 m -> keeps R2 m.
Proof. intros Himpl Hm w. apply Himpl, Hm. Qed.

Lemma settle_boards_frame (gameMode : string) (winnerId : option string)
    (p1 p2 : GamePlayer) (now : Z) :
  keeps (other_boards_untouched gameMode)
    (GameService.settle gameMode winnerId p1 p2 now).
Proof.
  assert (Hup : forall playerId opponentRating result,
            keeps (other_boards_untouched gameMode)
              (PlayerService.updatePlayerRating playerId gameMode opponentRating
                 result now)).
  { intros playerId opponentRating result.
    eapply keeps_weaken; [| apply updatePlayerRating_one_player].
    intros w w' (_ & Hb & _). exact Hb. }
  unfold GameService.settle.
  repeat case_bool_decide;
    (apply keeps_bind; [exact _ | apply Hup | intros _];
     apply keeps_bind; [exact _ | apply Hup | intros _];
     apply keeps_ret; exact _).
Qed.

(** X20. Game results reach the chess board only: whatever the store does
    and whatever the game, [endGame] leaves the board of every other mode as
    it is, the [global] board (the one [getLeaderboard] reads by default and
    [createPlayer] writes) among them. *)
Theorem endGame_writes_chess_board_only (w : World) (gameId : string)
    (winnerId : option string) (reason : string) (now : Z) (board : string) :
  board <> "chess"%string ->
  leaderboard_of (exec (GameService.endGame gameId winnerId reason now) w) board
  = leaderboard_of w board.
Proof.
  intros Hboard.
  assert (Hkeeps : keeps (other_boards_untouched "chess")
                     (GameService.endGame gameId winnerId reason now)).
  { unfold GameService.endGame, GameService.getGame, RedisClient.get_game.
    assert (Hrest : forall game,
              keeps (other_boards_untouched "chess")
                (let game' := GameService.ended game winnerId reason now in
                 modify (set_activeGames <[gameId := game']>);;
                 match game_players game' with
                 | [player1; player2] =>
                     if bool_decide (game_gameMode game' = "chess"%string)
                     then GameService.settle (game_gameMode game') winnerId
                            player1 player2 now
                     else mret tt
                 | _ => mret tt
                 end;;
                 GameService.updateGame gameId game';;
                 emit (game_update gameId
                         (game_ended (mkGameResult winnerId reason)));;
                 setTimeout (EvictGameAt (now + 60000) gameId))).
    { intros game. cbv zeta.
      apply keeps_bind; [exact _ | frame_steps; intros b _; reflexivity | intros _].
      apply keeps_bind; [exact _ | | intros _].
      - destruct (game_players _) as [| p1 [| p2 [| p3 rest]]];
          try (apply keeps_ret; exact _).
        case_bool_decide as Hmode; [| apply keeps_ret; exact _].
        rewrite Hmode. apply settle_boards_frame.
      - unfold GameService.updateGame, RedisClient.setEx_game, emit, setTimeout.
        frame_steps; intros b _; reflexivity. }
    apply keeps_bind; [exact _ | |].
    - frame_steps; intros b _; reflexivity.
    - intros [game |]; [apply Hrest | apply keeps_ret; exact _]. }
  unfold leaderboard_of, exec. rewrite (Hkeeps w board Hboard). reflexivity.
Qed.

Lemma endGame_writes_chess_board_only_witness :
  leaderboard_of (exec (GameService.endGame "game-1" (Some "uuid-0"%string)
                          "completed" 8000) game_running) "global"
  = leaderboard_of game_running "global".
Proof.
  apply (endGame_writes_chess_board_only game_running "game-1"
           (Some "uuid-0"%string) "completed" 8000 "global").
  discriminate.
Defined.

(** ** EloCalculator *)

Lemma getActualScore_valid (result : string) (actual : R) :
  EloCalculator.getActualScore (JStr result) = Some actual ->
  EloCalculator.is_result (JStr result) = true /\ (0 <= actual <= 1)%R.
Proof.
  unfold EloCalculator.getActualScore, EloCalculator.is_result.
  repeat case_bool_decide; intros Ha; inversion Ha; subst; cbn;
    (split; [reflexivity | lra]).
Qed.

Lemma calculateNewRating_numbers (p o k : R) (result : string) (actual : R) :
  EloCalculator.getActualScore (JStr result) = Some actual ->
  EloCalculator.calculateNewRating (JNum p) (JNum o) (JStr result) k
  = inr (integer (Math_round
                    (Rmax 100 (p + k * (actual
                                        - EloCalculator.calculateExpectedScore p o))))).
Proof.
  intros Ha. destruct (getActualScore_valid result actual Ha) as [Hres _].
  unfold EloCalculator.calculateNewRating, EloCalculator.validateInputs.
  cbn [typeof_number negb orb]. rewrite Hres. cbn [negb]. rewrite Ha. reflexivity.
Qed.

Lemma expected_antitone (p o1 o2 : R) :
  (o1 <= o2)%R ->
  (EloCalculator.calculateExpectedScore p o2
   <= EloCalculator.calculateExpectedScore p o1)%R.
Proof.
  intros Ho. unfold EloCalculator.calculateExpectedScore.
  assert (H1 : (0 < Rpower 10 ((o1 - p) / 400))%R) by apply exp_pos.
  assert (Hle : (Rpower 10 ((o1 - p) / 400) <= Rpower 10 ((o2 - p) / 400))%R)
    by (apply Rle_Rpower; lra).
  unfold Rdiv. rewrite !Rmult_1_l.
  apply Rinv_le_contravar; lra.
Qed.

(** X21. The new rating is monotone: with the same own rating and a
    non-negative K, a result that is at least as good against an opponent
    rated at least as high never gives a lower new rating.  (In particular
    loss, draw, win are in this order, and beating a stronger opponent pays
    at least as much.) *)
Theorem calculateNewRating_monotone (p o1 o2 k : R) (result1 result2 : string)
    (actual1 actual2 : R) :
  EloCalculator.getActualScore (JStr result1) = Some actual1 ->
  EloCalculator.getActualScore (JStr result2) = Some actual2 ->
  (actual1 <= actual2)%R -> (o1 <= o2)%R -> (0 <= k)%R ->
  exists r1 r2,
    EloCalculator.calculateNewRating (JNum p) (JNum o1) (JStr result1) k
    = inr (integer r1)
    /\ EloCalculator.calculateNewRating (JNum p) (JNum o2) (JStr result2) k
       = inr (integer r2)
    /\ r1 <= r2.
Proof.
  intros Ha1 Ha2 Ha Ho Hk.
  rewrite (calculateNewRating_numbers p o1 k result1 actual1 Ha1).
  rewrite (calculateNewRating_numbers p o2 k result2 actual2 Ha2).
  eexists _, _. split; [reflexivity |]. split; [reflexivity |].
  apply Math_round_mono, Rle_max_compat_l.
  pose proof (expected_antitone p o1 o2 Ho). nra.
Qed.

Lemma calculateNewRating_monotone_witness :
  exists r1 r2,
    EloCalculator.calculateNewRating (JNum 1200) (JNum 1000) (JStr "loss") 32
    = inr (integer r1)
    /\ EloCalculator.calculateNewRating (JNum 1200) (JNum 1400) (JStr "win") 32
       = inr (integer r2)
    /\ r1 <= r2.
Proof.
  apply (calculateNewRating_monotone 1200 1000 1400 32 "loss" "win" 0 1).
  - reflexivity.
  - reflexivity.
  - lra.
  - lra.
  - lra.
Defined.

Lemma Math_round_near (x : R) :
  (x - / 2 < IZR (Math_round x) <= x + / 2)%R.
Proof.
  unfold Math_round. pose proof (Zfloor_bound (x + / 2)). lra.
Qed.

(** X22. One game moves a rating by a bounded amount: for numeric ratings, a
    valid result and a non-negative K, [calculateRatingChange] returns the
    new rating minus the old one; the change is above [-K - 1/2] and, for a
    rating of at least 100, at most [K + 1/2]. *)
Theorem calculateRatingChange_bounded (p o k : R) (result : string) (actual : R) :
  EloCalculator.getActualScore (JStr result) = Some actual -> (0 <= k)%R ->
  exists newRating,
    EloCalculator.calculateNewRating (JNum p) (JNum o) (JStr result) k
    = inr (integer newRating)
    /\ EloCalculator.calculateRatingChange (JNum p) (JNum o) (JStr result) k
       = inr (Num (IZR newRating - p))
    /\ (- k - / 2 < IZR newRating - p)%R
    /\ ((100 <= p)%R -> (IZR newRating - p <= k + / 2)%R).
Proof.
  intros Ha Hk. destruct (getActualScore_valid result actual Ha) as [Hres Hrange].
  eexists. split; [apply calculateNewRating_numbers; exact Ha |].
  split.
  { unfold EloCalculator.calculateRatingChange.
    rewrite (calculateNewRating_numbers p o k result actual Ha).
    unfold EloCalculator.validateInputs. cbn [typeof_number negb orb].
    rewrite Hres. reflexivity. }
  set (x := Rmax 100 (p + k * (actual - EloCalculator.calculateExpectedScore p o))).
  pose proof (Math_round_near x) as [Hlo Hhi].
  pose proof (expected_pos p o) as Hpos. pose proof (expected_lt_1 p o) as Hlt.
  split.
  - assert (Hx : (p - k <= x)%R).
    { unfold x. etransitivity; [| apply Rmax_r]. nra. }
    lra.
  - intros Hp. assert (Hx : (x <= p + k)%R).
    { unfold x. apply Rmax_lub; nra. }
    lra.
Qed.

Lemma calculateRatingChange_bounded_witness :
  exists newRating,
    EloCalculator.calculateNewRating (JNum 1200) (JNum 1000) (JStr "draw") 32
    = inr (integer newRating)
    /\ EloCalculator.calculateRatingChange (JNum 1200) (JNum 1000) (JStr "draw") 32
       = inr (Num (IZR newRating - 1200))
    /\ (- 32 - / 2 < IZR newRating - 1200)%R
    /\ ((100 <= 1200)%R -> (IZR newRating - 1200 <= 32 + / 2)%R).
Proof.
  apply (calculateRatingChange_bounded 1200 1000 32 "draw" (/ 2)).
  - reflexivity.
  - lra.
Defined.

Lemma typeof_number_cases (v : jsval) :
  typeof_number v = true -> exists n, v = JNumber n.
Proof. destruct v; cbn; try discriminate; eauto. Qed.

Lemma is_result_score (result : jsval) :
  EloCalculator.is_result result = true ->
  exists a, EloCalculator.getActualScore result = Some a.
Proof.
  unfold EloCalculator.is_result, EloCalculator.getActualScore.
  destruct result as [| | b | s | n]; try discriminate.
  repeat case_bool_decide; cbn; try discriminate; eauto.
Qed.

(** [calculateNewRating] on two numbers and a valid result, by the
    difference of the ratings and the own rating. *)
Lemma calculateNewRating_typed (p o : number) (result : jsval) (k : R) :
  EloCalculator.is_result result = true ->
  let out := EloCalculator.calculateNewRating (JNumber p) (JNumber o) result k in
  match number_minus o p, p with
  | NaN, _ => out = inr NaN
  | _, PlusInfinity => out = inr PlusInfinity
  | _, _ => exists z, out = inr (integer z) /\ 100 <= z
  end.
Proof.
  intros Hres out. subst out. destruct (is_result_score result Hres) as [a Ha].
  unfold EloCalculator.calculateNewRating, EloCalculator.validateInputs.
  cbn [typeof_number negb orb]. rewrite Hres. cbn [negb]. rewrite Ha.
  unfold EloCalculator.expectedScore.
  destruct p as [x | | |], o as [y | | |]; cbn; try reflexivity;
    try (eexists; split;
         [unfold integer; reflexivity | rewrite Math_round_Rmax; lia]).
  all: exists (Math_round 100); split;
    [reflexivity | rewrite (Math_round_IZR 100); lia].
Qed.

Lemma integer_inj (z1 z2 : Z) : integer z1 = integer z2 -> z1 = z2.
Proof. unfold integer. intros H. inversion H. apply eq_IZR. assumption. Qed.

(** X23. What [calculateNewRating] does with each kind of input.  It throws
    exactly when a rating is not of type number or the result is not [win],
    [loss] or [draw].  Otherwise it returns a number, by the two ratings (for
    a K-factor of at most 1000 in absolute value, with which the sum cannot
    overflow): [NaN] exactly when their difference is [NaN] (a rating is
    [NaN], or both are the same infinity), which is no error; [Infinity]
    exactly when, the difference not being [NaN], the own rating is
    [Infinity]; and in every other case an integer, never below 100.  It never
    returns [-Infinity]. *)
Theorem calculateNewRating_outcomes (playerRating opponentRating result : jsval)
    (k : R) :
  let out := EloCalculator.calculateNewRating playerRating opponentRating result k in
  let typed := typeof_number playerRating && typeof_number opponentRating
               && EloCalculator.is_result result in
  ((exists e, out = inl e) <-> typed = false)
  /\ (forall p o,
        (- 1000 <= k <= 1000)%R ->
        typed = true -> playerRating = JNumber p -> opponentRating = JNumber o ->
        (out = inr NaN <-> number_minus o p = NaN)
        /\ (out = inr PlusInfinity <->
            number_minus o p <> NaN /\ p = PlusInfinity)
        /\ ((exists z, out = inr (integer z)) <->
            number_minus o p <> NaN /\ p <> PlusInfinity)
        /\ out <> inr MinusInfinity)
  /\ (forall z, out = inr (integer z) -> 100 <= z)
  /\ (number_minus PlusInfinity PlusInfinity = NaN
      /\ number_minus MinusInfinity MinusInfinity = NaN
      /\ forall n, number_minus n NaN = NaN /\ number_minus NaN n = NaN).
Proof.
  intros out typed.
  assert (Hthrows : (exists e, out = inl e) <-> typed = false).
  { subst out typed.
    unfold EloCalculator.calculateNewRating, EloCalculator.validateInputs.
    destruct (typeof_number playerRating) eqn:Hp,
      (typeof_number opponentRating) eqn:Ho,
      (EloCalculator.is_result result) eqn:Hres; cbn [negb orb andb];
      try (split; [reflexivity | intros _; eauto]).
    split; [| discriminate]. intros [e He]. exfalso.
    destruct (typeof_number_cases _ Hp) as [p ->].
    destruct (typeof_number_cases _ Ho) as [o ->].
    destruct (EloCalculator.getActualScore result);
      [destruct (EloCalculator.expectedScore p o) |]; discriminate. }
  assert (Hcases : forall p o,
            typed = true -> playerRating = JNumber p -> opponentRating = JNumber o ->
            match number_minus o p, p with
            | NaN, _ => out = inr NaN
            | _, PlusInfinity => out = inr PlusInfinity
            | _, _ => exists z, out = inr (integer z) /\ 100 <= z
            end).
  { intros p o Ht -> ->. subst typed. cbn [typeof_number andb] in Ht.
    apply (calculateNewRating_typed p o result k Ht). }
  split; [exact Hthrows |]. split; [| split].
  - intros p o _ Ht Hp Ho. specialize (Hcases p o Ht Hp Ho).
    destruct (number_minus o p) as [d | | |] eqn:Hd, p as [x | | |];
      try destruct Hcases as (z & Hz & _); try rewrite Hz; try rewrite Hcases;
      unfold integer;
      (split; [split; [try discriminate; try reflexivity | try discriminate;
                       try reflexivity] |]);
      (split; [split; [try discriminate; try (intros _; split; discriminate);
                       try (intros _; split; [discriminate | reflexivity])
                      | try (intros [H _]; congruence);
                        try (intros [_ H]; congruence); try reflexivity] |]);
      (split; [split; [try (intros [z' Hz']; discriminate);
                       try (intros _; split; discriminate)
                      | try (intros [H _]; congruence);
                        try (intros [_ H]; congruence); eauto] |]);
      try discriminate.
  - intros z Hz. subst typed.
    destruct (typeof_number playerRating && typeof_number opponentRating
              && EloCalculator.is_result result) eqn:Ht.
    + pose proof Ht as Ht'. apply andb_true_iff in Ht' as [Ht' Hres].
      apply andb_true_iff in Ht' as [Hp Ho].
      destruct (typeof_number_cases _ Hp) as [p Hpv].
      destruct (typeof_number_cases _ Ho) as [o Hov].
      specialize (Hcases p o eq_refl Hpv Hov).
      destruct (number_minus o p), p;
        try (rewrite Hcases in Hz; discriminate);
        destruct Hcases as (z' & Hz' & Hfloor); rewrite Hz' in Hz;
        inversion Hz as [Heq]; apply eq_IZR in Heq; subst; exact Hfloor.
    + destruct Hthrows as [_ Hthrows]. destruct (Hthrows eq_refl) as [e He].
      rewrite He in Hz. discriminate.
  - split; [reflexivity |]. split; [reflexivity |].
    intros n. destruct n; split; reflexivity.
Qed.

(** ** MatchmakingService.estimateMatchTime and getQueueStatus *)

(** X24. The estimate of [estimateMatchTime].  For a mode whose number of
    players per match is a number (every mode that does not name a property of
    [Object.prototype]), the queue is told to wait for more players exactly
    when it is shorter than one match; otherwise the estimate is between 5 and
    25 seconds, it never grows when the queue grows, and it is 5 seconds once
    the queue can fill five matches.  For the other modes the answer is
    [~NaNs], whatever the queue. *)
Theorem estimateMatchTime_estimate (q : Z) (gameMode : string) :
  (forall n,
     MatchmakingService.getPlayersPerMatch gameMode = MatchmakingService.Players n ->
     let ppm := Z.of_nat n in
     (estimateMatchTime q gameMode = "Waiting for more players"%string <-> q < ppm)
     /\ (forall s, estimatedSeconds q gameMode = Some s ->
           5 <= s <= 25
           /\ estimateMatchTime q gameMode = ("~" +:+ pretty s +:+ "s")%string)
     /\ (forall q' s s', q <= q' ->
           estimatedSeconds q gameMode = Some s ->
           estimatedSeconds q' gameMode = Some s' -> s' <= s)
     /\ (5 * ppm <= q -> estimateMatchTime q gameMode = "~5s"%string))
  /\ (MatchmakingService.getPlayersPerMatch gameMode = MatchmakingService.Inherited ->
      estimateMatchTime q gameMode = "~NaNs"%string)
  /\ (inherited gameMode = false ->
      exists n, MatchmakingService.getPlayersPerMatch gameMode
                = MatchmakingService.Players n).
Proof.
  split; [| split; [| apply getPlayersPerMatch_number]].
  2:{ intros Hppm. unfold estimateMatchTime. rewrite Hppm. reflexivity. }
  intros n Hppm ppm. pose proof (getPlayersPerMatch_pos gameMode n Hppm) as Hpos.
  assert (H2 : 2 <= ppm) by (subst ppm; lia).
  unfold estimateMatchTime, estimatedSeconds. rewrite Hppm. fold ppm. cbv zeta.
  split.
  { destruct (Z.ltb_spec q ppm) as [Hlt | Hge].
    - split; [intros _; exact Hlt | reflexivity].
    - split; [| lia]. intros Heq. exfalso.
      apply (f_equal (fun t => String.get 0 t)) in Heq. cbn in Heq. discriminate. }
  split.
  { intros s. destruct (Z.ltb_spec q ppm) as [Hlt | Hge]; [discriminate |].
    intros Hs. inversion Hs. subst s. split; [| reflexivity].
    assert (1 <= q / ppm) by (apply Z.div_le_lower_bound; lia). lia. }
  split.
  { intros q' s s' Hq.
    destruct (Z.ltb_spec q ppm) as [Hlt | Hge]; [discriminate |].
    destruct (Z.ltb_spec q' ppm) as [Hlt' | Hge']; [discriminate |].
    intros Hs Hs'. inversion Hs. inversion Hs'. subst s s'.
    assert (q / ppm <= q' / ppm) by (apply Z.div_le_mono; lia). lia. }
  intros Hmany. destruct (Z.ltb_spec q ppm) as [Hlt | Hge]; [lia |].
  assert (5 <= q / ppm) by (apply Z.div_le_lower_bound; lia).
  replace (Z.max 5 (30 - q / ppm * 5)) with 5 by lia. reflexivity.
Qed.

Lemma zCard_queue_ok (w : World) (gameMode : string) :
  fault_free w ->
  RedisClient.zCard_queue gameMode w
  = (w, inr (Z.of_nat (length (queue_of w gameMode)))).
Proof.
  intros Hff. unfold RedisClient.zCard_queue. rewrite command_ok by exact Hff.
  unfold gets, zCard, queue_of. rewrite length_fmap. reflexivity.
Qed.

(** The average wait, in seconds, of the members of a queue. *)
Lemma mode_status_ok (w : World) (now : Z) (gameMode : string) :
  fault_free w ->
  let members := queue_of w gameMode in
  let count := Z.of_nat (length members) in
  let avgWaitTime : R :=
    if bool_decide (0 < length members)%nat
    then (IZR (total_wait now members) / INR (length members))%R
    else 0%R in
  mode_status now gameMode w
  = (w, inr (mkModeStatus count (Math_round (avgWaitTime / 1000))
               (estimateMatchTime count gameMode))).
Proof.
  intros Hff. unfold mode_status.
  rewrite bind_run, zCard_queue_ok by exact Hff. cbv beta iota.
  rewrite bind_run, zRange_queue_ok by exact Hff. reflexivity.
Qed.

Lemma total_wait_bounds (now lo hi : Z) (members : list QueueEntry) :
  (forall e, e ∈ members -> lo <= now - entry_joinedAt e <= hi) ->
  Z.of_nat (length members) * lo <= total_wait now members
  <= Z.of_nat (length members) * hi.
Proof.
  unfold total_wait. intros Hall.
  assert (Hgen : forall acc,
            acc + Z.of_nat (length members) * lo
            <= foldl (fun sum player => sum + (now - entry_joinedAt player)) acc members
            <= acc + Z.of_nat (length members) * hi).
  { induction members as [| e rest IH]; intros acc; cbn [foldl length]; [lia |].
    specialize (IH (fun x Hx => Hall x ltac:(right; exact Hx))
                  (acc + (now - entry_joinedAt e))).
    pose proof (Hall e ltac:(left)). lia. }
  specialize (Hgen 0). lia.
Qed.

Lemma average_wait_bounds (now lo hi : Z) (members : list QueueEntry) :
  members <> [] ->
  (forall e, e ∈ members -> lo * 1000 <= now - entry_joinedAt e <= hi * 1000) ->
  lo <= Math_round (IZR (total_wait now members) / INR (length members) / 1000) <= hi.
Proof.
  intros Hne Hall.
  pose proof (total_wait_bounds now (lo * 1000) (hi * 1000) members Hall) as [Hlo Hhi].
  rewrite INR_IZR_INZ.
  assert (Hlen : (1 <= Z.of_nat (length members))).
  { destruct members; [contradiction | cbn [length]; lia]. }
  apply IZR_le in Hlo, Hhi, Hlen.
  rewrite !mult_IZR in Hlo, Hhi.
  set (L := IZR (Z.of_nat (length members))) in *.
  set (t := IZR (total_wait now members)) in *.
  assert (Hi : (0 < / L)%R) by (apply Rinv_0_lt_compat; lra).
  assert (HLi : (L * / L = 1)%R) by (apply Rinv_r; lra).
  assert (Hbounds : (IZR lo <= t / L / 1000 <= IZR hi)%R).
  { unfold Rdiv. split.
    - assert (IZR lo * 1000 <= t * / L)%R.
      { replace (IZR lo * 1000)%R with (L * (IZR lo * 1000) * / L)%R
          by (field; lra).
        apply Rmult_le_compat_r; lra. }
      lra.
    - assert (t * / L <= IZR hi * 1000)%R.
      { replace (IZR hi * 1000)%R with (L * (IZR hi * 1000) * / L)%R
          by (field; lra).
        apply Rmult_le_compat_r; lra. }
      lra. }
  destruct Hbounds as [Hl Hh].
  apply Math_round_mono in Hl, Hh. rewrite Math_round_IZR in Hl, Hh. lia.
Qed.

Lemma queue_status_loop_ok (w : World) (now : Z) (gameModes : list string) :
  fault_free w ->
  forall status,
  exists status',
    queue_status_loop now gameModes status w = (w, inr status')
    /\ (forall m, m ∉ gameModes -> status' !! m = status !! m)
    /\ (forall m, m ∈ gameModes ->
          exists s, status' !! m = Some s /\ mode_status now m w = (w, inr s)).
Proof.
  intros Hff. induction gameModes as [| m0 rest IH]; intros status;
    cbn [queue_status_loop].
  - exists status. split; [reflexivity |]. split; [reflexivity |].
    intros m Hm. inversion Hm.
  - rewrite bind_run. pose proof (mode_status_ok w now m0 Hff) as Hm0.
    cbv zeta in Hm0. rewrite Hm0.
    match goal with
    | |- context [<[m0 := ?s0]> status] => set (s := s0) in *
    end.
    destruct (IH (<[m0 := s]> status)) as (status' & Hrun & Hout & Hin).
    exists status'. split; [exact Hrun |]. split.
    + intros m Hm. apply not_elem_of_cons in Hm as [Hne Hm].
      rewrite (Hout m Hm). apply lookup_insert_ne. congruence.
    + intros m Hm. destruct (decide (m ∈ rest)) as [Hrest | Hrest]; [auto |].
      apply elem_of_cons in Hm as [-> | Hm]; [| contradiction].
      exists s. rewrite (Hout m0 Hrest), lookup_insert_eq.
      split; [reflexivity | exact Hm0].
Qed.

(** X25. [getQueueStatus], the store answering, reads only: it returns one
    entry for each of the four modes and no other, with the number of
    members of the queue, the estimate for that number, and an average wait
    that is 0 for an empty queue and lies, in seconds, between the shortest
    and the longest wait otherwise. *)
Theorem getQueueStatus_reports_queues (w : World) (now : Z) :
  fault_free w ->
  exists status,
    getQueueStatus now w = (w, inr status)
    /\ (forall m, m ∉ MatchmakingService.gameModes -> status !! m = None)
    /\ (forall m, m ∈ MatchmakingService.gameModes ->
          exists s,
            status !! m = Some s
            /\ playersInQueue s = Z.of_nat (length (queue_of w m))
            /\ estimatedMatchTime s = estimateMatchTime (playersInQueue s) m
            /\ (queue_of w m = [] -> averageWaitTime s = 0)
            /\ (forall lo hi, queue_of w m <> [] ->
                  (forall e, e ∈ queue_of w m ->
                     lo * 1000 <= now - entry_joinedAt e <= hi * 1000) ->
                  lo <= averageWaitTime s <= hi)).
Proof.
  intros Hff. unfold getQueueStatus.
  destruct (queue_status_loop_ok w now MatchmakingService.gameModes Hff ∅)
    as (status & Hrun & Hout & Hin).
  exists status. split; [exact Hrun |]. split.
  - intros m Hm. rewrite (Hout m Hm). apply lookup_empty.
  - intros m Hm. destruct (Hin m Hm) as (s & Hs & Hstatus).
    rewrite (mode_status_ok w now m Hff) in Hstatus. cbv zeta in Hstatus.
    inversion Hstatus as [Heq]. clear Hstatus.
    exists s. split; [exact Hs |]. rewrite <- Heq. cbn.
    split; [reflexivity |]. split; [reflexivity |]. split.
    + intros Hempty. rewrite Hempty. cbn.
      rewrite bool_decide_eq_false_2 by lia.
      replace (0 / 1000)%R with (IZR 0) by lra. apply Math_round_IZR.
    + intros lo hi Hne Hall.
      rewrite bool_decide_eq_true_2
        by (destruct (queue_of w m); [contradiction | cbn; lia]).
      apply average_wait_bounds; assumption.
Qed.

Lemma getQueueStatus_reports_queues_witness :
  exists status,
    getQueueStatus 5012 both_queued = (both_queued, inr status)
    /\ (forall m, m ∉ MatchmakingService.gameModes -> status !! m = None)
    /\ (forall m, m ∈ MatchmakingService.gameModes ->
          exists s,
            status !! m = Some s
            /\ playersInQueue s = Z.of_nat (length (queue_of both_queued m))
            /\ estimatedMatchTime s = estimateMatchTime (playersInQueue s) m
            /\ (queue_of both_queued m = [] -> averageWaitTime s = 0)
            /\ (forall lo hi, queue_of both_queued m <> [] ->
                  (forall e, e ∈ queue_of both_queued m ->
                     lo * 1000 <= 5012 - entry_joinedAt e <= hi * 1000) ->
                  lo <= averageWaitTime s <= hi)).
Proof.
  apply (getQueueStatus_reports_queues both_queued 5012).
  vm_compute. reflexivity.
Defined.

(** ** RateLimiter *)

Lemma rl_bind_run {A B} (m : RL A) (k : A -> RL B) (s : LimiterStore) :
  (m ≫= k) s = match m s with
                | (s', None) => (s', None)
                | (s', Some a) => k a s'
                end.
Proof. reflexivity. Qed.

Lemma rl_command_ok {A} (run : RL A) (s : LimiterStore) :
  fate s = [] -> RateLimiter.command run s = run s.
Proof. unfold RateLimiter.command. intros ->. reflexivity. Qed.

(** [isAllowed] while the store answers. *)
Lemma isAllowed_run (windowMs maxRequests : Z) (identifier : string) (now : Z)
    (s : LimiterStore) :
  fate s = [] ->
  let trimmed := zRemRangeByScore 0 (now - windowMs)
                   (RateLimiter.entries_of s identifier) in
  exists s',
    RateLimiter.isAllowed windowMs maxRequests identifier now s
    = (s', Some (negb (maxRequests <=? Z.of_nat (length trimmed))))
    /\ fate s' = []
    /\ RateLimiter.entries_of s' identifier
       = (if maxRequests <=? Z.of_nat (length trimmed) then trimmed
          else zAdd (fun m : string => m) now (pretty now) trimmed)
    /\ forall other, other <> identifier ->
         RateLimiter.entries_of s' other = RateLimiter.entries_of s other.
Proof.
  intros Hf trimmed. unfold RateLimiter.isAllowed. cbv zeta.
  rewrite rl_bind_run, rl_command_ok by exact Hf.
  unfold RateLimiter.update at 1. cbv beta iota. fold trimmed.
  set (s1 := mkLimiterStore (<[identifier := trimmed]> (rate_limit s)) (fate s)).
  assert (Hf1 : fate s1 = []) by exact Hf.
  assert (He1 : RateLimiter.entries_of s1 identifier = trimmed).
  { unfold RateLimiter.entries_of, s1. cbn. rewrite lookup_insert_eq. reflexivity. }
  assert (Ho1 : forall other, other <> identifier ->
                  RateLimiter.entries_of s1 other = RateLimiter.entries_of s other).
  { intros other Hne. unfold RateLimiter.entries_of, s1. cbn.
    rewrite lookup_insert_ne by congruence. reflexivity. }
  rewrite rl_bind_run, rl_command_ok by exact Hf1. cbv beta iota.
  rewrite He1. unfold zCard.
  destruct (maxRequests <=? Z.of_nat (length trimmed)).
  - exists s1. split; [reflexivity |]. split; [exact Hf1 |].
    split; [exact He1 | exact Ho1].
  - rewrite rl_bind_run, rl_command_ok by exact Hf1.
    unfold RateLimiter.update. cbv beta iota. rewrite He1.
    rewrite rl_bind_run, rl_command_ok by exact Hf1.
    eexists. split; [reflexivity |]. split; [exact Hf1 |]. split.
    + unfold RateLimiter.entries_of. cbn. rewrite lookup_insert_eq. reflexivity.
    + intros other Hne. rewrite <- (Ho1 other Hne).
      unfold RateLimiter.entries_of. cbn.
      rewrite lookup_insert_ne by congruence. reflexivity.
Qed.

Lemma zAdd_length {A} (text : A -> string) (score : Z) (member : A)
    (l : list (A * Z)) :
  (length (zAdd text score member l) <= S (length l))%nat.
Proof.
  rewrite (Permutation_length (zAdd_perm text score member l)). cbn.
  apply le_n_S. unfold zRem. apply length_filter.
Qed.

(** X26. The set of recorded requests of an identifier never outgrows the
    limit: after [isAllowed], the store answering, it holds at most
    [maxRequests] members if it did before (and never more than before
    otherwise).  What it holds are the members from before that are not
    older than the window, and the request itself if it was allowed; a
    request that is refused is not recorded; the sets of the other
    identifiers are not touched. *)
Theorem isAllowed_keeps_within_limit (windowMs maxRequests : Z) (identifier : string)
    (now : Z) (s : LimiterStore) :
  fate s = [] ->
  let before := RateLimiter.entries_of s identifier in
  let run := RateLimiter.isAllowed windowMs maxRequests identifier now s in
  let after := RateLimiter.entries_of run.1 identifier in
  Z.of_nat (length after) <= Z.max maxRequests (Z.of_nat (length before))
  /\ (forall e, e ∈ after ->
        (e ∈ before /\ ~ (0 <= e.2 <= now - windowMs)) \/ e = (pretty now, now))
  /\ (run.2 = Some true -> (pretty now, now) ∈ after)
  /\ (run.2 = Some false -> after = zRemRangeByScore 0 (now - windowMs) before)
  /\ (forall other, other <> identifier ->
        RateLimiter.entries_of run.1 other = RateLimiter.entries_of s other).
Proof.
  intros Hf before run after.
  destruct (isAllowed_run windowMs maxRequests identifier now s Hf)
    as (s' & Hrun & _ & Hafter & Hother).
  subst run after. rewrite Hrun. cbn [fst snd]. rewrite Hafter.
  fold before.
  set (trimmed := zRemRangeByScore 0 (now - windowMs) before).
  assert (Htrim : (length trimmed <= length before)%nat)
    by apply length_filter.
  destruct (Z.leb_spec maxRequests (Z.of_nat (length trimmed))) as [Hfull | Hroom];
    cbn [negb].
  - split; [lia |]. split.
    { intros e He. left. apply list_elem_of_filter in He. tauto. }
    split; [discriminate |]. split; [reflexivity | exact Hother].
  - split.
    { pose proof (zAdd_length (fun m : string => m) now (pretty now) trimmed). lia. }
    split.
    { intros e He. rewrite zAdd_perm in He.
      apply elem_of_cons in He as [-> | He]; [right; reflexivity |].
      left. apply zRem_elem in He as [_ He].
      apply list_elem_of_filter in He. tauto. }
    split; [intros _; apply zAdd_elem |].
    split; [discriminate | exact Hother].
Qed.

Lemma isAllowed_keeps_within_limit_witness :
  let s := mkLimiterStore ∅ [] in
  let before := RateLimiter.entries_of s "10.0.0.1" in
  let run := RateLimiter.isAllowed 60000 100 "10.0.0.1" 5000 s in
  let after := RateLimiter.entries_of run.1 "10.0.0.1" in
  Z.of_nat (length after) <= Z.max 100 (Z.of_nat (length before))
  /\ (forall e, e ∈ after ->
        (e ∈ before /\ ~ (0 <= e.2 <= 5000 - 60000)) \/ e = (pretty 5000, 5000))
  /\ (run.2 = Some true -> (pretty 5000, 5000) ∈ after)
  /\ (run.2 = Some false -> after = zRemRangeByScore 0 (5000 - 60000) before)
  /\ (forall other, other <> "10.0.0.1"%string ->
        RateLimiter.entries_of run.1 other = RateLimiter.entries_of s other).
Proof.
  apply (isAllowed_keeps_within_limit 60000 100 "10.0.0.1" 5000 (mkLimiterStore ∅ [])).
  reflexivity.
Defined.

Lemma filter_all_elem {A} (P : A -> Prop) `{!forall x, Decision (P x)} (l : list A) :
  (forall x, x ∈ l -> P x) -> filter P l = l.
Proof.
  induction l as [| x l IH]; intros HP; [reflexivity |].
  rewrite filter_cons_True by (apply HP; left). f_equal.
  apply IH. intros y Hy. apply HP. right. exact Hy.
Qed.

Lemma zRemRangeByScore_recorded (windowMs now : Z) (l : list (string * Z)) :
  0 < windowMs ->
  zRemRangeByScore 0 (now - windowMs)
    (zAdd (fun m : string => m) now (pretty now)
       (zRemRangeByScore 0 (now - windowMs) l))
  = zAdd (fun m : string => m) now (pretty now)
      (zRemRangeByScore 0 (now - windowMs) l).
Proof.
  intros Hw. unfold zRemRangeByScore at 1.
  apply filter_all_elem. intros e He. rewrite zAdd_perm in He.
  apply elem_of_cons in He as [-> | He]; [cbn; lia |].
  apply zRem_elem in He as [_ He].
  apply list_elem_of_filter in He. tauto.
Qed.

(** One more request at the time of a recorded request, with room left. *)
Lemma middleware_same_millisecond (windowMs maxRequests : Z) (identifier : string)
    (now : Z) (recorded : list (string * Z)) (s : LimiterStore) :
  fate s = [] -> 0 < windowMs ->
  RateLimiter.entries_of s identifier
  = zAdd (fun m : string => m) now (pretty now)
      (zRemRangeByScore 0 (now - windowMs) recorded) ->
  Z.of_nat (length (RateLimiter.entries_of s identifier)) < maxRequests ->
  exists s',
    RateLimiter.middleware windowMs maxRequests identifier now s
    = (s', RateLimiter.next)
    /\ fate s' = []
    /\ RateLimiter.entries_of s' identifier = RateLimiter.entries_of s identifier.
Proof.
  intros Hf Hw Hrec Hroom. unfold RateLimiter.middleware.
  destruct (isAllowed_run windowMs maxRequests identifier now s Hf)
    as (s' & Hrun & Hf' & Hafter & _).
  rewrite Hrun. cbv zeta in Hafter.
  rewrite Hrec, zRemRangeByScore_recorded in * by exact Hw.
  rewrite (proj2 (Z.leb_gt _ _) Hroom) in *. cbn [negb].
  exists s'. split; [reflexivity |]. split; [exact Hf' |].
  rewrite Hafter. apply zAdd_idem.
Qed.

(** X27. Requests that arrive in the same millisecond are counted once: the
    member recorded for a request is the text of its time, so, the store
    answering and the window being positive, when the set of an identifier
    trimmed to the window has room for two more requests, a burst of any
    number of requests at one time is let through entirely, and only one
    member is recorded for it. *)
Theorem burst_in_one_millisecond_passes (windowMs maxRequests : Z)
    (identifier : string) (now : Z) (n : nat) (s : LimiterStore) :
  fate s = [] -> 0 < windowMs ->
  let trimmed := zRemRangeByScore 0 (now - windowMs)
                   (RateLimiter.entries_of s identifier) in
  Z.of_nat (length trimmed) + 1 < maxRequests ->
  let run := RateLimiter.burst windowMs maxRequests identifier now n s in
  run.2 = replicate n RateLimiter.next
  /\ ((0 < n)%nat ->
      RateLimiter.entries_of run.1 identifier
      = zAdd (fun m : string => m) now (pretty now) trimmed).
Proof.
  intros Hf Hw trimmed Hroom run. subst run.
  destruct n as [| n]; [split; [reflexivity | lia] |].
  destruct (isAllowed_run windowMs maxRequests identifier now s Hf)
    as (s1 & Hrun & Hf1 & Hafter & _).
  cbv zeta in Hafter, Hrun. fold trimmed in Hafter, Hrun.
  assert (Hlt : (maxRequests <=? Z.of_nat (length trimmed)) = false)
    by (apply Z.leb_gt; lia).
  rewrite Hlt in *. cbn [negb] in Hrun.
  assert (Hfirst : RateLimiter.middleware windowMs maxRequests identifier now s
                   = (s1, RateLimiter.next)).
  { unfold RateLimiter.middleware. rewrite Hrun. reflexivity. }
  cbn [RateLimiter.burst]. rewrite Hfirst.
  assert (Hlen : Z.of_nat (length (RateLimiter.entries_of s1 identifier))
                 < maxRequests).
  { rewrite Hafter.
    pose proof (zAdd_length (fun m : string => m) now (pretty now) trimmed). lia. }
  clear Hrun Hlt.
  assert (Hrest : forall k s', fate s' = [] ->
            RateLimiter.entries_of s' identifier
            = zAdd (fun m : string => m) now (pretty now) trimmed ->
            (RateLimiter.burst windowMs maxRequests identifier now k s').2
            = replicate k RateLimiter.next
            /\ RateLimiter.entries_of
                 (RateLimiter.burst windowMs maxRequests identifier now k s').1
                 identifier
               = zAdd (fun m : string => m) now (pretty now) trimmed).
  { induction k as [| k IH]; intros s' Hf' He'; [split; [reflexivity | exact He'] |].
    cbn [RateLimiter.burst].
    destruct (middleware_same_millisecond windowMs maxRequests identifier now
                (RateLimiter.entries_of s identifier) s' Hf' Hw He')
      as (s2 & Hm & Hf2 & He2).
    { rewrite He', <- Hafter. exact Hlen. }
    rewrite Hm. destruct (IH s2 Hf2 ltac:(congruence)) as [Hr He].
    destruct (RateLimiter.burst windowMs maxRequests identifier now k s2)
      as [s3 rs]. cbn in *. split; [f_equal; exact Hr | exact He]. }
  destruct (Hrest n s1 Hf1 Hafter) as [Hr He].
  destruct (RateLimiter.burst windowMs maxRequests identifier now n s1) as [s3 rs].
  cbn in *. split; [f_equal; exact Hr | intros _; exact He].
Qed.

Lemma burst_in_one_millisecond_passes_witness :
  let s := mkLimiterStore ∅ [] in
  let trimmed := zRemRangeByScore 0 (5000 - 60000)
                   (RateLimiter.entries_of s "10.0.0.1") in
  let run := RateLimiter.burst 60000 2 "10.0.0.1" 5000 50 s in
  run.2 = replicate 50 RateLimiter.next
  /\ ((0 < 50)%nat ->
      RateLimiter.entries_of run.1 "10.0.0.1"
      = zAdd (fun m : string => m) 5000 (pretty 5000) trimmed).
Proof.
  apply (burst_in_one_millisecond_passes 60000 2 "10.0.0.1" 5000 50
           (mkLimiterStore ∅ [])).
  - reflexivity.
  - lia.
  - vm_compute. reflexivity.
Defined.

(** ** RabbitMQClient *)

Lemma connect_loop_failed (broker : nat -> RabbitMQClient.Attempt) (delayMs : Z)
    (attempt rest : nat) (c : RabbitMQClient.Client) :
  broker attempt <> RabbitMQClient.goes_through ->
  RabbitMQClient.connect_loop broker delayMs attempt (S rest) c
  = match rest with
    | O => (RabbitMQClient.attempted (broker attempt) c, false)
    | S _ =>
        RabbitMQClient.connect_loop broker delayMs (S attempt) rest
          (RabbitMQClient.sleep delayMs (RabbitMQClient.attempted (broker attempt) c))
    end.
Proof.
  intros Hfail. cbn [RabbitMQClient.connect_loop].
  destruct (broker attempt); [reflexivity .. | contradiction].
Qed.

Lemma attempted_counts (met : RabbitMQClient.Attempt) (c : RabbitMQClient.Client) :
  RabbitMQClient.attempts_made (RabbitMQClient.attempted met c)
  = S (RabbitMQClient.attempts_made c)
  /\ RabbitMQClient.slept (RabbitMQClient.attempted met c) = RabbitMQClient.slept c.
Proof. destruct met; split; reflexivity. Qed.

Lemma connect_loop_spec (broker : nat -> RabbitMQClient.Attempt) (delayMs : Z)
    (remaining : nat) :
  forall (attempt : nat) (c : RabbitMQClient.Client),
  let r := RabbitMQClient.connect_loop broker delayMs attempt remaining c in
  (forall k, (attempt <= k < attempt + remaining)%nat ->
     broker k = RabbitMQClient.goes_through ->
     (forall j, (attempt <= j < k)%nat -> broker j <> RabbitMQClient.goes_through) ->
     r.2 = true
     /\ RabbitMQClient.attempts_made r.1
        = (RabbitMQClient.attempts_made c + (k - attempt) + 1)%nat
     /\ RabbitMQClient.slept r.1
        = RabbitMQClient.slept c + Z.of_nat (k - attempt) * delayMs
     /\ RabbitMQClient.channel r.1 = true)
  /\ ((0 < remaining)%nat ->
      (forall k, (attempt <= k < attempt + remaining)%nat ->
         broker k <> RabbitMQClient.goes_through) ->
      r.2 = false
      /\ RabbitMQClient.attempts_made r.1
         = (RabbitMQClient.attempts_made c + remaining)%nat
      /\ RabbitMQClient.slept r.1
         = RabbitMQClient.slept c + Z.of_nat (remaining - 1) * delayMs).
Proof.
  induction remaining as [| rest IH]; intros attempt c r; subst r.
  - split; [intros k Hk; lia | lia].
  - destruct (decide (broker attempt = RabbitMQClient.goes_through)) as [Hgo | Hfail].
    + cbn [RabbitMQClient.connect_loop]. rewrite Hgo. split.
      * intros k Hk _ Hbefore.
        assert (k = attempt) as ->.
        { destruct (decide (k = attempt)) as [-> | Hne]; [reflexivity |].
          exfalso. apply (Hbefore attempt); [lia | exact Hgo]. }
        cbn. split; [reflexivity |]. split; [lia |].
        split; [rewrite Nat.sub_diag; lia | reflexivity].
      * intros _ Hnone. exfalso. apply (Hnone attempt); [lia | exact Hgo].
    + rewrite connect_loop_failed by exact Hfail.
      destruct (attempted_counts (broker attempt) c) as [Hcount Hslept].
      destruct rest as [| rest'].
      * split.
        -- intros k Hk Hgo. assert (k = attempt) as -> by lia. contradiction.
        -- intros _ _. cbn [fst snd]. rewrite Hcount, Hslept.
           split; [reflexivity |]. split; [lia | cbn; lia].
      * specialize (IH (S attempt)
                      (RabbitMQClient.sleep delayMs
                         (RabbitMQClient.attempted (broker attempt) c))).
        cbv zeta in IH. destruct IH as [Hfound Hnever].
        cbn [RabbitMQClient.sleep RabbitMQClient.attempts_made RabbitMQClient.slept]
          in Hfound, Hnever.
        rewrite Hcount, Hslept in Hfound, Hnever. split.
        -- intros k Hk Hgo Hbefore.
           assert (Hk' : (S attempt <= k < S attempt + S rest')%nat).
           { destruct (decide (k = attempt)) as [-> | ?]; [contradiction | lia]. }
           destruct (Hfound k Hk' Hgo ltac:(intros j Hj; apply Hbefore; lia))
             as (Hr & Ha & Hs & Hc).
           split; [exact Hr |]. split; [rewrite Ha; lia |]. split; [| exact Hc].
           rewrite Hs.
           replace (k - attempt)%nat with (S (k - S attempt)) by lia.
           rewrite Nat2Z.inj_succ. lia.
        -- intros _ Hnone.
           destruct (Hnever ltac:(lia) ltac:(intros k Hk; apply Hnone; lia))
             as (Hr & Ha & Hs).
           split; [exact Hr |]. split; [rewrite Ha; lia |].
           rewrite Hs.
           replace (S (S rest') - 1)%nat with (S (S rest' - 1)) by lia.
           rewrite Nat2Z.inj_succ. lia.
Qed.

(** X28. [connect] tries until the broker lets an attempt through: when the
    first of the [retries] attempts to go through is the [k]-th, it returns
    after [k] attempts and [k - 1] sleeps of [delayMs], and [publish] does
    not throw afterwards; when none of them goes through it throws after
    [retries] attempts and [retries - 1] sleeps; and with [retries] at most 0
    it returns at once without any attempt, leaving the channel unset, so
    that [publish] throws. *)
Theorem connect_retries_until_success (broker : nat -> RabbitMQClient.Attempt)
    (retries delayMs : Z) :
  let r := RabbitMQClient.connect broker retries delayMs RabbitMQClient.fresh in
  (forall k, (1 <= k <= Z.to_nat retries)%nat ->
     broker k = RabbitMQClient.goes_through ->
     (forall j, (1 <= j < k)%nat -> broker j <> RabbitMQClient.goes_through) ->
     r.2 = true /\ RabbitMQClient.attempts_made r.1 = k
     /\ RabbitMQClient.slept r.1 = (Z.of_nat k - 1) * delayMs
     /\ forall routingKey accepted,
          (RabbitMQClient.publish routingKey accepted r.1).2 = Some accepted)
  /\ (0 < retries ->
      (forall k, (1 <= k <= Z.to_nat retries)%nat ->
         broker k <> RabbitMQClient.goes_through) ->
      r.2 = false /\ RabbitMQClient.attempts_made r.1 = Z.to_nat retries
      /\ RabbitMQClient.slept r.1 = (retries - 1) * delayMs)
  /\ (retries <= 0 ->
      r = (RabbitMQClient.fresh, true)
      /\ forall routingKey accepted,
           (RabbitMQClient.publish routingKey accepted r.1).2 = None).
Proof.
  intros r. subst r. unfold RabbitMQClient.connect.
  destruct (connect_loop_spec broker delayMs (Z.to_nat retries) 1
              RabbitMQClient.fresh) as [Hfound Hnever].
  split.
  { intros k Hk Hgo Hbefore.
    destruct (Hfound k ltac:(lia) Hgo Hbefore) as (Hr & Ha & Hs & Hc).
    split; [exact Hr |]. split; [rewrite Ha; cbn; lia |].
    split.
    { rewrite Hs. cbn [RabbitMQClient.slept RabbitMQClient.fresh].
      replace (Z.of_nat (k - 1)) with (Z.of_nat k - 1) by lia. lia. }
    intros routingKey accepted. unfold RabbitMQClient.publish. rewrite Hc.
    reflexivity. }
  split.
  { intros Hpos Hnone.
    destruct (Hnever ltac:(lia) ltac:(intros k Hk; apply Hnone; lia))
      as (Hr & Ha & Hs).
    split; [exact Hr |]. split; [rewrite Ha; reflexivity |].
    rewrite Hs. cbn [RabbitMQClient.slept RabbitMQClient.fresh].
    replace (Z.of_nat (Z.to_nat retries - 1)) with (retries - 1) by lia. lia. }
  intros Hzero. replace (Z.to_nat retries) with 0%nat by lia. cbn.
  split; reflexivity.
Qed.

(** X29. Where a published message goes.  [publish] picks the exchange
    [matchmaking] for every routing key that starts with [matchmaking], and
    the queues of that exchange are bound with the keys [queue.join],
    [queue.leave] and [match.created]: no routing key that starts with
    [matchmaking] reaches a queue, among them the three keys the matchmaking
    service publishes with.  A message reaches a queue only when its routing
    key is one of [game.started], [game.ended] and [player.rating.updated],
    and then the queue of that very name. *)
Theorem publish_reaches_game_queues_only (routingKey : string) :
  (String.prefix "matchmaking" routingKey = true ->
   RabbitMQClient.delivered_to routingKey = [])
  /\ (forall queue, queue ∈ RabbitMQClient.delivered_to routingKey ->
        queue = routingKey
        /\ routingKey ∈ ["game.started"; "game.ended"; "player.rating.updated"]%string)
  /\ RabbitMQClient.delivered_to "matchmaking.queue.join" = []
  /\ RabbitMQClient.delivered_to "matchmaking.queue.leave" = []
  /\ RabbitMQClient.delivered_to "matchmaking.match.created" = [].
Proof.
  assert (Hin : forall queue, queue ∈ RabbitMQClient.delivered_to routingKey ->
            queue = routingKey
            /\ routingKey ∈ ["game.started"; "game.ended"; "player.rating.updated"]%string
            /\ String.prefix "matchmaking" routingKey = false).
  { intros queue Hq. unfold RabbitMQClient.delivered_to, RabbitMQClient.routed_to in Hq.
    apply list_elem_of_fmap in Hq as ([[q ex] key] & -> & Hb).
    apply list_elem_of_filter in Hb as [[Hex Hkey] Hb]. cbn in Hex, Hkey |- *.
    subst key. unfold RabbitMQClient.exchange_of in Hex.
    unfold RabbitMQClient.queues in Hb.
    repeat (apply elem_of_cons in Hb as [Hb | Hb];
            [inversion Hb; subst;
             first [ exfalso;
                     match goal with
                     | H : (if _ then _ else _) = _ |- _ =>
                         vm_compute in H; discriminate H
                     end
                   | split; [reflexivity |];
                     split; [set_solver | vm_compute; reflexivity]] |]).
    inversion Hb. }
  split.
  { intros Hprefix.
    destruct (RabbitMQClient.delivered_to routingKey) as [| q rest] eqn:Hd;
      [reflexivity |].
    destruct (Hin q ltac:(left)) as (_ & _ & Hfalse). congruence. }
  split; [intros queue Hq; destruct (Hin queue Hq) as (? & ? & _); auto |].
  repeat split; vm_compute; reflexivity.
Qed.

(** ** The two game services of the server *)

Lemma emitted_since_same (w w' : World) :
  emitted w' = emitted w -> emitted_since w w' = [].
Proof. unfold emitted_since. intros ->. apply drop_all. Qed.

Lemma emitted_since_app (w w' : World) (new : list Event) :
  emitted w' = emitted w ++ new -> emitted_since w w' = new.
Proof. unfold emitted_since. intros ->. apply drop_app_length. Qed.

Lemma restore_activeGames (w : World) (held : gmap string Game)
    (f g : gmap string Game -> gmap string Game) :
  held = activeGames w ->
  set_activeGames (fun _ => held) (set_activeGames f (set_activeGames g w)) = w.
Proof. intros ->. destruct w. reflexivity. Qed.

(** X30. The server's own [GameService] can be left behind by the one that
    starts the games.  Take a game that the matchmaker's [GameService] has
    created and holds, waiting to start, the store answering.  If the
    server's [GameService] reads the game before the start (a request for
    the game, or any action on it), it holds the game as [starting] from then
    on: after the start timer has run on the matchmaker's side the store has
    the game as active, no [game_started] has been forwarded to the clients,
    and every action on the game, from any socket, is dropped without a
    trace. *)
Theorem early_read_leaves_game_starting (sv : Server) (gameId : string) (game : Game)
    (t1 : Z) :
  fault_free (matchmaker sv) ->
  activeGames (matchmaker sv) !! gameId = Some game ->
  redis_games (matchmaker sv) !! gameId = Some game ->
  game_status game = starting ->
  api_games sv !! gameId = None ->
  let sv1 := (on_api (GameService.getGame gameId) sv).1 in
  let sv2 := (on_matchmaker (GameService.startGame gameId t1) sv1).1 in
  redis_games (matchmaker sv2) !! gameId = Some (GameService.started game t1)
  /\ forwarded sv2 = forwarded sv
  /\ forall socketId action payload t2,
       on_api (GameService.handleGameAction gameId socketId action payload t2) sv2
       = (sv2, inr tt).
Proof.
  intros Hff Hheld Hstored Hstatus Hapi sv1 sv2.
  destruct sv as [w api fwd]. cbn in Hff, Hheld, Hstored, Hapi.
  assert (Hsv1 : sv1 = mkServer w (<[gameId := game]> api) fwd).
  { subst sv1. unfold on_api. cbn [matchmaker api_games forwarded].
    rewrite (getGame_found _ gameId game);
      [| exact Hff | unfold lookup_game; cbn; rewrite Hapi; exact Hstored].
    cbn [fst snd].
    rewrite restore_activeGames by reflexivity.
    rewrite emitted_since_same by reflexivity.
    rewrite app_nil_r. reflexivity. }
  assert (Hl : lookup_game w gameId = Some game)
    by (unfold lookup_game; rewrite Hheld; reflexivity).
  pose proof (startGame_run w gameId game t1 Hff Hl) as Hstart. cbv zeta in Hstart.
  set (game' := GameService.started game t1) in *.
  set (w2 := set_emitted (fun l => l ++ [game_update gameId (game_started game')])
               (set_activeGames <[gameId := game']>
                  (set_games <[gameId := game']>
                     (set_activeGames <[gameId := game']>
                        (set_activeGames <[gameId := game]> w))))) in *.
  assert (Hsv2 : sv2 = mkServer w2 (<[gameId := game]> api) fwd).
  { subst sv2. rewrite Hsv1. unfold on_matchmaker.
    cbn [matchmaker api_games forwarded]. rewrite Hstart. cbn [fst snd].
    f_equal. rewrite (emitted_since_app w w2 [game_update gameId (game_started game')])
      by reflexivity.
    cbn. apply app_nil_r. }
  rewrite Hsv2. cbn [matchmaker forwarded].
  split; [subst w2; cbn; apply lookup_insert_eq |]. split; [reflexivity |].
  intros socketId action payload t2. unfold on_api.
  cbn [matchmaker api_games forwarded].
  rewrite (handleGameAction_dropped _ gameId socketId action payload t2 game);
    [| exact Hff
     | unfold lookup_game; cbn; rewrite lookup_insert_eq; reflexivity
     | rewrite Hstatus; discriminate].
  cbn [fst snd].
  rewrite restore_activeGames by reflexivity.
  rewrite emitted_since_same by reflexivity.
  rewrite app_nil_r. cbn [activeGames set_activeGames].
  rewrite insert_insert_eq. reflexivity.
Qed.

Lemma early_read_leaves_game_starting_witness :
  let sv := mkServer game_created ∅ [] in
  let game := mkGame "game-1" [alice_gp; bob_gp] "chess" starting 2000 ChessConfig
                None None None in
  let sv1 := (on_api (GameService.getGame "game-1") sv).1 in
  let sv2 := (on_matchmaker (GameService.startGame "game-1" 7000) sv1).1 in
  redis_games (matchmaker sv2) !! "game-1" = Some (GameService.started game 7000)
  /\ forwarded sv2 = forwarded sv
  /\ forall socketId action payload t2,
       on_api (GameService.handleGameAction "game-1" socketId action payload t2) sv2
       = (sv2, inr tt).
Proof.
  apply (early_read_leaves_game_starting (mkServer game_created ∅ []) "game-1"
           (mkGame "game-1" [alice_gp; bob_gp] "chess" starting 2000 ChessConfig
              None None None) 7000).
  - vm_compute. reflexivity.
  - vm_compute. reflexivity.
  - vm_compute. reflexivity.
  - reflexivity.
  - reflexivity.
Defined.
